(** * Hermes2D adaptive mesh engine: refinement, derefinement, regularization

    A shallow embedding of [hermes2d/src/mesh/mesh.cpp] and of the parts of
    the node hash table and of the element class it relies on, together with
    the properties of the specification that concern them. *)

From Stdlib Require Import ZArith Floats Lia.
From stdpp Require Import gmap strings list.

Set Default Proof Using "Type".
Set Warnings "-inexact-float".

(** * Errors and the state-and-error monad *)

(** The exceptions of the mesh module. The first four are the exception
    classes the code throws; the remaining ones stand for what C++ leaves
    undefined or aborts on (a failed [assert] in a build that checks them, a
    null or wild pointer, a write outside an allocated block) and for the
    fuel of the model. *)
Inductive error : Type :=
| Exception (msg : string)
| MeshLoadFailureException (msg : string)
| CurvedException (elementId : Z)
| ValueException (name : string)
| AssertionFailed (expr : string)
| InvalidPointer
| OutOfBounds
| OutOfFuel.

Inductive result (A : Type) : Type :=
| Ok (a : A)
| Err (e : error).
Arguments Ok {A} a.
Arguments Err {A} e.

Definition M (St A : Type) : Type := St → result (A * St).

Global Instance M_ret {St} : MRet (M St) := λ A a s, Ok (a, s).
Global Instance M_bind {St} : MBind (M St) := λ A B k c s,
  match c s with
  | Ok (a, s') => k a s'
  | Err e => Err e
  end.

Definition throw {St A} (e : error) : M St A := λ _, Err e.
Definition get {St} : M St St := λ s, Ok (s, s).
Definition put {St} (s : St) : M St unit := λ _, Ok (tt, s).
Definition modify {St} (f : St → St) : M St unit := λ s, Ok (tt, f s).
Definition gets {St A} (f : St → A) : M St A := λ s, Ok (f s, s).

(** A dereferenced pointer: [None] is the null pointer or a slot outside
    the array. *)
Definition deref {St A} (o : option A) : M St A :=
  match o with
  | Some a => mret a
  | None => throw InvalidPointer
  end.

(** [for (i = 0; i < n; i++) body(i)], with the bound read once. *)
Fixpoint for_upto_from {St} (n i : nat) (body : nat → M St unit) : M St unit :=
  match n with
  | O => mret tt
  | S n' => body i ;; for_upto_from n' (S i) body
  end.
Definition for_upto {St} (n : nat) (body : nat → M St unit) : M St unit :=
  for_upto_from n 0 body.

(** The values [f 0], ..., [f (n - 1)], computed in this order. *)
Fixpoint collect_from {St A} (n i : nat) (f : nat → M St A) : M St (list A) :=
  match n with
  | O => mret []
  | S n' => a ← f i; rest ← collect_from n' (S i) f; mret (a :: rest)
  end.
Definition collect {St A} (n : nat) (f : nat → M St A) : M St (list A) :=
  collect_from n 0 f.

(** A loop over [0 .. n - 1] that threads a local variable. *)
Fixpoint fold_upto_from {St A} (n i : nat) (body : nat → A → M St A) (a : A)
  : M St A :=
  match n with
  | O => mret a
  | S n' => a' ← body i a; fold_upto_from n' (S i) body a'
  end.
Definition fold_upto {St A} (n : nat) (body : nat → A → M St A) (a : A)
  : M St A := fold_upto_from n 0 body a.

(** * Nodes and the node hash table *)

Inductive node_type : Type := HERMES_TYPE_VERTEX | HERMES_TYPE_EDGE.

Global Instance node_type_eq_dec : EqDecision node_type.
Proof. solve_decision. Defined.

(** Modelled from the spec: the [Node] structure (declared in the element
    header, which is not part of the sources at hand). A vertex node carries
    coordinates, an edge node a boundary marker and up to two back-references
    to its incident elements; both carry the pair of vertex ids they were
    created from, a boundary flag and a reference count. Pointers to nodes
    and elements are slot indices of the owning array; the [id] of an item is
    the index of its slot. *)
Record Node : Type := mkNode {
  n_used : bool;
  n_type : node_type;
  n_ref : Z;
  n_bnd : Z;
  n_p1 : Z;
  n_p2 : Z;
  n_x : float;
  n_y : float;
  n_marker : Z;
  n_elem : option nat * option nat
}.

Definition default_node : Node :=
  mkNode false HERMES_TYPE_VERTEX 0 0 0 0 0%float 0%float 0 (None, None).

Definition node_set_used (b : bool) (n : Node) : Node :=
  mkNode b (n_type n) (n_ref n) (n_bnd n) (n_p1 n) (n_p2 n) (n_x n) (n_y n)
         (n_marker n) (n_elem n).
Definition node_set_ref (r : Z) (n : Node) : Node :=
  mkNode (n_used n) (n_type n) r (n_bnd n) (n_p1 n) (n_p2 n) (n_x n) (n_y n)
         (n_marker n) (n_elem n).
Definition node_set_bnd (b : Z) (n : Node) : Node :=
  mkNode (n_used n) (n_type n) (n_ref n) b (n_p1 n) (n_p2 n) (n_x n) (n_y n)
         (n_marker n) (n_elem n).
Definition node_set_marker (k : Z) (n : Node) : Node :=
  mkNode (n_used n) (n_type n) (n_ref n) (n_bnd n) (n_p1 n) (n_p2 n) (n_x n)
         (n_y n) k (n_elem n).
Definition node_set_xy (x y : float) (n : Node) : Node :=
  mkNode (n_used n) (n_type n) (n_ref n) (n_bnd n) (n_p1 n) (n_p2 n) x y
         (n_marker n) (n_elem n).
Definition node_set_elem (el : option nat * option nat) (n : Node) : Node :=
  mkNode (n_used n) (n_type n) (n_ref n) (n_bnd n) (n_p1 n) (n_p2 n) (n_x n)
         (n_y n) (n_marker n) el.

(** Modelled from the spec: the node table ([HashTable], whose source file is
    not at hand). It owns the slot array of the nodes and two tables, one for
    vertex nodes and one for edge nodes, keyed by the unordered pair of vertex
    ids. *)
Record HashTable : Type := mkHashTable {
  nodes : list Node;
  v_table : gmap (Z * Z) nat;
  e_table : gmap (Z * Z) nat
}.

Definition empty_table : HashTable := mkHashTable [] ∅ ∅.

Definition ht_set_nodes (ns : list Node) (h : HashTable) : HashTable :=
  mkHashTable ns (v_table h) (e_table h).

(** The key of a pair of ids: the pair in increasing order, so that [(a, b)]
    and [(b, a)] name the same entry. *)
Definition hkey (p1 p2 : Z) : Z * Z :=
  if (p2 <? p1)%Z then (p2, p1) else (p1, p2).

(** Modelled from the spec: the slot array ([Array<T>]) hands out the slot of
    a logically removed item when there is one and appends otherwise; a
    removed slot keeps its contents and gets [used = false]. *)
Definition nodes_add (ns : list Node) : nat * list Node :=
  match list_find (λ n, n_used n = false) ns with
  | Some (i, n) => (i, <[i := node_set_used true n]> ns)
  | None => (length ns, ns ++ [node_set_used true default_node])
  end.

Definition nodes_remove (i : nat) (ns : list Node) : list Node :=
  alter (node_set_used false) i ns.

Definition node_at (p : nat) : M HashTable Node :=
  λ h, deref (nodes h !! p) h.

Definition node_by_id (id : Z) : M HashTable Node :=
  λ h, if (id <? 0)%Z then Err InvalidPointer else deref (nodes h !! Z.to_nat id) h.

Definition update_node (p : nat) (f : Node → Node) : M HashTable unit :=
  λ h, match nodes h !! p with
       | Some _ => Ok (tt, ht_set_nodes (alter f p (nodes h)) h)
       | None => Err InvalidPointer
       end.

Definition node_id (p : nat) : Z := Z.of_nat p.

Definition ht_nodes_add : M HashTable nat :=
  λ h, let '(p, ns) := nodes_add (nodes h) in Ok (p, ht_set_nodes ns h).

Definition ht_set_v_table (t : gmap (Z * Z) nat) (h : HashTable) : HashTable :=
  mkHashTable (nodes h) t (e_table h).
Definition ht_set_e_table (t : gmap (Z * Z) nat) (h : HashTable) : HashTable :=
  mkHashTable (nodes h) (v_table h) t.

Definition init_vertex_node (k : Z * Z) (n : Node) : Node :=
  mkNode (n_used n) HERMES_TYPE_VERTEX 0 0 k.1 k.2 (n_x n) (n_y n)
         (n_marker n) (n_elem n).
Definition init_edge_node (k : Z * Z) (n : Node) : Node :=
  mkNode (n_used n) HERMES_TYPE_EDGE 0 0 k.1 k.2 (n_x n) (n_y n) 0 (None, None).

Definition midpoint (a b : float) : float := ((a + b) * 0.5)%float.

(** Modelled from the spec: [peek_*] return the node keyed by the unordered
    pair, or null; [get_*] return it when present and otherwise allocate one,
    initialise it (a vertex node at the middle of its two parents, an edge
    node with marker 0 and no incident element, both with reference count 0)
    and insert it. *)
Definition peek_vertex_node (p1 p2 : Z) (h : HashTable) : option nat :=
  v_table h !! hkey p1 p2.
Definition peek_edge_node (p1 p2 : Z) (h : HashTable) : option nat :=
  e_table h !! hkey p1 p2.

Definition get_vertex_node (p1 p2 : Z) : M HashTable nat :=
  h ← get;
  match peek_vertex_node p1 p2 h with
  | Some p => mret p
  | None =>
      p ← ht_nodes_add;
      update_node p (init_vertex_node (hkey p1 p2));;
      a ← node_by_id (hkey p1 p2).1;
      b ← node_by_id (hkey p1 p2).2;
      update_node p (node_set_xy (midpoint (n_x a) (n_x b))
                                 (midpoint (n_y a) (n_y b)));;
      modify (λ h, ht_set_v_table (<[hkey p1 p2 := p]> (v_table h)) h);;
      mret p
  end.

Definition get_edge_node (p1 p2 : Z) : M HashTable nat :=
  h ← get;
  match peek_edge_node p1 p2 h with
  | Some p => mret p
  | None =>
      p ← ht_nodes_add;
      update_node p (init_edge_node (hkey p1 p2));;
      modify (λ h, ht_set_e_table (<[hkey p1 p2 := p]> (e_table h)) h);;
      mret p
  end.

(** Modelled from the spec: releasing a node takes it out of its table (the
    entry found under the pair stored in the node, when it is this node) and
    frees its slot. *)
Definition table_remove (p : nat) (k : Z * Z) (t : gmap (Z * Z) nat)
  : gmap (Z * Z) nat :=
  if decide (t !! k = Some p) then delete k t else t.

Definition remove_vertex_node (p : nat) : M HashTable unit :=
  n ← node_at p;
  modify (λ h, mkHashTable (nodes_remove p (nodes h))
                 (table_remove p (n_p1 n, n_p2 n) (v_table h)) (e_table h)).

Definition remove_edge_node (p : nat) : M HashTable unit :=
  n ← node_at p;
  modify (λ h, mkHashTable (nodes_remove p (nodes h)) (v_table h)
                 (table_remove p (n_p1 n, n_p2 n) (e_table h))).

(** Modelled from the spec: [Node::ref_element] counts one more user and, on
    an edge node, stores the element in a free back-reference (there are two;
    a third incident element is an error). [Node::unref_element] drops the
    back-reference and the count, and releases the node at zero. *)
Definition ref_element (p : nat) (e : option nat) : M HashTable unit :=
  n ← node_at p;
  match n_type n with
  | HERMES_TYPE_EDGE =>
      match n_elem n with
      | (None, e1) => update_node p (node_set_elem (e, e1))
      | (Some e0, None) => update_node p (node_set_elem (Some e0, e))
      | (Some _, Some _) => throw (Exception "No free slot 'elem'")
      end
  | HERMES_TYPE_VERTEX => mret tt
  end;;
  update_node p (λ n, node_set_ref (n_ref n + 1) n).

Definition clear_elem (e : option nat) (el : option nat * option nat)
  : option nat * option nat :=
  if decide (el.1 = e) then (None, el.2)
  else if decide (el.2 = e) then (el.1, None)
  else el.

Definition unref_element (p : nat) (e : option nat) : M HashTable unit :=
  n ← node_at p;
  match n_type n with
  | HERMES_TYPE_VERTEX =>
      update_node p (node_set_ref (n_ref n - 1));;
      if decide (n_ref n - 1 = 0)%Z then remove_vertex_node p else mret tt
  | HERMES_TYPE_EDGE =>
      update_node p (node_set_elem (clear_elem e (n_elem n)));;
      update_node p (node_set_ref (n_ref n - 1));;
      if decide (n_ref n - 1 = 0)%Z then remove_edge_node p else mret tt
  end.

(** * Elements *)

(** Modelled from the spec: the curved-boundary map of an element. Its
    numerical content belongs to the geometry module, which the mesh engine
    calls without looking inside; only what the engine itself reads or sets is
    kept apart from the opaque coefficients. *)
Record CurvMap : Type := mkCurvMap {
  cm_toplevel : bool;
  cm_order : Z;
  cm_parent : option nat;
  cm_part : Z;
  cm_coeffs : list float
}.

(** Modelled from the spec: the [Element] structure (declared in the element
    header, not part of the sources at hand): vertex and edge node references,
    marker, active and used flags, up to four sons, the parent, the optional
    curvature map and the cached inverse reference order. A fresh slot of the
    element array has no sons. *)
Record Element : Type := mkElement {
  e_used : bool;
  e_active : bool;
  e_nvert : nat;
  e_marker : Z;
  e_iro_cache : Z;
  e_visited : bool;
  e_parent : option nat;
  e_cm : option CurvMap;
  e_vn : list (option nat);
  e_en : list (option nat);
  e_sons : list (option nat)
}.

Definition null4 : list (option nat) := [None; None; None; None].

Definition default_element : Element :=
  mkElement false false 0 0 0 false None None null4 null4 null4.

Definition elem_set_used (b : bool) (e : Element) : Element :=
  mkElement b (e_active e) (e_nvert e) (e_marker e) (e_iro_cache e)
    (e_visited e) (e_parent e) (e_cm e) (e_vn e) (e_en e) (e_sons e).
Definition elem_set_active (b : bool) (e : Element) : Element :=
  mkElement (e_used e) b (e_nvert e) (e_marker e) (e_iro_cache e)
    (e_visited e) (e_parent e) (e_cm e) (e_vn e) (e_en e) (e_sons e).
Definition elem_set_iro_cache (c : Z) (e : Element) : Element :=
  mkElement (e_used e) (e_active e) (e_nvert e) (e_marker e) c
    (e_visited e) (e_parent e) (e_cm e) (e_vn e) (e_en e) (e_sons e).
Definition elem_set_parent (p : option nat) (e : Element) : Element :=
  mkElement (e_used e) (e_active e) (e_nvert e) (e_marker e) (e_iro_cache e)
    (e_visited e) p (e_cm e) (e_vn e) (e_en e) (e_sons e).
Definition elem_set_cm (c : option CurvMap) (e : Element) : Element :=
  mkElement (e_used e) (e_active e) (e_nvert e) (e_marker e) (e_iro_cache e)
    (e_visited e) (e_parent e) c (e_vn e) (e_en e) (e_sons e).
Definition elem_set_vn (l : list (option nat)) (e : Element) : Element :=
  mkElement (e_used e) (e_active e) (e_nvert e) (e_marker e) (e_iro_cache e)
    (e_visited e) (e_parent e) (e_cm e) l (e_en e) (e_sons e).
Definition elem_set_en (l : list (option nat)) (e : Element) : Element :=
  mkElement (e_used e) (e_active e) (e_nvert e) (e_marker e) (e_iro_cache e)
    (e_visited e) (e_parent e) (e_cm e) (e_vn e) l (e_sons e).
Definition elem_set_sons (l : list (option nat)) (e : Element) : Element :=
  mkElement (e_used e) (e_active e) (e_nvert e) (e_marker e) (e_iro_cache e)
    (e_visited e) (e_parent e) (e_cm e) (e_vn e) (e_en e) l.

(** The initialisation [create_triangle] and [create_quad] give a new
    element before its nodes are attached. *)
Definition elem_init (marker : Z) (nvert : nat) (cm : option CurvMap)
    (e : Element) : Element :=
  mkElement (e_used e) true nvert marker 0 false None cm
    (e_vn e) (e_en e) (e_sons e).

(** Entry [i] of an array of four pointers; null when unset. *)
Definition slot (l : list (option nat)) (i : nat) : option nat :=
  mjoin (l !! i).

Definition is_triangle (e : Element) : bool := bool_decide (e_nvert e = 3).
Definition is_quad (e : Element) : bool := bool_decide (e_nvert e = 4).
Definition is_curved (e : Element) : bool :=
  match e_cm e with Some _ => true | None => false end.
Definition next_vert (e : Element) (i : nat) : nat :=
  if decide (i < e_nvert e - 1) then i + 1 else 0.
Definition prev_vert (e : Element) (i : nat) : nat :=
  if decide (0 < i) then i - 1 else e_nvert e - 1.

(** [Element::ref_all_nodes] and [Element::unref_all_nodes] of the element
    stored in slot [ep]. *)
Definition ref_all_nodes (ep : nat) (e : Element) : M HashTable unit :=
  for_upto (e_nvert e) (λ i,
    v ← deref (slot (e_vn e) i);
    ref_element v None;;
    n ← deref (slot (e_en e) i);
    ref_element n (Some ep)).

Definition unref_all_nodes (ep : nat) (e : Element) : M HashTable unit :=
  for_upto (e_nvert e) (λ i,
    v ← deref (slot (e_vn e) i);
    unref_element v None;;
    n ← deref (slot (e_en e) i);
    unref_element n (Some ep)).

Definition elements_add (es : list Element) : nat * list Element :=
  match list_find (λ e, e_used e = false) es with
  | Some (i, e) => (i, <[i := elem_set_used true e]> es)
  | None => (length es, es ++ [elem_set_used true default_element])
  end.

Definition elements_remove (i : nat) (es : list Element) : list Element :=
  alter (elem_set_used false) i es.

(** * The mesh *)

(** The marker tables translate user marker names to small integers and
    back ([Mesh::MarkersConversion]). *)
Record MarkersConversion : Type := mkMarkersConversion {
  conversion_table : gmap Z string;
  conversion_table_inverse : gmap string Z;
  min_marker_unused : Z
}.

Definition empty_markers : MarkersConversion := mkMarkersConversion ∅ ∅ 1.

Definition H2D_DG_INNER_EDGE_INT : Z := -54125631.
Definition H2D_DG_INNER_EDGE : string := "-54125631".

(** [MarkersConversion::insert_marker]: the number of a known name, or the
    next unused number for a new one. *)
Definition insert_marker (user_marker : string) (c : MarkersConversion)
  : Z * MarkersConversion :=
  match conversion_table_inverse c !! user_marker with
  | Some k => (k, c)
  | None =>
      (min_marker_unused c,
       mkMarkersConversion
         (<[min_marker_unused c := user_marker]> (conversion_table c))
         (<[user_marker := min_marker_unused c]> (conversion_table_inverse c))
         (min_marker_unused c + 1))
  end.

Definition get_user_marker (internal_marker : Z) (c : MarkersConversion)
  : string * bool :=
  if decide (internal_marker = H2D_DG_INNER_EDGE_INT)
  then (H2D_DG_INNER_EDGE, true)
  else match conversion_table c !! internal_marker with
       | None => ("-999", false)
       | Some s => (s, true)
       end.

Definition get_internal_marker (user_marker : string) (c : MarkersConversion)
  : Z * bool :=
  if decide (user_marker = H2D_DG_INNER_EDGE)
  then (H2D_DG_INNER_EDGE_INT, true)
  else match conversion_table_inverse c !! user_marker with
       | None => (-999, false)%Z
       | Some k => (k, true)
       end.

(** The state of a [Mesh] object: the node table it inherits, the element
    array, the counters, the sequence number, the refinement log, the marker
    tables and the parent array of the last regularization. [g_mesh_seq] is
    the global counter the sequence numbers are drawn from (an [unsigned],
    wrapping at 2^32); the model carries it along with the mesh.
    [parents] maps the indices written so far to their entries: an index of
    the allocated block that was never written holds no determined value. *)
Record Mesh : Type := mkMesh {
  ht : HashTable;
  elements : list Element;
  nbase : Z;
  nactive : Z;
  ntopvert : Z;
  ninitial : Z;
  seq : Z;
  g_mesh_seq : Z;
  refinements : list (Z * Z);
  parents : gmap nat Z;
  parents_size : Z;
  element_markers_conversion : MarkersConversion;
  boundary_markers_conversion : MarkersConversion
}.

Definition mesh_set_ht (h : HashTable) (m : Mesh) : Mesh :=
  mkMesh h (elements m) (nbase m) (nactive m) (ntopvert m) (ninitial m)
    (seq m) (g_mesh_seq m) (refinements m) (parents m) (parents_size m)
    (element_markers_conversion m) (boundary_markers_conversion m).
Definition mesh_set_elements (es : list Element) (m : Mesh) : Mesh :=
  mkMesh (ht m) es (nbase m) (nactive m) (ntopvert m) (ninitial m)
    (seq m) (g_mesh_seq m) (refinements m) (parents m) (parents_size m)
    (element_markers_conversion m) (boundary_markers_conversion m).
Definition mesh_set_nactive (k : Z) (m : Mesh) : Mesh :=
  mkMesh (ht m) (elements m) (nbase m) k (ntopvert m) (ninitial m)
    (seq m) (g_mesh_seq m) (refinements m) (parents m) (parents_size m)
    (element_markers_conversion m) (boundary_markers_conversion m).
Definition mesh_set_refinements (l : list (Z * Z)) (m : Mesh) : Mesh :=
  mkMesh (ht m) (elements m) (nbase m) (nactive m) (ntopvert m) (ninitial m)
    (seq m) (g_mesh_seq m) l (parents m) (parents_size m)
    (element_markers_conversion m) (boundary_markers_conversion m).
Definition mesh_set_parents (p : gmap nat Z) (sz : Z) (m : Mesh) : Mesh :=
  mkMesh (ht m) (elements m) (nbase m) (nactive m) (ntopvert m) (ninitial m)
    (seq m) (g_mesh_seq m) (refinements m) p sz
    (element_markers_conversion m) (boundary_markers_conversion m).

(** [seq = g_mesh_seq++], on the 32-bit unsigned counter *)
Definition bump_seq (m : Mesh) : Mesh :=
  mkMesh (ht m) (elements m) (nbase m) (nactive m) (ntopvert m) (ninitial m)
    (g_mesh_seq m mod 2 ^ 32)%Z ((g_mesh_seq m + 1) mod 2 ^ 32)%Z
    (refinements m)
    (parents m) (parents_size m)
    (element_markers_conversion m) (boundary_markers_conversion m).

Definition liftH {A} (c : M HashTable A) : M Mesh A :=
  λ m, match c (ht m) with
       | Ok (a, h) => Ok (a, mesh_set_ht h m)
       | Err e => Err e
       end.

Definition elem_at (p : nat) : M Mesh Element :=
  λ m, deref (elements m !! p) m.

Definition update_elem (p : nat) (f : Element → Element) : M Mesh unit :=
  λ m, match elements m !! p with
       | Some _ => Ok (tt, mesh_set_elements (alter f p (elements m)) m)
       | None => Err InvalidPointer
       end.

Definition mesh_elements_add : M Mesh nat :=
  λ m, let '(p, es) := elements_add (elements m) in
       Ok (p, mesh_set_elements es m).

(** [Element* e = elements.add();] followed by the initialisation of the
    flags, the marker, the number of vertices, the map and the parent. *)
Definition new_element (marker : Z) (nvert : nat) (cm : option CurvMap)
  : M Mesh nat :=
  e ← mesh_elements_add;
  update_elem e (elem_init marker nvert cm);;
  mret e.

Definition node_of (v : option nat) : M Mesh Node :=
  p ← deref v; liftH (node_at p).

Definition add_nactive (k : Z) : M Mesh unit :=
  modify (λ m, mesh_set_nactive (nactive m + k) m).

(** What the mesh engine takes from its surroundings: whether the build
    defines [NDEBUG], which turns every [assert] into an empty statement, and
    what comes from collaborators whose sources are not at hand: the
    reference count that marks the vertices of the coarse mesh (a constant of
    the node header), the part of the geometry module called on curved
    elements, and the helper of the mesh utilities that names the two sons of
    a refined element lying along a given edge of it. *)
Class Collaborators : Type := {
  NDEBUG : bool;
  TOP_LEVEL_REF : Z;
  get_mid_edge_points :
    Mesh → nat → list (float * float) → list (float * float);
  create_son_curv_map : Mesh → nat → Z → CurvMap;
  update_refmap_coeffs : Mesh → nat → CurvMap → CurvMap;
  triangle_to_quads_curv_maps : Mesh → nat → list (option CurvMap);
  get_edge_sons : Element → nat → nat * nat
}.

Section MeshOperations.
Context {C : Collaborators}.

(** [assert(c)] of [<cassert>]: nothing when the build defines [NDEBUG];
    otherwise a false condition aborts the program. *)
Definition assert {St : Type} (c : bool) (expr : string) : M St unit :=
  if NDEBUG || c then mret tt else throw (AssertionFailed expr).

(** ** Queries *)

Definition get_num_active_elements (m : Mesh) : Z :=
  if (seq m <? 0)%Z then (-1)%Z else nactive m.

Definition get_max_element_id (m : Mesh) : Z :=
  if (seq m <? 0)%Z then (-1)%Z else Z.of_nat (length (elements m)).

(** [Mesh::get_element]: the pointer to the slot, after the bounds check. *)
Definition get_element (id : Z) : M Mesh nat :=
  m ← get;
  if ((id <? 0) || (Z.of_nat (length (elements m)) <=? id))%Z
  then throw (Exception "Invalid element ID %d, current range:[0; %d]")
  else mret (Z.to_nat id).

(** ** Element creation *)

Definition same_ptr (a b : option nat) : bool := bool_decide (a = b).

Definition set3 (a b c : option nat) (l : list (option nat))
  : list (option nat) := <[2 := c]> (<[1 := b]> (<[0 := a]> l)).
Definition set4 (a b c d : option nat) (l : list (option nat))
  : list (option nat) := <[3 := d]> (<[2 := c]> (<[1 := b]> (<[0 := a]> l))).

Definition create_triangle (marker : Z) (v0 v1 v2 : option nat)
    (cm : option CurvMap) : M Mesh nat :=
  e ← new_element marker 3 cm;
  (if same_ptr v0 v1 || same_ptr v1 v2 || same_ptr v2 v0
   then throw (MeshLoadFailureException
     "Some of the vertices of element #%d are identical which is impossible.")
   else mret tt);;
  p0 ← deref v0; p1 ← deref v1; p2 ← deref v2;
  n0 ← liftH (node_at p0); n1 ← liftH (node_at p1); n2 ← liftH (node_at p2);
  (if PrimFloat.eqb (n_x n0) (n_x n1) && PrimFloat.eqb (n_x n0) (n_x n2)
   then throw (MeshLoadFailureException
     "Vertices [%i, %i, %i] in element %i share x-coordinates: [%f, %f, %f].")
   else mret tt);;
  (if PrimFloat.eqb (n_y n0) (n_y n1) && PrimFloat.eqb (n_y n0) (n_y n2)
   then throw (MeshLoadFailureException
     "Vertices [%i, %i, %i] in element %i share y-coordinates: [%f, %f, %f].")
   else mret tt);;
  update_elem e (λ x, elem_set_vn (set3 v0 v1 v2 (e_vn x)) x);;
  en0 ← liftH (get_edge_node (node_id p0) (node_id p1));
  en1 ← liftH (get_edge_node (node_id p1) (node_id p2));
  en2 ← liftH (get_edge_node (node_id p2) (node_id p0));
  update_elem e (λ x,
    elem_set_en (set3 (Some en0) (Some en1) (Some en2) (e_en x)) x);;
  x ← elem_at e;
  liftH (ref_all_nodes e x);;
  mret e.

Definition create_quad (marker : Z) (v0 v1 v2 v3 : option nat)
    (cm : option CurvMap) : M Mesh nat :=
  e ← new_element marker 4 cm;
  (if same_ptr v0 v1 || same_ptr v1 v2 || same_ptr v2 v3 || same_ptr v3 v0
      || same_ptr v2 v0 || same_ptr v3 v1
   then throw (MeshLoadFailureException
     "Some of the vertices of element #%d are identical which is not right.")
   else mret tt);;
  p0 ← deref v0; p1 ← deref v1; p2 ← deref v2; p3 ← deref v3;
  n0 ← liftH (node_at p0); n1 ← liftH (node_at p1);
  n2 ← liftH (node_at p2); n3 ← liftH (node_at p3);
  (if (PrimFloat.eqb (n_x n0) (n_x n1) && PrimFloat.eqb (n_x n0) (n_x n2))
      || (PrimFloat.eqb (n_x n0) (n_x n1) && PrimFloat.eqb (n_x n0) (n_x n3))
      || (PrimFloat.eqb (n_x n0) (n_x n2) && PrimFloat.eqb (n_x n0) (n_x n3))
      || (PrimFloat.eqb (n_x n1) (n_x n2) && PrimFloat.eqb (n_x n2) (n_x n3))
   then throw (MeshLoadFailureException
     "Some of the vertices [%i, %i, %i, %i] in element %i share x-coordinates: [%f, %f, %f, %f].")
   else mret tt);;
  (if (PrimFloat.eqb (n_y n0) (n_y n1) && PrimFloat.eqb (n_y n0) (n_y n2))
      || (PrimFloat.eqb (n_y n0) (n_y n1) && PrimFloat.eqb (n_y n0) (n_y n3))
      || (PrimFloat.eqb (n_y n0) (n_y n2) && PrimFloat.eqb (n_y n0) (n_y n3))
      || (PrimFloat.eqb (n_y n1) (n_y n2) && PrimFloat.eqb (n_y n2) (n_y n3))
   then throw (MeshLoadFailureException
     "Some of the vertices [%i, %i, %i, %i] in element %i share y-coordinates: [%f, %f, %f, %f].")
   else mret tt);;
  update_elem e (λ x, elem_set_vn (set4 v0 v1 v2 v3 (e_vn x)) x);;
  en0 ← liftH (get_edge_node (node_id p0) (node_id p1));
  en1 ← liftH (get_edge_node (node_id p1) (node_id p2));
  en2 ← liftH (get_edge_node (node_id p2) (node_id p3));
  en3 ← liftH (get_edge_node (node_id p3) (node_id p0));
  update_elem e (λ x,
    elem_set_en (set4 (Some en0) (Some en1) (Some en2) (Some en3) (e_en x)) x);;
  x ← elem_at e;
  liftH (ref_all_nodes e x);;
  mret e.

(** Writes through node and element pointers. *)
Definition set_node_bnd (p : option nat) (b : Z) : M Mesh unit :=
  q ← deref p; liftH (update_node q (node_set_bnd b)).
Definition set_node_marker (p : option nat) (k : Z) : M Mesh unit :=
  q ← deref p; liftH (update_node q (node_set_marker k)).
Definition set_node_xy (p : nat) (xy : option (float * float)) : M Mesh unit :=
  c ← deref xy; liftH (update_node p (node_set_xy c.1 c.2)).

(** [s->en[i]->bnd = b; s->en[i]->marker = k] for the element in slot [s]. *)
Definition set_edge_bnd_marker (s i : nat) (b k : Z) : M Mesh unit :=
  x ← elem_at s; set_node_bnd (slot (e_en x) i) b;;
  x ← elem_at s; set_node_marker (slot (e_en x) i) k.
(** [s->vn[i]->bnd = b] *)
Definition set_vertex_bnd (s i : nat) (b : Z) : M Mesh unit :=
  x ← elem_at s; set_node_bnd (slot (e_vn x) i) b.

(** The boundary flags and markers of the edges of an element, as the
    refinement routines record them before the edge nodes may disappear. *)
Definition edge_bnd (e : Element) (i : nat) : M Mesh Z :=
  n ← node_of (slot (e_en e) i); mret (n_bnd n).
Definition edge_marker (e : Element) (i : nat) : M Mesh Z :=
  n ← node_of (slot (e_en e) i); mret (n_marker n).

Definition vertex_id (e : Element) (i : nat) : M Mesh Z :=
  p ← deref (slot (e_vn e) i); mret (node_id p).

(** ** Refinement *)

Definition update_son_refmap (s : nat) : M Mesh unit :=
  x ← elem_at s;
  match e_cm x with
  | Some c =>
      m ← get; update_elem s (elem_set_cm (Some (update_refmap_coeffs m s c)))
  | None => mret tt
  end.

Definition set_parent (s : option nat) (ep : nat) : M Mesh unit :=
  match s with
  | Some p => update_elem p (elem_set_parent (Some ep))
  | None => mret tt
  end.

(** [e->active = 0] followed by [e->unref_all_nodes(this)] *)
Definition deactivate (ep : nat) : M Mesh unit :=
  update_elem ep (elem_set_active false).
Definition unref_nodes_of (ep : nat) : M Mesh unit :=
  e ← elem_at ep; liftH (unref_all_nodes ep e).

(** The maps of the sons of a curved element: [n] maps, for the parts
    [first], [first + 1], ... *)
Definition son_curv_maps (ep : nat) (first : Z) (n : nat)
  : M Mesh (list (option CurvMap)) :=
  m ← get;
  mret (map (λ i, Some (create_son_curv_map m ep (first + Z.of_nat i))) (List.seq 0 n)).

Definition cm_slot (cm : list (option CurvMap)) (i : nat) : option CurvMap :=
  mjoin (cm !! i).

Definition refine_triangle_to_triangles (ep : nat) : M Mesh unit :=
  e ← elem_at ep;
  bnd0 ← edge_bnd e 0; bnd1 ← edge_bnd e 1; bnd2 ← edge_bnd e 2;
  mrk0 ← edge_marker e 0; mrk1 ← edge_marker e 1; mrk2 ← edge_marker e 2;
  i0 ← vertex_id e 0; i1 ← vertex_id e 1;
  x0 ← liftH (get_vertex_node i0 i1);
  i1 ← vertex_id e 1; i2 ← vertex_id e 2;
  x1 ← liftH (get_vertex_node i1 i2);
  i2 ← vertex_id e 2; i0 ← vertex_id e 0;
  x2 ← liftH (get_vertex_node i2 i0);
  cm ← (if is_curved e then
          m ← get;
          let pt := get_mid_edge_points m ep
                      [(0, -1); (0, 0); (-1, 0)]%float in
          set_node_xy x0 (pt !! 0%nat);;
          set_node_xy x1 (pt !! 1%nat);;
          set_node_xy x2 (pt !! 2%nat);;
          son_curv_maps ep 0 4
        else mret [None; None; None; None]);
  e ← elem_at ep;
  s0 ← create_triangle (e_marker e) (slot (e_vn e) 0) (Some x0) (Some x2)
         (cm_slot cm 0);
  e ← elem_at ep;
  s1 ← create_triangle (e_marker e) (Some x0) (slot (e_vn e) 1) (Some x1)
         (cm_slot cm 1);
  e ← elem_at ep;
  s2 ← create_triangle (e_marker e) (Some x2) (Some x1) (slot (e_vn e) 2)
         (cm_slot cm 2);
  e ← elem_at ep;
  s3 ← create_triangle (e_marker e) (Some x1) (Some x2) (Some x0)
         (cm_slot cm 3);
  update_son_refmap s0;; update_son_refmap s1;;
  update_son_refmap s2;; update_son_refmap s3;;
  deactivate ep;;
  add_nactive 3;;
  unref_nodes_of ep;;
  set_edge_bnd_marker s0 0 bnd0 mrk0;;
  set_edge_bnd_marker s0 2 bnd2 mrk2;;
  set_edge_bnd_marker s1 0 bnd0 mrk0;;
  set_edge_bnd_marker s1 1 bnd1 mrk1;;
  set_edge_bnd_marker s2 1 bnd1 mrk1;;
  set_edge_bnd_marker s2 2 bnd2 mrk2;;
  set_vertex_bnd s3 0 bnd1;;
  set_vertex_bnd s3 1 bnd2;;
  set_vertex_bnd s3 2 bnd0;;
  set_parent (Some s0) ep;; set_parent (Some s1) ep;;
  set_parent (Some s2) ep;; set_parent (Some s3) ep;;
  update_elem ep (elem_set_sons [Some s0; Some s1; Some s2; Some s3]).

Definition nthZ (l : list Z) (i : nat) : Z := default 0%Z (l !! i).

Definition refine_quad (ep : nat) (refinement : Z) : M Mesh unit :=
  e ← elem_at ep;
  bnd0 ← edge_bnd e 0; bnd1 ← edge_bnd e 1;
  bnd2 ← edge_bnd e 2; bnd3 ← edge_bnd e 3;
  mrk0 ← edge_marker e 0; mrk1 ← edge_marker e 1;
  mrk2 ← edge_marker e 2; mrk3 ← edge_marker e 3;
  let bnd := [bnd0; bnd1; bnd2; bnd3] in
  let mrk := [mrk0; mrk1; mrk2; mrk3] in
  deactivate ep;;
  add_nactive (-1);;
  unref_nodes_of ep;;
  sons ←
    (if decide (refinement = 0%Z) then
       e ← elem_at ep;
       i0 ← vertex_id e 0; i1 ← vertex_id e 1;
       x0 ← liftH (get_vertex_node i0 i1);
       i1 ← vertex_id e 1; i2 ← vertex_id e 2;
       x1 ← liftH (get_vertex_node i1 i2);
       i2 ← vertex_id e 2; i3 ← vertex_id e 3;
       x2 ← liftH (get_vertex_node i2 i3);
       i3 ← vertex_id e 3; i0 ← vertex_id e 0;
       x3 ← liftH (get_vertex_node i3 i0);
       mid ← liftH (get_vertex_node (node_id x0) (node_id x2));
       cm ← (if is_curved e then
               m ← get;
               let pt := get_mid_edge_points m ep
                   [(0, -1); (1, 0); (0, 1); (-1, 0); (0, 0)]%float in
               set_node_xy x0 (pt !! 0%nat);;
               set_node_xy x1 (pt !! 1%nat);;
               set_node_xy x2 (pt !! 2%nat);;
               set_node_xy x3 (pt !! 3%nat);;
               set_node_xy mid (pt !! 4%nat);;
               son_curv_maps ep 0 4
             else mret [None; None; None; None]);
       e ← elem_at ep;
       s0 ← create_quad (e_marker e) (slot (e_vn e) 0) (Some x0) (Some mid)
              (Some x3) (cm_slot cm 0);
       e ← elem_at ep;
       s1 ← create_quad (e_marker e) (Some x0) (slot (e_vn e) 1) (Some x1)
              (Some mid) (cm_slot cm 1);
       e ← elem_at ep;
       s2 ← create_quad (e_marker e) (Some mid) (Some x1) (slot (e_vn e) 2)
              (Some x2) (cm_slot cm 2);
       e ← elem_at ep;
       s3 ← create_quad (e_marker e) (Some x3) (Some mid) (Some x2)
              (slot (e_vn e) 3) (cm_slot cm 3);
       add_nactive 4;;
       for_upto 4 (λ i,
         let j := if decide (0 < i) then i - 1 else 3 in
         s ← deref ([s0; s1; s2; s3] !! i);
         set_edge_bnd_marker s j (nthZ bnd j) (nthZ mrk j);;
         set_edge_bnd_marker s i (nthZ bnd i) (nthZ mrk i);;
         set_vertex_bnd s j (nthZ bnd j));;
       mret [Some s0; Some s1; Some s2; Some s3]
     else if decide (refinement = 1%Z) then
       e ← elem_at ep;
       i1 ← vertex_id e 1; i2 ← vertex_id e 2;
       x1 ← liftH (get_vertex_node i1 i2);
       i3 ← vertex_id e 3; i0 ← vertex_id e 0;
       x3 ← liftH (get_vertex_node i3 i0);
       cm ← (if is_curved e then
               m ← get;
               let pt := get_mid_edge_points m ep [(1, 0); (-1, 0)]%float in
               set_node_xy x1 (pt !! 0%nat);;
               set_node_xy x3 (pt !! 1%nat);;
               son_curv_maps ep 4 2
             else mret [None; None; None; None]);
       e ← elem_at ep;
       s0 ← create_quad (e_marker e) (slot (e_vn e) 0) (slot (e_vn e) 1)
              (Some x1) (Some x3) (cm_slot cm 0);
       e ← elem_at ep;
       s1 ← create_quad (e_marker e) (Some x3) (Some x1) (slot (e_vn e) 2)
              (slot (e_vn e) 3) (cm_slot cm 1);
       add_nactive 2;;
       set_edge_bnd_marker s0 0 bnd0 mrk0;;
       set_edge_bnd_marker s0 1 bnd1 mrk1;;
       set_edge_bnd_marker s0 3 bnd3 mrk3;;
       set_edge_bnd_marker s1 1 bnd1 mrk1;;
       set_edge_bnd_marker s1 2 bnd2 mrk2;;
       set_edge_bnd_marker s1 3 bnd3 mrk3;;
       set_vertex_bnd s0 2 bnd1;;
       set_vertex_bnd s0 3 bnd3;;
       mret [Some s0; Some s1; None; None]
     else if decide (refinement = 2%Z) then
       e ← elem_at ep;
       i0 ← vertex_id e 0; i1 ← vertex_id e 1;
       x0 ← liftH (get_vertex_node i0 i1);
       i2 ← vertex_id e 2; i3 ← vertex_id e 3;
       x2 ← liftH (get_vertex_node i2 i3);
       cm ← (if is_curved e then
               m ← get;
               let pt := get_mid_edge_points m ep [(0, -1); (0, 1)]%float in
               set_node_xy x0 (pt !! 0%nat);;
               set_node_xy x2 (pt !! 1%nat);;
               son_curv_maps ep 6 2
             else mret [None; None; None; None]);
       e ← elem_at ep;
       s2 ← create_quad (e_marker e) (slot (e_vn e) 0) (Some x0) (Some x2)
              (slot (e_vn e) 3) (cm_slot cm 0);
       e ← elem_at ep;
       s3 ← create_quad (e_marker e) (Some x0) (slot (e_vn e) 1)
              (slot (e_vn e) 2) (Some x2) (cm_slot cm 1);
       add_nactive 2;;
       set_edge_bnd_marker s2 0 bnd0 mrk0;;
       set_edge_bnd_marker s2 2 bnd2 mrk2;;
       set_edge_bnd_marker s2 3 bnd3 mrk3;;
       set_edge_bnd_marker s3 0 bnd0 mrk0;;
       set_edge_bnd_marker s3 1 bnd1 mrk1;;
       set_edge_bnd_marker s3 2 bnd2 mrk2;;
       set_vertex_bnd s2 1 bnd0;;
       set_vertex_bnd s2 2 bnd2;;
       mret [None; None; Some s2; Some s3]
     else
       assert false "0";;
       mret [None; None; None; None]);
  for_upto 4 (λ i,
    match mjoin (sons !! i) with
    | Some s => update_son_refmap s
    | None => mret tt
    end);;
  for_upto 4 (λ i, set_parent (mjoin (sons !! i)) ep);;
  update_elem ep (elem_set_sons sons).

(** [refine_triangle_to_quads]: the three quads around the centre of
    gravity. The centre is the vertex node keyed by the pair
    [(x0, vn[1])]. On a curved boundary element the maps of the sons come from
    the geometry module; the [get_vertex_node] calls made while they are built
    name mid-edge nodes obtained just before, and so leave the table as it is. *)
Definition refine_triangle_to_quads (ep : nat) : M Mesh unit :=
  e ← elem_at ep;
  bnd0 ← edge_bnd e 0; bnd1 ← edge_bnd e 1; bnd2 ← edge_bnd e 2;
  mrk0 ← edge_marker e 0; mrk1 ← edge_marker e 1; mrk2 ← edge_marker e 2;
  i0 ← vertex_id e 0; i1 ← vertex_id e 1;
  x0 ← liftH (get_vertex_node i0 i1);
  i1 ← vertex_id e 1; i2 ← vertex_id e 2;
  x1 ← liftH (get_vertex_node i1 i2);
  i2 ← vertex_id e 2; i0 ← vertex_id e 0;
  x2 ← liftH (get_vertex_node i2 i0);
  i1 ← vertex_id e 1;
  mid ← liftH (get_vertex_node (node_id x0) i1);
  n0 ← liftH (node_at x0); n1 ← liftH (node_at x1); n2 ← liftH (node_at x2);
  liftH (update_node mid
    (node_set_xy ((n_x n0 + n_x n1 + n_x n2) / 3)%float
                 ((n_y n0 + n_y n1 + n_y n2) / 3)%float));;
  let e_inter := bool_decide (bnd0 ≠ 1%Z ∧ bnd1 ≠ 1%Z ∧ bnd2 ≠ 1%Z) in
  cm ← (if is_curved e && negb e_inter then
          m ← get;
          let pt := get_mid_edge_points m ep
              [(0, -1); (0, 0); (-1, 0);
               (-0.33333333, -0.33333333)]%float in
          set_node_xy x0 (pt !! 0%nat);;
          set_node_xy x1 (pt !! 1%nat);;
          set_node_xy x2 (pt !! 2%nat);;
          set_node_xy mid (pt !! 3%nat);;
          m ← get;
          mret (triangle_to_quads_curv_maps m ep)
        else mret [None; None; None; None]);
  e ← elem_at ep;
  s0 ← create_quad (e_marker e) (slot (e_vn e) 0) (Some x0) (Some mid)
         (Some x2) (cm_slot cm 0);
  e ← elem_at ep;
  s1 ← create_quad (e_marker e) (Some x0) (slot (e_vn e) 1) (Some x1)
         (Some mid) (cm_slot cm 1);
  e ← elem_at ep;
  s2 ← create_quad (e_marker e) (Some x1) (slot (e_vn e) 2) (Some x2)
         (Some mid) (cm_slot cm 2);
  update_son_refmap s0;; update_son_refmap s1;; update_son_refmap s2;;
  deactivate ep;;
  add_nactive 2;;
  unref_nodes_of ep;;
  set_edge_bnd_marker s0 0 bnd0 mrk0;;
  set_edge_bnd_marker s0 3 bnd2 mrk2;;
  set_edge_bnd_marker s1 0 bnd0 mrk0;;
  set_edge_bnd_marker s1 1 bnd1 mrk1;;
  set_edge_bnd_marker s2 0 bnd1 mrk1;;
  set_edge_bnd_marker s2 1 bnd2 mrk2;;
  set_parent (Some s0) ep;; set_parent (Some s1) ep;;
  set_parent (Some s2) ep;;
  update_elem ep (λ x,
    elem_set_sons (set3 (Some s0) (Some s1) (Some s2) (e_sons x)) x).

Definition log_refinement (ep : nat) (refinement : Z) : M Mesh unit :=
  modify (λ m, mesh_set_refinements
                 (refinements m ++ [(Z.of_nat ep, refinement)]) m).

Definition refine_element (ep : nat) (refinement : Z) : M Mesh unit :=
  log_refinement ep refinement;;
  e ← elem_at ep;
  (if is_triangle e then
     if decide (refinement = 3%Z) then refine_triangle_to_quads ep
     else refine_triangle_to_triangles ep
   else refine_quad ep refinement);;
  for_upto 4 (λ i,
    e ← elem_at ep;
    match slot (e_sons e) i with
    | Some s => update_elem s (elem_set_iro_cache (e_iro_cache e))
    | None => mret tt
    end);;
  modify bump_seq.

Definition refine_element_id (id refinement : Z) : M Mesh unit :=
  if decide (refinement = (-1)%Z) then mret tt
  else
    ep ← get_element id;
    e ← elem_at ep;
    if negb (e_used e) then throw (Exception "Invalid element id number.")
    else if negb (e_active e) then
      throw (Exception
        "Attempt to refine element #%d which has been refined already.")
    else refine_element ep refinement.

(** ** Derefinement *)

Definition unrefine_element_internal (ep : nat) : M Mesh unit :=
  log_refinement ep (-1);;
  e ← elem_at ep;
  assert (negb (e_active e)) "!e->active";;
  saved ← collect (e_nvert e) (λ i,
      e ← elem_at ep;
      let s1 := (get_edge_sons e i).1 in
      sp ← deref (slot (e_sons e) s1);
      s ← elem_at sp;
      assert (e_active s) "e->sons[s1]->active";;
      k ← edge_marker s i;
      b ← edge_bnd s i;
      mret (k, b));
  for_upto 4 (λ i,
    e ← elem_at ep;
    match slot (e_sons e) i with
    | Some sp =>
        unref_nodes_of sp;;
        update_elem sp (elem_set_cm None);;
        modify (λ m, mesh_set_elements (elements_remove sp (elements m)) m);;
        add_nactive (-1)
    | None => mret tt
    end);;
  e ← elem_at ep;
  for_upto (e_nvert e) (λ i,
    e ← elem_at ep;
    a ← vertex_id e i;
    b ← vertex_id e (next_vert e i);
    n ← liftH (get_edge_node a b);
    update_elem ep (λ x, elem_set_en (<[i := Some n]> (e_en x)) x));;
  e ← elem_at ep;
  liftH (ref_all_nodes ep e);;
  update_elem ep (elem_set_active true);;
  add_nactive 1;;
  e ← elem_at ep;
  for_upto (e_nvert e) (λ i,
    e ← elem_at ep;
    kb ← deref ((saved : list (Z * Z)) !! i);
    set_node_marker (slot (e_en e) i) kb.1;;
    e ← elem_at ep;
    set_node_bnd (slot (e_en e) i) kb.2).

Fixpoint unrefine_element_id (fuel : nat) (id : Z) : M Mesh unit :=
  match fuel with
  | O => throw OutOfFuel
  | S fuel' =>
      ep ← get_element id;
      e ← elem_at ep;
      if negb (e_used e) then throw (Exception "Invalid element id number.")
      else if e_active e then mret tt
      else
        for_upto 4 (λ i,
          e ← elem_at ep;
          match slot (e_sons e) i with
          | Some s => unrefine_element_id fuel' (Z.of_nat s)
          | None => mret tt
          end);;
        unrefine_element_internal ep;;
        modify bump_seq
  end.

(** ** Regularization *)

(** [for_all_active_elements(e, this)]: the ids below the size the element
    array had when the loop was entered, in increasing order, skipping the
    slots that are unused or inactive when their turn comes. *)
Definition active_body (body : nat → M Mesh unit) (id : nat) : M Mesh unit :=
  e ← elem_at id;
  if e_used e && e_active e then body id else mret tt.

Definition for_all_active_elements (body : nat → M Mesh unit) : M Mesh unit :=
  m ← get;
  for_upto (Z.to_nat (get_max_element_id m)) (active_body body).

(** [Mesh::get_edge_degree]. The recursion of the code is bounded here by
    [fuel]; [None] means the bound was reached. *)
Fixpoint get_edge_degree (fuel : nat) (h : HashTable) (v1 v2 : nat)
  : option Z :=
  match fuel with
  | O => None
  | S fuel' =>
      match peek_vertex_node (node_id v1) (node_id v2) h with
      | Some v3 =>
          d1 ← get_edge_degree fuel' h v1 v3;
          d2 ← get_edge_degree fuel' h v3 v2;
          Some (1 + Z.max d1 d2)%Z
      | None => Some 0%Z
      end
  end.

(** [get_edge_degree(e->vn[i], e->vn[j])] *)
Definition edge_degree (fuel : nat) (e : Element) (i j : nat) : M Mesh Z :=
  v1 ← deref (slot (e_vn e) i);
  v2 ← deref (slot (e_vn e) j);
  m ← get;
  match get_edge_degree fuel (ht m) v1 v2 with
  | Some d => mret d
  | None => throw OutOfFuel
  end.

Definition parents_read (i : nat) : M Mesh (option Z) :=
  m ← get;
  if (Z.of_nat i <? parents_size m)%Z then mret (parents m !! i)
  else throw OutOfBounds.

Definition parents_write (i : nat) (v : option Z) : M Mesh unit :=
  m ← get;
  if (Z.of_nat i <? parents_size m)%Z then
    modify (mesh_set_parents
              (match v with
               | Some z => <[i := z]> (parents m)
               | None => delete i (parents m)
               end) (parents_size m))
  else throw OutOfBounds.

(** [Mesh::assign_parent]: the entry of son [i] becomes the entry of the
    element. The block is doubled once when the id of the son is beyond it. *)
Definition assign_parent (ep i : nat) : M Mesh unit :=
  e ← elem_at ep;
  match slot (e_sons e) i with
  | Some s =>
      m ← get;
      (if (parents_size m <=? Z.of_nat s)%Z
       then modify (mesh_set_parents (parents m) (2 * parents_size m))
       else mret tt);;
      v ← parents_read ep;
      parents_write s v
  | None => mret tt
  end.

Definition assign_parents (ep : nat) : M Mesh unit :=
  for_upto 4 (λ i, assign_parent ep i).

(** The last index of [0 .. n - 1] that satisfies [p], as left in [k] by
    [for (i = 0; i < n; i++) if (p(i)) k = i;] starting from [k0]. *)
Definition last_index (n : nat) (p : nat → bool) (k0 : option nat)
  : option nat :=
  foldl (λ k i, if p i then Some i else k) k0 (List.seq 0 n).

Definition set_sons (ep : nat) (l : list (option nat)) : M Mesh unit :=
  update_elem ep (elem_set_sons l).

Definition regularize_triangle (fuel : nat) (ep : nat) : M Mesh unit :=
  e ← elem_at ep;
  eo0 ← edge_degree fuel e 0 1;
  eo1 ← edge_degree fuel e 1 2;
  eo2 ← edge_degree fuel e 2 0;
  let eo := [eo0; eo1; eo2] in
  let sum := (eo0 + eo1 + eo2)%Z in
  (if decide (sum = 3%Z) then refine_element_id (Z.of_nat ep) 0
   else if decide (0 < sum)%Z then
     bnd0 ← edge_bnd e 0; bnd1 ← edge_bnd e 1; bnd2 ← edge_bnd e 2;
     mrk0 ← edge_marker e 0; mrk1 ← edge_marker e 1; mrk2 ← edge_marker e 2;
     let bnd := [bnd0; bnd1; bnd2] in
     let mrk := [mrk0; mrk1; mrk2] in
     if decide (sum = 1%Z) then
       k ← deref (last_index 3 (λ i, bool_decide (nthZ eo i = 1%Z)) None);
       let k1 := next_vert e k in
       let k2 := prev_vert e k in
       a ← vertex_id e k; b ← vertex_id e k1;
       v4 ← gets (λ m, peek_vertex_node a b (ht m));
       deactivate ep;;
       add_nactive 1;;
       unref_nodes_of ep;;
       e ← elem_at ep;
       t0 ← create_triangle (e_marker e) (slot (e_vn e) k) v4
              (slot (e_vn e) k2) None;
       e ← elem_at ep;
       t1 ← create_triangle (e_marker e) v4 (slot (e_vn e) k1)
              (slot (e_vn e) k2) None;
       x ← elem_at t0; set_node_bnd (slot (e_en x) 2) (nthZ bnd k2);;
       x ← elem_at t1; set_node_bnd (slot (e_en x) 1) (nthZ bnd k1);;
       x ← elem_at t0; set_node_marker (slot (e_en x) 2) (nthZ mrk k2);;
       x ← elem_at t1; set_node_marker (slot (e_en x) 1) (nthZ mrk k1);;
       set_sons ep [Some t0; Some t1; None; None]
     else if decide (sum = 2%Z) then
       k ← deref (last_index 3 (λ i, bool_decide (nthZ eo i = 0%Z)) None);
       let k1 := next_vert e k in
       let k2 := prev_vert e k in
       a ← vertex_id e k1; b ← vertex_id e k2;
       v4 ← gets (λ m, peek_vertex_node a b (ht m));
       a ← vertex_id e k2; b ← vertex_id e k;
       v5 ← gets (λ m, peek_vertex_node a b (ht m));
       deactivate ep;;
       add_nactive 2;;
       unref_nodes_of ep;;
       e ← elem_at ep;
       t0 ← create_triangle (e_marker e) (slot (e_vn e) k)
              (slot (e_vn e) k1) v4 None;
       e ← elem_at ep;
       t1 ← create_triangle (e_marker e) v4 v5 (slot (e_vn e) k) None;
       e ← elem_at ep;
       t2 ← create_triangle (e_marker e) v4 (slot (e_vn e) k2) v5 None;
       x ← elem_at t0; set_node_bnd (slot (e_en x) 0) (nthZ bnd k);;
       x ← elem_at t0; set_node_marker (slot (e_en x) 0) (nthZ mrk k);;
       set_sons ep [Some t0; Some t1; Some t2; None]
     else mret tt
   else mret tt);;
  e ← elem_at ep;
  if negb (e_active e) then assign_parents ep else mret tt.

Fixpoint regularize_quad (fuel : nat) (ep : nat) : M Mesh unit :=
  match fuel with
  | O => throw OutOfFuel
  | S fuel' =>
  e ← elem_at ep;
  eo0 ← edge_degree fuel e 0 1;
  eo1 ← edge_degree fuel e 1 2;
  eo2 ← edge_degree fuel e 2 3;
  eo3 ← edge_degree fuel e 3 0;
  let eo := [eo0; eo1; eo2; eo3] in
  let sum := (eo0 + eo1 + eo2 + eo3)%Z in
  (if decide (sum = 4%Z) then refine_element_id (Z.of_nat ep) 0
   else if decide (0 < sum)%Z then
     bnd0 ← edge_bnd e 0; bnd1 ← edge_bnd e 1;
     bnd2 ← edge_bnd e 2; bnd3 ← edge_bnd e 3;
     mrk0 ← edge_marker e 0; mrk1 ← edge_marker e 1;
     mrk2 ← edge_marker e 2; mrk3 ← edge_marker e 3;
     let bnd := [bnd0; bnd1; bnd2; bnd3] in
     let mrk := [mrk0; mrk1; mrk2; mrk3] in
     if decide (sum = 1%Z) then
       k ← deref (last_index 4 (λ i, bool_decide (nthZ eo i = 1%Z)) (Some 0));
       let k1 := next_vert e k in
       let k2 := next_vert e k1 in
       let k3 := prev_vert e k in
       a ← vertex_id e k; b ← vertex_id e k1;
       v4 ← gets (λ m, peek_vertex_node a b (ht m));
       deactivate ep;;
       add_nactive 2;;
       unref_nodes_of ep;;
       e ← elem_at ep;
       t0 ← create_triangle (e_marker e) (slot (e_vn e) k) v4
              (slot (e_vn e) k3) None;
       e ← elem_at ep;
       t1 ← create_triangle (e_marker e) v4 (slot (e_vn e) k1)
              (slot (e_vn e) k2) None;
       e ← elem_at ep;
       t2 ← create_triangle (e_marker e) v4 (slot (e_vn e) k2)
              (slot (e_vn e) k3) None;
       x ← elem_at t0; set_node_bnd (slot (e_en x) 2) (nthZ bnd k3);;
       x ← elem_at t1; set_node_bnd (slot (e_en x) 1) (nthZ bnd k1);;
       x ← elem_at t2; set_node_bnd (slot (e_en x) 1) (nthZ bnd k2);;
       x ← elem_at t0; set_node_marker (slot (e_en x) 2) (nthZ mrk k3);;
       x ← elem_at t1; set_node_marker (slot (e_en x) 1) (nthZ mrk k1);;
       x ← elem_at t2; set_node_marker (slot (e_en x) 1) (nthZ mrk k2);;
       set_sons ep [Some t0; Some t1; Some t2; None]
     else if decide (sum = 2%Z) then
       if decide (eo0 = 1%Z ∧ eo2 = 1%Z) then
         refine_element_id (Z.of_nat ep) 2
       else if decide (eo1 = 1%Z ∧ eo3 = 1%Z) then
         refine_element_id (Z.of_nat ep) 1
       else
         k ← deref (last_index 4
                (λ i, bool_decide (nthZ eo i = 1%Z)
                      && bool_decide (nthZ eo (next_vert e i) = 1%Z))
                (Some 0));
         let k1 := next_vert e k in
         let k2 := next_vert e k1 in
         let k3 := prev_vert e k in
         a ← vertex_id e k; b ← vertex_id e k1;
         v4 ← gets (λ m, peek_vertex_node a b (ht m));
         a ← vertex_id e k1; b ← vertex_id e k2;
         v5 ← gets (λ m, peek_vertex_node a b (ht m));
         deactivate ep;;
         add_nactive 3;;
         unref_nodes_of ep;;
         e ← elem_at ep;
         t0 ← create_triangle (e_marker e) (slot (e_vn e) k1) v5 v4 None;
         e ← elem_at ep;
         t1 ← create_triangle (e_marker e) v5 (slot (e_vn e) k2)
                (slot (e_vn e) k3) None;
         e ← elem_at ep;
         t2 ← create_triangle (e_marker e) v4 v5 (slot (e_vn e) k3) None;
         e ← elem_at ep;
         t3 ← create_triangle (e_marker e) v4 (slot (e_vn e) k3)
                (slot (e_vn e) k) None;
         x ← elem_at t1; set_node_bnd (slot (e_en x) 1) (nthZ bnd k2);;
         x ← elem_at t3; set_node_bnd (slot (e_en x) 1) (nthZ bnd k3);;
         x ← elem_at t1; set_node_marker (slot (e_en x) 1) (nthZ mrk k2);;
         x ← elem_at t3; set_node_marker (slot (e_en x) 1) (nthZ mrk k3);;
         set_sons ep [Some t0; Some t1; Some t2; Some t3]
     else
       nm ← (if decide (eo0 = 1%Z ∧ eo2 = 1%Z) then
               refine_element_id (Z.of_nat ep) 2;;
               assign_parents ep;;
               mret (2, 3)
             else if decide (eo1 = 1%Z ∧ eo3 = 1%Z) then
               refine_element_id (Z.of_nat ep) 1;;
               assign_parents ep;;
               mret (0, 1)
             else mret (0, 0));
       e ← elem_at ep;
       s ← deref (slot (e_sons e) nm.1);
       regularize_quad fuel' s;;
       e ← elem_at ep;
       s ← deref (slot (e_sons e) nm.2);
       regularize_quad fuel' s
   else mret tt);;
  e ← elem_at ep;
  if negb (e_active e) then assign_parents ep else mret tt
  end.

(** [Mesh::flatten]: the active elements are copied, in the order of their
    ids, to a new dense array that replaces the old one; the entries of the
    parent array follow them, and the back-references of the edge nodes are
    translated to the new slots. *)
Definition remap_ptr (idx : gmap nat nat) (o : option nat)
  : option (option nat) :=
  match o with
  | Some q => q' ← idx !! q; Some (Some q')
  | None => Some None
  end.

Definition remap_node (idx : gmap nat nat) (n : Node) : option Node :=
  if n_used n && bool_decide (n_type n = HERMES_TYPE_EDGE) then
    a ← remap_ptr idx (n_elem n).1;
    b ← remap_ptr idx (n_elem n).2;
    Some (node_set_elem (a, b) n)
  else Some n.

Definition mesh_set_base_active (k : Z) (m : Mesh) : Mesh :=
  mkMesh (ht m) (elements m) k k (ntopvert m) (ninitial m)
    (seq m) (g_mesh_seq m) (refinements m) (parents m) (parents_size m)
    (element_markers_conversion m) (boundary_markers_conversion m).

Definition flatten : M Mesh unit :=
  m ← get;
  acc ← fold_upto (Z.to_nat (get_max_element_id m)) (λ id acc,
      e ← elem_at id;
      if e_used e && e_active e then
        let temp := length (acc.2 : list Element) in
        v ← parents_read id;
        parents_write temp v;;
        mret (<[id := temp]> (acc.1 : gmap nat nat), acc.2 ++ [e])
      else mret acc) (∅, []);
  modify (mesh_set_elements acc.2);;
  modify (mesh_set_base_active (Z.of_nat (length acc.2)));;
  h ← gets ht;
  ns ← deref (mapM (remap_node acc.1) (nodes h));
  liftH (modify (ht_set_nodes ns)).

(** [get_edge_degree(e->vn[i], e->vn[j]) > n] *)
Definition exceeds (fuel : nat) (e : Element) (i j : nat) (n : Z)
  : M Mesh bool :=
  d ← edge_degree fuel e i j; mret (bool_decide (n < d)%Z).

(** The loop over the edges that stops at the first one whose degree
    exceeds [n]. *)
Fixpoint any_edge_exceeds_from (fuel k i : nat) (e : Element) (n : Z)
  : M Mesh bool :=
  match k with
  | O => mret false
  | S k' =>
      b ← exceeds fuel e i (next_vert e i) n;
      if (b : bool) then mret true else any_edge_exceeds_from fuel k' (S i) e n
  end.
Definition any_edge_exceeds (fuel : nat) (e : Element) (n : Z) : M Mesh bool :=
  any_edge_exceeds_from fuel (e_nvert e) 0 e n.

(** The refinement [iso] that the main loop of [regularize] chooses for an
    active element: -1 for none, 0 for the isotropic one, 1 or 2 for a quad
    that is exceeded on one pair of opposite edges only. *)
Definition regularize_iso (fuel : nat) (e : Element) (n : Z) : M Mesh Z :=
  if is_triangle e then
    b ← any_edge_exceeds fuel e n; mret (if (b : bool) then 0 else -1)%Z
  else
    c1 ← (a ← exceeds fuel e 0 1 n;
          b ← (if (a : bool) then mret true else exceeds fuel e 2 3 n);
          if (b : bool) then
            c ← exceeds fuel e 1 2 n;
            if (c : bool) then mret false
            else d ← exceeds fuel e 3 0 n; mret (negb d)
          else mret false);
    if (c1 : bool) then mret 2%Z
    else
      c2 ← (a ← exceeds fuel e 0 1 n;
            if (a : bool) then mret false
            else
              b ← exceeds fuel e 2 3 n;
              if (b : bool) then mret false
              else
                c ← exceeds fuel e 1 2 n;
                if (c : bool) then mret true else exceeds fuel e 3 0 n);
      if (c2 : bool) then mret 1%Z
      else b ← any_edge_exceeds fuel e n; mret (if (b : bool) then 0 else -1)%Z.

(** The body of the main loop for the element [id]; [ok] is the flag of the
    round. *)
Definition regularize_step (fuel : nat) (n : Z) (id : nat) (ok : bool)
  : M Mesh bool :=
  e ← elem_at id;
  if e_used e && e_active e then
    iso ← regularize_iso fuel e n;
    if (0 <=? (iso : Z))%Z then
      refine_element_id (Z.of_nat id) iso;;
      assign_parents id;;
      mret false
    else mret ok
  else mret ok.

(** One round of the [do ... while (!ok)] loop; the result is [ok]. *)
Definition regularize_pass (fuel : nat) (n : Z) : M Mesh bool :=
  m ← get;
  fold_upto (Z.to_nat (get_max_element_id m)) (regularize_step fuel n) true.

Fixpoint regularize_loop (rounds fuel : nat) (n : Z) : M Mesh unit :=
  match rounds with
  | O => throw OutOfFuel
  | S rounds' =>
      ok ← regularize_pass fuel n;
      if (ok : bool) then mret tt else regularize_loop rounds' fuel n
  end.

(** The body of the loop that follows the main loop when [n < 1]. *)
Definition regularize_post_body (fuel : nat) (id : nat) : M Mesh unit :=
  e ← elem_at id;
  if is_curved e then
    throw (Exception "Regularization of curved elements is not supported.")
  else if is_triangle e then regularize_triangle fuel id
  else regularize_quad fuel id.

Definition regularize_post (fuel : nat) : M Mesh unit :=
  for_all_active_elements (regularize_post_body fuel);;
  flatten.

(** The allocation of the parent array and the main loop. *)
Definition regularize_main (fuel : nat) (n : Z) : M Mesh unit :=
  m ← get;
  modify (mesh_set_parents ∅ (2 * get_max_element_id m));;
  for_all_active_elements (λ id, parents_write id (Some (Z.of_nat id)));;
  regularize_loop fuel fuel n.

(** [Mesh::regularize]; the result is the parent array. [fuel] bounds the
    number of rounds of the main loop and the depth of the recursions. *)
Definition regularize (fuel : nat) (n : Z) : M Mesh (gmap nat Z) :=
  let reg := bool_decide (n < 1)%Z in
  let n := if reg then 1%Z else n in
  regularize_main fuel n;;
  (if reg then regularize_post fuel else mret tt);;
  gets parents.

(** ** Construction *)

Definition clear_markers (c : MarkersConversion) : MarkersConversion :=
  mkMarkersConversion ∅ ∅ (min_marker_unused c).

(** [Mesh::free]: the elements, the nodes, the marker tables and the log go;
    the sequence number becomes -1. *)
Definition free : M Mesh unit :=
  modify (λ m,
    mkMesh empty_table [] (nbase m) (nactive m) (ntopvert m) (ninitial m)
      (-1) (g_mesh_seq m) [] (parents m) (parents_size m)
      (clear_markers (element_markers_conversion m))
      (clear_markers (boundary_markers_conversion m))).

Definition top_vertex (xy : float * float) : Node :=
  mkNode true HERMES_TYPE_VERTEX TOP_LEVEL_REF 0 (-1) (-1) xy.1 xy.2 0
         (None, None).

(** [&nodes[k]] for an index read from the input *)
Definition node_ptr (k : Z) : option nat :=
  if (k <? 0)%Z then None else Some (Z.to_nat k).

Definition insert_element_marker (name : string) : M Mesh Z :=
  m ← get;
  let r := insert_marker name (element_markers_conversion m) in
  put (mkMesh (ht m) (elements m) (nbase m) (nactive m) (ntopvert m)
         (ninitial m) (seq m) (g_mesh_seq m) (refinements m) (parents m)
         (parents_size m) r.2 (boundary_markers_conversion m));;
  mret r.1.

Definition insert_boundary_marker (name : string) : M Mesh Z :=
  m ← get;
  let r := insert_marker name (boundary_markers_conversion m) in
  put (mkMesh (ht m) (elements m) (nbase m) (nactive m) (ntopvert m)
         (ninitial m) (seq m) (g_mesh_seq m) (refinements m) (parents m)
         (parents_size m) (element_markers_conversion m) r.2);;
  mret r.1.

Definition mesh_set_counts (nb na ntv ni : Z) (m : Mesh) : Mesh :=
  mkMesh (ht m) (elements m) nb na ntv ni
    (seq m) (g_mesh_seq m) (refinements m) (parents m) (parents_size m)
    (element_markers_conversion m) (boundary_markers_conversion m).

(** [Mesh::create]: the coarse mesh from flat arrays. *)
Definition create (verts : list (float * float))
    (tris : list (Z * Z * Z)) (tri_markers : list string)
    (quads : list (Z * Z * Z * Z)) (quad_markers : list string)
    (mark : list (Z * Z)) (boundary_markers : list string) : M Mesh unit :=
  free;;
  liftH (modify (ht_set_nodes (top_vertex <$> verts)));;
  modify (λ m, mesh_set_counts (nbase m) (nactive m)
                 (Z.of_nat (length verts)) (ninitial m) m);;
  for_upto (length tris) (λ i,
    t ← deref (tris !! i);
    name ← deref (tri_markers !! i);
    k ← insert_element_marker name;
    create_triangle k (node_ptr t.1.1) (node_ptr t.1.2) (node_ptr t.2) None;;
    mret tt);;
  for_upto (length quads) (λ i,
    q ← deref (quads !! i);
    name ← deref (quad_markers !! i);
    k ← insert_element_marker name;
    create_quad k (node_ptr q.1.1.1) (node_ptr q.1.1.2) (node_ptr q.1.2)
      (node_ptr q.2) None;;
    mret tt);;
  for_upto (length mark) (λ i,
    ab ← deref (mark !! i);
    en ← gets (λ m, peek_edge_node ab.1 ab.2 (ht m));
    match en with
    | None => throw (Exception "Boundary data error (edge does not exist)")
    | Some en =>
        name ← deref (boundary_markers !! i);
        k ← insert_boundary_marker name;
        set_node_marker (Some en) k;;
        set_node_bnd (node_ptr ab.1) 1;;
        set_node_bnd (node_ptr ab.2) 1;;
        set_node_bnd (Some en) 1
    end);;
  modify (λ m,
    let k := Z.of_nat (length tris + length quads) in
    mesh_set_counts k k (ntopvert m) k m);;
  modify bump_seq.

(** ** Rescaling and the derefinement of all elements *)

(** [Mesh::rescale]: the coordinates of the vertex nodes in use are divided
    by the reference lengths; then the first curved element in use stops the
    call with a [CurvedException] that carries its id. (The [return false]
    that follows the [throw] in the source is never reached.) *)
Definition rescale_node (x_ref y_ref : float) (n : Node) : Node :=
  if n_used n && bool_decide (n_type n = HERMES_TYPE_VERTEX)
  then node_set_xy (n_x n / x_ref)%float (n_y n / y_ref)%float n
  else n.

Definition rescale (x_ref y_ref : float) : M Mesh bool :=
  liftH (modify (λ h,
    ht_set_nodes (rescale_node x_ref y_ref <$> nodes h) h));;
  m ← get;
  for_upto (Z.to_nat (get_max_element_id m)) (λ id,
    e ← elem_at id;
    if e_used e && is_curved e then throw (CurvedException (Z.of_nat id))
    else mret tt);;
  mret true.

(** The test that [unrefine_all_elements] makes on the sons of an inactive
    element: none is inactive, and none is an initial element when these are
    kept. The loop stops at the first son that fails. *)
Fixpoint sons_are_leaves_from (k i : nat) (keep : bool) (e : Element)
  : M Mesh bool :=
  match k with
  | O => mret true
  | S k' =>
      match slot (e_sons e) i with
      | Some s =>
          x ← elem_at s;
          m ← get;
          if negb (e_active x) || (keep && (Z.of_nat s <? ninitial m)%Z)
          then mret false
          else sons_are_leaves_from k' (S i) keep e
      | None => sons_are_leaves_from k' (S i) keep e
      end
  end.

(** [Mesh::unrefine_all_elements]: the ids of the inactive elements whose
    sons pass the test are listed first, then each is derefined. *)
Definition unrefine_all_elements (fuel : nat) (keep_initial_refinements : bool)
  : M Mesh unit :=
  m ← get;
  ids ← fold_upto (Z.to_nat (get_max_element_id m)) (λ id acc,
      e ← elem_at id;
      if e_used e && negb (e_active e) then
        found ← sons_are_leaves_from 4 0 keep_initial_refinements e;
        mret (if (found : bool) then acc ++ [id] else acc)
      else mret acc) [];
  for_upto (length ids) (λ i,
    id ← deref ((ids : list nat) !! i);
    unrefine_element_id fuel (Z.of_nat id)).

End MeshOperations.

(** An empty mesh, as the constructor leaves it when the global counter
    stands at [g]. *)
Definition new_mesh (g : Z) : Mesh :=
  mkMesh empty_table [] 0 0 0 0 g ((g + 1) mod 2 ^ 32)%Z [] ∅ 0
    empty_markers empty_markers.

(** * A concrete environment for the examples

    Straight-sided geometry: no element of the examples is curved, so the
    curved-geometry entries are never consulted. [TOP_LEVEL_REF] and
    [edge_sons] are the values the node header and the mesh utilities are
    known to use. *)
Definition edge_sons (e : Element) (edge : nat) : nat * nat :=
  if negb (is_triangle e) && bool_decide (slot (e_sons e) 2 = None) then
    if bool_decide (edge = 0 ∨ edge = 2) then (edge / 2, edge / 2)
    else if bool_decide (edge = 1) then (0, 1) else (1, 0)
  else if negb (is_triangle e) && bool_decide (slot (e_sons e) 0 = None) then
    if bool_decide (edge = 1) then (3, 3)
    else if bool_decide (edge = 3) then (2, 2)
    else if bool_decide (edge < 2) then (2, 3) else (3, 2)
  else (edge, next_vert e edge).

Global Instance straight_geometry : Collaborators := {|
  NDEBUG := false;
  TOP_LEVEL_REF := 123456;
  get_mid_edge_points := λ _ _ pt, pt;
  create_son_curv_map := λ _ ep part, mkCurvMap false 0 (Some ep) part [];
  update_refmap_coeffs := λ _ _ c, c;
  triangle_to_quads_curv_maps := λ _ _, [None; None; None; None];
  get_edge_sons := edge_sons
|}.

(** The same collaborators in a build that defines [NDEBUG]. *)
Definition straight_geometry_ndebug : Collaborators := {|
  NDEBUG := true;
  TOP_LEVEL_REF := 123456;
  get_mid_edge_points := λ _ _ pt, pt;
  create_son_curv_map := λ _ ep part, mkCurvMap false 0 (Some ep) part [];
  update_refmap_coeffs := λ _ _ c, c;
  triangle_to_quads_curv_maps := λ _ _, [None; None; None; None];
  get_edge_sons := edge_sons
|}.

(** The degree of edge [i] of an element, as [get_edge_degree] computes it
    on the two ends of the edge, is at most [n]. *)
Definition edge_degree_at_most (fuel : nat) (m : Mesh) (e : Element)
    (i : nat) (n : Z) : Prop :=
  ∃ v1 v2 d,
    slot (e_vn e) i = Some v1 ∧ slot (e_vn e) (next_vert e i) = Some v2
    ∧ get_edge_degree fuel (ht m) v1 v2 = Some d ∧ (d ≤ n)%Z.

(** The active elements of a mesh with their ids, and the used vertex nodes
    at given coordinates. *)
Definition active_elements (m : Mesh) : list (nat * Element) :=
  filter (λ ie, e_used ie.2 && e_active ie.2 = true) (imap pair (elements m)).

Definition vertex_nodes_at (m : Mesh) (x y : float) : list nat :=
  fst <$> filter (λ pn : nat * Node,
             n_used pn.2 && bool_decide (n_type pn.2 = HERMES_TYPE_VERTEX)
             && PrimFloat.eqb (n_x pn.2) x && PrimFloat.eqb (n_y pn.2) y = true)
          (imap pair (nodes (ht m))).

(** The result of a run, or the empty mesh when it failed. *)
Definition mesh_of {A} (r : result (A * Mesh)) : Mesh :=
  match r with
  | Ok (_, m) => m
  | Err _ => new_mesh 0
  end.

(** The unit square with one quad and its four boundary markers. *)
Definition unit_square : Mesh :=
  mesh_of (create [(0, 0); (1, 0); (1, 1); (0, 1)]%float [] []
             [(0, 1, 2, 3)%Z] ["domain"]
             [(0, 1); (1, 2); (2, 3); (3, 0)]%Z
             ["bottom"; "right"; "top"; "left"]
             (new_mesh 0)).

(** The unit square after [refine_element_id(0, 0)]. *)
Definition refined_square : Mesh := mesh_of (refine_element_id 0 0 unit_square).

(** The unit square whose quad carries a curvature map, as a mesh reader
    leaves it for a domain with a curved boundary. *)
Definition curved_square : Mesh :=
  mesh_of (update_elem 0 (elem_set_cm (Some (mkCurvMap true 4 None 0 [])))
             unit_square).

(** Two unit quads side by side, sharing the edge between the vertices 1
    and 4; then the left quad refined, and its son along the lower half of
    the shared edge refined again: the right quad now sees two levels of
    hanging nodes on that edge. *)
Definition two_quads : Mesh :=
  mesh_of (create [(0, 0); (1, 0); (2, 0); (2, 1); (1, 1); (0, 1)]%float [] []
             [(0, 1, 4, 5)%Z; (1, 2, 3, 4)%Z] ["left"; "right"]
             [(0, 1); (1, 2); (2, 3); (3, 4); (4, 5); (5, 0)]%Z
             ["bottom"; "bottom"; "east"; "top"; "top"; "west"]
             (new_mesh 0)).

Definition hanging_quads : Mesh :=
  mesh_of (refine_element_id 3 0 (mesh_of (refine_element_id 0 0 two_quads))).

(** * Vocabulary of the properties *)

(** [hoare P c Q]: every run of [c] that starts in a state satisfying [P] and
    succeeds ends with a value and a state satisfying [Q]. *)
Definition hoare {St A} (P : St → Prop) (c : M St A) (Q : A → St → Prop)
  : Prop :=
  ∀ s a s', P s → c s = Ok (a, s') → Q a s'.

(** A state assertion together with a fact that does not depend on the
    state. *)
Definition with_fact {St} (φ : Prop) (P : St → Prop) : St → Prop :=
  λ s, φ ∧ P s.

(** The value and the final state of a successful run. *)
Definition outcome {A} (r : result (A * Mesh)) : option A :=
  match r with
  | Ok (a, _) => Some a
  | Err _ => None
  end.

(** A mesh that was not freed has a sequence number that is not negative;
    [get_max_element_id] is then the size of the element array. *)
Definition seq_nonneg (m : Mesh) : Prop := (0 ≤ seq m)%Z.

(** The number of non-null son slots. *)
Definition num_sons (l : list (option nat)) : nat :=
  length (filter is_Some l).

(** The invariant of the son slots: every slot array has four entries, and
    every used element that is inactive has at least two sons, except possibly
    the element [ex] whose refinement is under way. *)
Definition sons_inv (ex : option nat) (m : Mesh) : Prop :=
  ∀ id e, elements m !! id = Some e →
    length (e_sons e) = 4
    ∧ (Some id ≠ ex → e_used e = true → e_active e = false →
       2 ≤ num_sons (e_sons e)).

(** An update of an element that cannot break [sons_inv]: it keeps the son
    slots, and does not make the element used or inactive. *)
Definition sons_safe (f : Element → Element) : Prop :=
  ∀ e, e_sons (f e) = e_sons e
       ∧ (e_used (f e) = true → e_active (f e) = false →
          e_used e = true ∧ e_active e = false).

(** Slot [j] of the element array holds an element, an active one. *)
Definition used_in (m : Mesh) (j : nat) : Prop :=
  ∃ e, elements m !! j = Some e ∧ e_used e = true.
Definition used_active (m : Mesh) (j : nat) : Prop :=
  ∃ e, elements m !! j = Some e ∧ e_used e = true ∧ e_active e = true.

(** What the refinement of the element [ep] of the mesh [m] has done when it
    has come to the mesh [cur] and has created the elements [F], in this
    order: the parent array is untouched; every element of [m] is still
    there, and but for [ep] it has the sons and the activity it had; the new
    elements are those of [F], and they are active; [ep] is inactive once [d]
    is set; the number of active elements has changed by [c]. *)
Record grows (d : bool) (c : Z) (m : Mesh) (ep : nat) (F : list nat)
    (cur : Mesh) : Prop := {
  grows_parents :
    parents cur = parents m ∧ parents_size cur = parents_size m;
  grows_ep_used : used_in m ep;
  grows_old : ∀ j e, elements m !! j = Some e → e_used e = true →
    ∃ e1, elements cur !! j = Some e1 ∧ e_used e1 = true
          ∧ (j ≠ ep → e_sons e1 = e_sons e ∧ e_active e1 = e_active e);
  grows_ep : d = true →
    ∀ e1, elements cur !! ep = Some e1 → e_active e1 = false;
  grows_new : ∀ j e1, elements cur !! j = Some e1 → e_used e1 = true →
    ¬ used_in m j → j ∈ F ∧ e_active e1 = true;
  grows_F : ∀ j, j ∈ F → used_in cur j ∧ ¬ used_in m j;
  grows_nactive : nactive cur = (nactive m + c)%Z
}.

(** The refinement of [ep] is complete: the new elements are the sons of
    [ep], in the order of its four slots, and the number of active elements
    has grown by their number less one. *)
Definition refined (m : Mesh) (ep : nat) (cur : Mesh) : Prop :=
  ∃ e1, elements cur !! ep = Some e1 ∧ length (e_sons e1) = 4
        ∧ grows true (Z.of_nat (length (omap id (e_sons e1))) - 1) m ep
            (omap id (e_sons e1)) cur.

(** The element [ep] has been split, into whatever sons. *)
Definition deactivated (m : Mesh) (ep : nat) (cur : Mesh) : Prop :=
  ∃ c F, grows true c m ep F cur.

(** An update of an element that touches neither its use, nor its sons, nor
    its activity. *)
Definition frame_safe (f : Element → Element) : Prop :=
  ∀ e, e_used (f e) = e_used e ∧ e_sons (f e) = e_sons e
       ∧ e_active (f e) = e_active e.

(** The counters of a mesh: the number of active elements, the refinement
    log, the sequence number and the global counter it is drawn from. *)
Definition counters_are (k : Z) (l : list (Z * Z)) (s g : Z) (m : Mesh)
  : Prop :=
  nactive m = k ∧ refinements m = l ∧ seq m = s ∧ g_mesh_seq m = g.

(** The change of the number of active elements when the element [e] is
    refined with the kind [refinement]: a triangle gives three quads for the
    kind 3 and four triangles otherwise; a quad gives four quads for the kind
    0 and two for the kinds 1 and 2. With any other kind a quad gets no son
    at all, where the build lets the call go past the [assert(0)] of
    [refine_quad]. *)
Definition active_gain (e : Element) (refinement : Z) : Z :=
  if is_triangle e then (if decide (refinement = 3%Z) then 2 else 3)%Z
  else if decide (refinement = 0%Z) then 3%Z
  else if decide (refinement = 1%Z ∨ refinement = 2%Z) then 1%Z
  else (-1)%Z.

(** The marker tables as [insert_marker] builds them from the empty ones: the
    two maps are inverse to each other, and the numbers given out are those
    from 1 up to the next unused one. On such tables [std::map::insert], which
    leaves a present key alone, always finds the key absent. *)
Definition markers_wf (c : MarkersConversion) : Prop :=
  (∀ k s, conversion_table c !! k = Some s
          ↔ conversion_table_inverse c !! s = Some k)
  ∧ (∀ k s, conversion_table c !! k = Some s →
            (1 ≤ k < min_marker_unused c)%Z)
  ∧ (1 ≤ min_marker_unused c)%Z.

(** The parent array while [regularize] works on the mesh [m0] and has come
    to the mesh [cur]: no element has gone and none has become active again;
    an element that was active in [m0] has its own id as entry, one that was
    inactive has none, a new element has the id of an element that was
    active in [m0]; the sons of an element split since are new elements, and
    their entries are the entry of the element. *)
Record parents_inv (m0 cur : Mesh) : Prop := {
  pi_used : ∀ j, used_in m0 j → used_in cur j;
  pi_inactive : ∀ j e0 e, elements m0 !! j = Some e0 → e_used e0 = true →
    e_active e0 = false → elements cur !! j = Some e → e_active e = false;
  pi_own : ∀ j, used_active m0 j → parents cur !! j = Some (Z.of_nat j);
  pi_none : ∀ j, used_in m0 j → ¬ used_active m0 j → parents cur !! j = None;
  pi_new : ∀ j, used_in cur j → ¬ used_in m0 j →
    ∃ r, used_active m0 r ∧ parents cur !! j = Some (Z.of_nat r);
  pi_sons : ∀ p e, elements cur !! p = Some e → e_used e = true →
    e_active e = false → used_active m0 p ∨ ¬ used_in m0 p →
    ∀ i s, slot (e_sons e) i = Some s →
      used_in cur s ∧ ¬ used_in m0 s ∧ parents cur !! s = parents cur !! p
}.

(** What the derefinement of the element [ep] of the mesh [m1] has done when
    it has come to the mesh [cur]: the elements of [R] have been deleted, in
    this order; [ep] is active again once [a] is set; nothing else has
    changed in the use, the activity and the son slots of the elements; the
    number of active elements has changed by [c], and the log is [l]. *)
Record shrinks (m1 : Mesh) (ep : nat) (R : list nat) (a : bool) (c : Z)
    (l : list (Z * Z)) (cur : Mesh) : Prop := {
  sh_elem : ∀ j e, elements m1 !! j = Some e →
    ∃ e', elements cur !! j = Some e'
          ∧ e_used e' = (if decide (j ∈ R) then false else e_used e)
          ∧ e_active e' = (if decide (j = ep) then a || e_active e
                           else e_active e)
          ∧ e_sons e' = e_sons e;
  sh_back : ∀ j, is_Some (elements cur !! j) → is_Some (elements m1 !! j);
  sh_nactive : nactive cur = (nactive m1 + c)%Z;
  sh_log : refinements cur = l
}.

(** A flat mesh: every slot of the element array holds an active element,
    and the counters of the base and of the active elements are the size of
    the array. *)
Definition flat (m : Mesh) : Prop :=
  Forall (λ e, e_used e = true ∧ e_active e = true) (elements m)
  ∧ nactive m = Z.of_nat (length (elements m))
  ∧ nbase m = Z.of_nat (length (elements m)).

(** The shape of an element: the number of its vertices and its vertex
    pointers; and the shapes that [create] is asked for. *)
Definition shape (e : Element) : nat * list (option nat) :=
  (e_nvert e, e_vn e).
Definition tri_shape (t : Z * Z * Z) : nat * list (option nat) :=
  (3, [node_ptr t.1.1; node_ptr t.1.2; node_ptr t.2; None]).
Definition quad_shape (q : Z * Z * Z * Z) : nat * list (option nat) :=
  (4, [node_ptr q.1.1.1; node_ptr q.1.1.2; node_ptr q.1.2; node_ptr q.2]).

(** The mesh while [create] builds it: the element array holds active
    elements of the shapes [L], in this order; [tv] top vertices are
    counted, the log is empty and the mesh has no sequence number yet. *)
Definition built (L : list (nat * list (option nat))) (tv : Z) (cur : Mesh)
  : Prop :=
  shape <$> elements cur = L
  ∧ Forall (λ e, e_used e = true ∧ e_active e = true) (elements cur)
  ∧ ntopvert cur = tv ∧ refinements cur = [] ∧ seq cur = (-1)%Z.

(** An update of an element that keeps its shape, its use and its
    activity. *)
Definition shape_safe (f : Element → Element) : Prop :=
  ∀ e, shape (f e) = shape e ∧ e_used (f e) = e_used e
       ∧ e_active (f e) = e_active e.

(** A computation that does not look at the parent array: run on a mesh
    with another parent array, it gives the same value, or the same error,
    and leaves that other array in place. *)
Definition with_parents {A} (p : gmap nat Z) (sz : Z)
    (r : result (A * Mesh)) : result (A * Mesh) :=
  match r with
  | Ok (a, s) => Ok (a, mesh_set_parents p sz s)
  | Err e => Err e
  end.
Definition parents_blind {A} (c : M Mesh A) : Prop :=
  ∀ p sz m, c (mesh_set_parents p sz m) = with_parents p sz (c m).

(** The number of the elements of the array that are in use and active, and
    the state of a refinement of [ep] as far as this number goes: it is [k],
    and [ep] is in use, active or not as [a] says. *)
Definition is_leaf (e : Element) : bool := e_used e && e_active e.
Definition count_active (es : list Element) : nat :=
  length (filter (λ e, is_leaf e = true) es).
Definition tally (k : Z) (a : bool) (ep : nat) (cur : Mesh) : Prop :=
  Z.of_nat (count_active (elements cur)) = k
  ∧ ∃ e, elements cur !! ep = Some e ∧ e_used e = true ∧ e_active e = a.

(** An update of an element that keeps its use and its activity. *)
Definition flag_safe (f : Element → Element) : Prop :=
  ∀ e, e_used (f e) = e_used e ∧ e_active (f e) = e_active e.

(** The counter of the active elements is off by [d] from the number of the
    elements in use and active. *)
Definition off_by (d : Z) (m : Mesh) : Prop :=
  (Z.of_nat (count_active (elements m)) - nactive m = d)%Z.

(** The kinds of refinement that [refine_quad] provides. *)
Definition quad_kind (refinement : Z) : Prop :=
  (refinement = 0 ∨ refinement = 1 ∨ refinement = 2)%Z.

(** The kinds of refinement that the code provides for the element [id]: any
    kind for a triangle (3 gives three quads, every other kind four
    triangles), the kinds 0, 1 and 2 for a quad, and -1, which does nothing.
    With another kind on a quad the call comes to the [assert(0)] of
    [refine_quad]. *)
Definition kind_provided (m : Mesh) (id refinement : Z) : Prop :=
  refinement = (-1)%Z ∨ quad_kind refinement
  ∨ ∃ e, elements m !! Z.to_nat id = Some e ∧ is_triangle e = true.

(** The mesh states that [create], refinement, derefinement and
    regularization lead to, whatever the mesh object held before [create].
    The refinements are those of a build that checks its assertions, or, in
    a build that does not, those of a kind provided for the element. *)
Inductive reachable `{C : Collaborators} : Mesh → Prop :=
  | reach_create (m0 : Mesh) verts tris tri_markers quads quad_markers mark
      boundary_markers (m : Mesh) :
      create verts tris tri_markers quads quad_markers mark boundary_markers m0
        = Ok (tt, m) →
      reachable m
  | reach_refine (m : Mesh) (id refinement : Z) (m' : Mesh) :
      reachable m → NDEBUG = false ∨ kind_provided m id refinement →
      refine_element_id id refinement m = Ok (tt, m') →
      reachable m'
  | reach_unrefine (m : Mesh) (fuel : nat) (id : Z) (m' : Mesh) :
      reachable m → unrefine_element_id fuel id m = Ok (tt, m') →
      reachable m'
  | reach_regularize (m : Mesh) (fuel : nat) (n : Z) (par : gmap nat Z)
      (m' : Mesh) :
      reachable m → regularize fuel n m = Ok (par, m') → reachable m'.

(** The unit square after [refine_element_id(0, 5)] in a build that defines
    [NDEBUG]: the call goes past the [assert(0)] of [refine_quad]. *)
Definition unsplit_square : Mesh :=
  mesh_of (@refine_element_id straight_geometry_ndebug 0 5 unit_square).

(** The unit square after [refine_element_id(0, 0)] and
    [unrefine_element_id(0)]. *)
Definition unrefined_square : Mesh :=
  mesh_of (unrefine_element_id 3 0 refined_square).

(** * Properties *)

(** ** Reasoning about monadic code *)

Lemma bind_Ok {St A B} (c : M St A) (k : A → M St B) (s s' : St) (b : B) :
  (c ≫= k) s = Ok (b, s') ↔ ∃ a s1, c s = Ok (a, s1) ∧ k a s1 = Ok (b, s').
Proof.
  unfold mbind, M_bind. destruct (c s) as [[a s1]|e]; split.
  - intros H. by exists a, s1.
  - by intros (? & ? & [= <- <-] & H).
  - done.
  - by intros (? & ? & ? & ?).
Qed.

Lemma bind_Err_l {St A B} (c : M St A) (k : A → M St B) (s : St) (e : error) :
  c s = Err e → (c ≫= k) s = Err e.
Proof. unfold mbind, M_bind. by intros ->. Qed.

Lemma bind_Ok_l {St A B} (c : M St A) (k : A → M St B) (s s1 : St) (a : A) :
  c s = Ok (a, s1) → (c ≫= k) s = k a s1.
Proof. unfold mbind, M_bind. by intros ->. Qed.

Lemma mret_Ok {St A} (a b : A) (s s' : St) :
  mret (M := M St) a s = Ok (b, s') ↔ a = b ∧ s = s'.
Proof. unfold mret, M_ret. split; [by intros [= -> ->] | by intros [-> ->]]. Qed.

Lemma deref_Ok {St A} (o : option A) (a : A) (s s' : St) :
  deref o s = Ok (a, s') ↔ o = Some a ∧ s = s'.
Proof.
  destruct o; simpl; unfold throw, mret, M_ret; split;
    first [by intros [= -> ->] | by intros [[= ->] ->] | done | by intros [? _]].
Qed.

(** ** Postconditions of computations that succeed *)

Lemma hoare_bind {St A B} (P : St → Prop) (Q : A → St → Prop)
    (R : B → St → Prop) (c : M St A) (k : A → M St B) :
  hoare P c Q → (∀ a, hoare (Q a) (k a) R) → hoare P (c ≫= k) R.
Proof.
  intros Hc Hk s b s' HP H. apply bind_Ok in H as (a & s1 & H1 & H2).
  eapply Hk; [|exact H2]. eapply Hc; eauto.
Qed.

Lemma hoare_conseq {St A} (P P' : St → Prop) (Q Q' : A → St → Prop)
    (c : M St A) :
  hoare P' c Q' → (∀ s, P s → P' s) → (∀ a s, Q' a s → Q a s) → hoare P c Q.
Proof. intros H HP HQ s a s' Hs Hr. eapply HQ, H; eauto. Qed.

Lemma hoare_pure {St A} (φ : Prop) (P : St → Prop) (Q : A → St → Prop)
    (c : M St A) :
  (φ → hoare P c Q) → hoare (λ s, φ ∧ P s) c Q.
Proof. intros H s a s' [Hφ HP]. by apply H. Qed.

Lemma hoare_mret {St A} (P : St → Prop) (a : A) :
  hoare P (mret a) (λ _, P).
Proof. intros s b s' HP H. apply mret_Ok in H as [? <-]. done. Qed.

Lemma hoare_throw {St A} (P : St → Prop) (Q : A → St → Prop) (e : error) :
  hoare P (throw e) Q.
Proof. intros s b s' _ H. discriminate H. Qed.

Lemma hoare_assert `{C : Collaborators} {St} (P : St → Prop) (c : bool)
    (expr : string) :
  hoare P (assert c expr) (λ _, P).
Proof.
  intros s [] s' HP H. unfold assert in H.
  destruct (NDEBUG || c); [by injection H as <-|done].
Qed.

Lemma hoare_assert_false `{C : Collaborators} {St A} (P : St → Prop)
    (Q : A → St → Prop) (expr : string) (k : unit → M St A) :
  NDEBUG = false → hoare P (assert false expr ≫= k) Q.
Proof.
  intros HN s a s' _ H. apply bind_Ok in H as ([] & s1 & H & _).
  unfold assert in H. rewrite HN in H. done.
Qed.

Lemma hoare_assert_false_past `{C : Collaborators} {St A} (P : St → Prop)
    (expr : string) (a : A) :
  hoare P (assert false expr ≫= λ _, mret a)
    (λ x _, NDEBUG = true ∧ x = a).
Proof.
  intros s x s' _ H. apply bind_Ok in H as ([] & s1 & H & Hret).
  apply mret_Ok in Hret as [<- _]. unfold assert in H.
  destruct NDEBUG; [done|discriminate H].
Qed.

Lemma hoare_deref {St A} (P : St → Prop) (o : option A) :
  hoare P (deref o) (λ _, P).
Proof. intros s b s' HP H. apply deref_Ok in H as [? <-]. done. Qed.

Lemma hoare_get {St} (P : St → Prop) : hoare P get (λ _, P).
Proof. intros s b s' HP [= _ <-]. done. Qed.

Lemma hoare_gets {St A} (P : St → Prop) (f : St → A) :
  hoare P (gets f) (λ _, P).
Proof. intros s b s' HP [= _ <-]. done. Qed.

Lemma hoare_modify {St} (P : St → Prop) (f : St → St) :
  (∀ s, P s → P (f s)) → hoare P (modify f) (λ _, P).
Proof. intros H s b s' HP [= _ <-]. auto. Qed.

Lemma hoare_put {St} (P : St → Prop) (s0 : St) :
  P s0 → hoare P (put s0) (λ _, P).
Proof. intros H s b s' HP [= _ <-]. auto. Qed.

Lemma hoare_for_upto_from {St} (P : St → Prop) (n i : nat)
    (body : nat → M St unit) :
  (∀ j, hoare P (body j) (λ _, P)) → hoare P (for_upto_from n i body) (λ _, P).
Proof.
  intros Hb. revert i. induction n as [|n IH]; intros i; cbn.
  - apply hoare_mret.
  - eapply hoare_bind; [apply Hb|]. intros ?. apply IH.
Qed.

Lemma hoare_for_upto {St} (P : St → Prop) (n : nat)
    (body : nat → M St unit) :
  (∀ j, hoare P (body j) (λ _, P)) → hoare P (for_upto n body) (λ _, P).
Proof. apply hoare_for_upto_from. Qed.

Lemma hoare_collect {St A} (P : St → Prop) (n : nat) (f : nat → M St A) :
  (∀ j, hoare P (f j) (λ _, P)) → hoare P (collect n f) (λ _, P).
Proof.
  intros Hb. unfold collect. generalize 0. induction n as [|n IH]; intros i; cbn.
  - apply hoare_mret.
  - eapply hoare_bind; [apply Hb|]. intros a.
    eapply hoare_bind; [apply IH|]. intros l. apply hoare_mret.
Qed.

Lemma hoare_fold_upto {St A} (P : St → Prop) (n : nat)
    (body : nat → A → M St A) (a : A) :
  (∀ j b, hoare P (body j b) (λ _, P)) → hoare P (fold_upto n body a) (λ _, P).
Proof.
  intros Hb. unfold fold_upto. generalize 0. revert a.
  induction n as [|n IH]; intros a i; cbn.
  - apply hoare_mret.
  - eapply hoare_bind; [apply Hb|]. intros b. apply IH.
Qed.

(** The rule for sequencing when the same invariant holds throughout. *)
Lemma hoare_bind_inv {St A B} (P : St → Prop) (c : M St A) (k : A → M St B) :
  hoare P c (λ _, P) → (∀ a, hoare P (k a) (λ _, P)) →
  hoare P (c ≫= k) (λ _, P).
Proof. intros Hc Hk. eapply hoare_bind; [exact Hc|exact Hk]. Qed.

Lemma hoare_elem_at (P : Mesh → Prop) (p : nat) :
  hoare P (elem_at p) (λ _, P).
Proof. intros m a m' HP H. apply deref_Ok in H as [_ <-]. done. Qed.

(** A computation that leaves the state alone preserves every invariant. *)
Lemma hoare_unchanged {St A} (P : St → Prop) (c : M St A) :
  (∀ s a s', c s = Ok (a, s') → s' = s) → hoare P c (λ _, P).
Proof. intros Hc s a s' HP H. by rewrite (Hc _ _ _ H). Qed.

Create HintDb hoare_pure discriminated.

Ltac head_of t :=
  lazymatch t with
  | ?f _ => head_of f
  | _ => t
  end.

(** The operations that write to the state directly; the invariants are
    proved for them one by one. *)
Ltac is_primitive h :=
  lazymatch h with
  | @liftH => idtac
  | @update_elem => idtac
  | @mesh_elements_add => idtac
  | @modify => idtac
  | @put => idtac
  | @update_node => idtac
  | @ht_nodes_add => idtac
  end.

(** Steps through a computation to show that it preserves an invariant:
    the structure is taken apart with the rules above; a call is settled by
    the hints of the database [db] or, failing that, replaced by the body of
    the function called. *)
Ltac preserve_step db :=
  first
    [ apply hoare_mret | apply hoare_throw | apply hoare_deref
    | apply hoare_get | apply hoare_gets | apply hoare_elem_at
    | apply hoare_bind_inv; [|intros ?]
    | apply hoare_for_upto; intros ?
    | apply hoare_collect; intros ?
    | apply hoare_fold_upto; intros ? ?
    | match goal with
      | |- hoare _ (if ?b then _ else _) _ => destruct b
      | |- hoare _ (match ?x with _ => _ end) _ => destruct x
      | |- hoare _ (let _ := _ in _) _ => cbv zeta
      end
    | solve [eauto 3 with db]
    | solve [eauto 2 with hoare_pure]
    | match goal with
      | |- hoare _ ?c _ =>
          let h := head_of c in
          tryif is_primitive h then fail else unfold h
      end ].
Ltac preserve_with db := repeat (preserve_step db).

(** Rules for postconditions that are found along the way. *)
Lemma hoare_fact {St A} (φ : Prop) (P : St → Prop) (Q : A → St → Prop)
    (c : M St A) :
  (φ → hoare P c Q) → hoare (with_fact φ P) c Q.
Proof. intros H s a s' [Hφ HP]. by apply H. Qed.

Lemma hoare_mret_fact {St A} (Φ : A → Prop) (P : St → Prop) (a : A) :
  Φ a → hoare P (mret a) (λ b, with_fact (Φ b) P).
Proof.
  intros Ha s b s' HP H. apply mret_Ok in H as [<- <-]. by split.
Qed.

Lemma hoare_deref_fact {St A} (P : St → Prop) (o : option A) :
  hoare P (deref o) (λ a, with_fact (o = Some a) P).
Proof.
  intros s b s' HP H. apply deref_Ok in H as [-> <-]. by split.
Qed.

(** Forward reasoning: the postcondition of each command, found in the
    database [db] or by the rules, is the precondition of the next one. *)
Ltac hoare_step db :=
  lazymatch goal with
  | |- hoare ?P _ _ => tryif has_evar P then fail else idtac
  end;
  try (progress cbv beta);
  first
    [ apply hoare_throw
    | lazymatch goal with
      | |- hoare (with_fact _ _) _ _ => apply hoare_fact; intros ?
      end
    | apply hoare_mret
    | apply hoare_mret_fact; split; [reflexivity | vm_compute; lia]
    | apply hoare_deref | apply hoare_get
    | apply hoare_gets | apply hoare_elem_at
    | solve [eauto 3 with db]
    | solve [eauto 2 with hoare_pure]
    | eapply hoare_bind; [|intros ?]
    | apply hoare_for_upto; intros ?
    | apply hoare_collect; intros ?
    | apply hoare_fold_upto; intros ? ?
    | match goal with
      | |- hoare _ (if ?b then _ else _) _ => destruct b
      | |- hoare _ (match ?x with _ => _ end) _ => destruct x
      | |- hoare _ (let _ := _ in _) _ => cbv zeta
      end
    | match goal with
      | |- hoare _ ?c _ =>
          let h := head_of c in
          tryif is_primitive h then fail else unfold h
      end ].
Ltac hoare_auto db := repeat (hoare_step db).

(** Unfolds the monad operations where they are applied to a state. *)
Ltac msimpl :=
  cbv beta iota zeta delta
    [mbind M_bind mret M_ret get put modify gets throw deref elem_at liftH
     node_at].
Ltac msimpl_in H :=
  cbv beta iota zeta delta
    [mbind M_bind mret M_ret get put modify gets throw deref elem_at liftH
     node_at] in H.

(** Takes a successful run [H : c s = Ok (a, s')] of a sequence apart. *)
Ltac minv_step H :=
  lazymatch type of H with
  | (_ ≫= _) _ = Ok _ =>
      let a := fresh "a" in
      let s := fresh "s" in
      let H1 := fresh "Hrun" in
      let H2 := fresh "Hrun" in
      apply bind_Ok in H; destruct H as (a & s & H1 & H2);
      try minv_step H1; try minv_step H2
  | mret _ _ = Ok _ =>
      apply mret_Ok in H; destruct H as [? ?]; subst
  | deref _ _ = Ok _ =>
      apply deref_Ok in H; destruct H as [? ?]; subst
  | throw _ _ = Ok _ => discriminate H
  | Err _ = Ok _ => discriminate H
  | Ok _ = Ok _ => injection H as ? ?; subst
  end.
Ltac minv H := minv_step H.

Section Properties.
Context {C : Collaborators}.

(** ** Element ids and refinement requests *)

(** C10: with the kind -1, [refine_element_id] returns at once, whatever the
    id: nothing is raised and the mesh (elements, nodes, counters, sequence
    number, refinement log) is the one it was given. *)
Theorem refine_element_id_minus_one (m : Mesh) (id : Z) :
  refine_element_id id (-1) m = Ok (tt, m).
Proof. reflexivity. Qed.

Lemma get_element_out_of_range (m : Mesh) (id : Z) :
  (id < 0 ∨ Z.of_nat (length (elements m)) ≤ id)%Z →
  get_element id m
  = Err (Exception "Invalid element ID %d, current range:[0; %d]").
Proof.
  intros H. unfold get_element. msimpl.
  destruct (id <? 0)%Z eqn:E1; [done|].
  destruct (Z.of_nat (length (elements m)) <=? id)%Z eqn:E2; [done|].
  apply Z.ltb_ge in E1. apply Z.leb_gt in E2. lia.
Qed.

Lemma get_element_in_range (m : Mesh) (id : Z) :
  (0 ≤ id < Z.of_nat (length (elements m)))%Z →
  get_element id m = Ok (Z.to_nat id, m).
Proof.
  intros H. unfold get_element. msimpl.
  destruct (id <? 0)%Z eqn:E1; [apply Z.ltb_lt in E1; lia|].
  destruct (Z.of_nat (length (elements m)) <=? id)%Z eqn:E2;
    [apply Z.leb_le in E2; lia|done].
Qed.

(** C9, as amended: for every kind other than -1, [refine_element_id] raises
    an exception when the id is outside the range of the element array, when
    the element is unused and when it is inactive; [get_element] raises its
    invalid-id exception on every id outside the range. *)
Theorem refine_element_id_rejects (m : Mesh) (id kind : Z) :
  kind ≠ (-1)%Z →
  ((id < 0 ∨ Z.of_nat (length (elements m)) ≤ id)%Z →
     get_element id m
     = Err (Exception "Invalid element ID %d, current range:[0; %d]")
     ∧ refine_element_id id kind m
       = Err (Exception "Invalid element ID %d, current range:[0; %d]"))
  ∧ (∀ e, (0 ≤ id)%Z → elements m !! Z.to_nat id = Some e →
       e_used e = false →
       refine_element_id id kind m
       = Err (Exception "Invalid element id number."))
  ∧ (∀ e, (0 ≤ id)%Z → elements m !! Z.to_nat id = Some e →
       e_used e = true → e_active e = false →
       refine_element_id id kind m
       = Err (Exception
           "Attempt to refine element #%d which has been refined already.")).
Proof.
  intros Hk. unfold refine_element_id. rewrite decide_False by done.
  split; [|split].
  - intros Hr. split; [by apply get_element_out_of_range|].
    apply bind_Err_l. by apply get_element_out_of_range.
  - intros e Hid He Hu.
    assert (Hr : (0 ≤ id < Z.of_nat (length (elements m)))%Z).
    { apply lookup_lt_Some in He. lia. }
    rewrite (bind_Ok_l _ _ _ _ _ (get_element_in_range m id Hr)).
    msimpl. rewrite He. by rewrite Hu.
  - intros e Hid He Hu Ha.
    assert (Hr : (0 ≤ id < Z.of_nat (length (elements m)))%Z).
    { apply lookup_lt_Some in He. lia. }
    rewrite (bind_Ok_l _ _ _ _ _ (get_element_in_range m id Hr)).
    msimpl. rewrite He. by rewrite Hu, Ha.
Qed.


(** ** The sequence number of a live mesh *)

Create HintDb inv_seq discriminated.

Lemma seq_liftH {A} (c : M HashTable A) :
  hoare seq_nonneg (liftH c) (λ _, seq_nonneg).
Proof.
  intros m a m' Hm H. unfold liftH in H.
  destruct (c (ht m)) as [[b h]|]; [|done]. by injection H as _ <-.
Qed.

Lemma seq_update_elem (p : nat) (f : Element → Element) :
  hoare seq_nonneg (update_elem p f) (λ _, seq_nonneg).
Proof.
  intros m a m' Hm H. unfold update_elem in H.
  destruct (elements m !! p); [|done]. by injection H as _ <-.
Qed.

Lemma seq_elements_add :
  hoare seq_nonneg mesh_elements_add (λ _, seq_nonneg).
Proof.
  intros m a m' Hm H. unfold mesh_elements_add in H.
  destruct (elements_add (elements m)). by injection H as _ <-.
Qed.

Lemma seq_modify (f : Mesh → Mesh) :
  (∀ m, seq (f m) = seq m) → hoare seq_nonneg (modify f) (λ _, seq_nonneg).
Proof. intros Hf. apply hoare_modify. unfold seq_nonneg. intros m. by rewrite Hf. Qed.

Lemma seq_bump : hoare seq_nonneg (modify bump_seq) (λ _, seq_nonneg).
Proof.
  apply hoare_modify. intros m _. unfold seq_nonneg. cbn.
  apply Z.mod_pos_bound. lia.
Qed.

#[local] Hint Resolve seq_liftH seq_update_elem seq_elements_add seq_bump
  : inv_seq.
#[local] Hint Extern 1 (hoare seq_nonneg (modify _) _) =>
  apply seq_modify; intros; reflexivity : inv_seq.

Lemma seq_refine_element_id (id kind : Z) :
  hoare seq_nonneg (refine_element_id id kind) (λ _, seq_nonneg).
Proof. unfold refine_element_id. preserve_with inv_seq. Qed.

#[local] Hint Resolve seq_refine_element_id : inv_seq.

(** ** The main loop of the regularization *)

Lemma edge_degree_Ok (fuel : nat) (e : Element) (i j : nat) (m m' : Mesh)
    (d : Z) :
  edge_degree fuel e i j m = Ok (d, m') →
  m' = m ∧ ∃ v1 v2, slot (e_vn e) i = Some v1 ∧ slot (e_vn e) j = Some v2
                    ∧ get_edge_degree fuel (ht m) v1 v2 = Some d.
Proof.
  unfold edge_degree. intros H.
  apply bind_Ok in H as (v1 & m1 & [Hv1 <-]%deref_Ok & H1).
  apply bind_Ok in H1 as (v2 & m2 & [Hv2 <-]%deref_Ok & H2).
  msimpl_in H2. destruct (get_edge_degree fuel (ht m) v1 v2) as [d'|] eqn:Hd;
    [|done].
  injection H2 as <- <-. eauto 10.
Qed.

Lemma exceeds_Ok (fuel : nat) (e : Element) (i j : nat) (n : Z)
    (m m' : Mesh) (b : bool) :
  exceeds fuel e i j n m = Ok (b, m') →
  m' = m ∧ ∃ v1 v2 d, slot (e_vn e) i = Some v1 ∧ slot (e_vn e) j = Some v2
                      ∧ get_edge_degree fuel (ht m) v1 v2 = Some d
                      ∧ b = bool_decide (n < d)%Z.
Proof.
  unfold exceeds. intros H.
  apply bind_Ok in H as (d & m1 & H1 & H2).
  apply edge_degree_Ok in H1 as (-> & v1 & v2 & ? & ? & ?).
  apply mret_Ok in H2 as [<- <-]. eauto 10.
Qed.

Lemma any_edge_exceeds_from_Ok (fuel k i : nat) (e : Element) (n : Z)
    (m m' : Mesh) (b : bool) :
  any_edge_exceeds_from fuel k i e n m = Ok (b, m') →
  m' = m ∧ (b = false →
            ∀ j, i ≤ j < i + k → edge_degree_at_most fuel m e j n).
Proof.
  revert i. induction k as [|k IH]; intros i; cbn [any_edge_exceeds_from].
  - intros [<- <-]%mret_Ok. split; [done|]. intros _ j Hj. lia.
  - intros H.
    apply bind_Ok in H as (b1 & m1 & H1 & H2).
    apply exceeds_Ok in H1 as (-> & v1 & v2 & d & ? & ? & ? & ->).
    case_bool_decide as Hd.
    + apply mret_Ok in H2 as [<- <-]. done.
    + apply IH in H2 as [-> Hrest]. split; [done|]. intros Hb j Hj.
      destruct (decide (j = i)) as [->|Hne].
      * exists v1, v2, d. repeat split; [done..|lia].
      * apply Hrest; [done|lia].
Qed.

Lemma regularize_iso_Ok (fuel : nat) (e : Element) (n : Z) (m m' : Mesh)
    (iso : Z) :
  regularize_iso fuel e n m = Ok (iso, m') →
  m' = m ∧ ((iso < 0)%Z →
            ∀ j, j < e_nvert e → edge_degree_at_most fuel m e j n).
Proof.
  unfold regularize_iso, any_edge_exceeds. intros H.
  assert (Hlast : ∀ m' iso,
    (b ← any_edge_exceeds_from fuel (e_nvert e) 0 e n;
     mret (if (b : bool) then 0 else -1)%Z) m = Ok (iso, m') →
    m' = m ∧ ((iso < 0)%Z →
              ∀ j, j < e_nvert e → edge_degree_at_most fuel m e j n)).
  { clear. intros m' iso H.
    apply bind_Ok in H as (b & m1 & H1 & H2).
    apply any_edge_exceeds_from_Ok in H1 as [-> Hb].
    apply mret_Ok in H2 as [<- <-]. split; [done|].
    destruct b; [lia|]. intros _ j Hj. apply Hb; [done|lia]. }
  destruct (is_triangle e); [by apply Hlast|].
  repeat match goal with
  | H1 : exceeds _ _ _ _ _ _ = Ok _ |- _ =>
      apply exceeds_Ok in H1; destruct H1 as [? _]; simplify_eq
  | H1 : (if ?b then _ else _) _ = Ok _ |- _ => destruct b
  | H1 : (_ ≫= _) _ = Ok _ |- _ =>
      let H2 := fresh "H" in
      let H3 := fresh "H" in
      apply bind_Ok in H1; destruct H1 as (? & ? & H2 & H3)
  | H1 : mret _ _ = Ok _ |- _ =>
      apply mret_Ok in H1; destruct H1 as [? ?]; simplify_eq
  end;
  first
    [ by apply Hlast
    | split; [done|lia]
    | match goal with
      | H1 : any_edge_exceeds_from _ _ _ _ _ _ = Ok (?b, _) |- _ =>
          apply any_edge_exceeds_from_Ok in H1 as [-> Hb];
          split; [done|]; destruct b; [lia|];
          intros _ j Hj; apply Hb; [done|lia]
      end ].
Qed.

Lemma hoare_regularize_iso (P : Mesh → Prop) (fuel : nat) (e : Element)
    (n : Z) :
  hoare P (regularize_iso fuel e n) (λ _, P).
Proof.
  apply hoare_unchanged. intros s a s' H.
  by apply regularize_iso_Ok in H as [-> _].
Qed.

Lemma hoare_edge_degree (P : Mesh → Prop) (fuel : nat) (e : Element)
    (i j : nat) :
  hoare P (edge_degree fuel e i j) (λ _, P).
Proof.
  apply hoare_unchanged. intros s a s' H.
  by apply edge_degree_Ok in H as [-> _].
Qed.

#[local] Hint Resolve hoare_regularize_iso hoare_edge_degree : hoare_pure.

Lemma regularize_step_true (fuel : nat) (n : Z) (id : nat) (ok : bool)
    (m m' : Mesh) :
  regularize_step fuel n id ok m = Ok (true, m') →
  ok = true ∧ m' = m
  ∧ ∀ e j, elements m !! id = Some e → e_used e = true → e_active e = true →
           j < e_nvert e → edge_degree_at_most fuel m e j n.
Proof.
  unfold regularize_step. intros H.
  apply bind_Ok in H as (e & m1 & H1 & H2).
  apply deref_Ok in H1 as [He <-].
  destruct (e_used e && e_active e) eqn:Hua.
  - apply bind_Ok in H2 as (iso & m2 & H2 & H3).
    apply regularize_iso_Ok in H2 as [-> Hiso].
    destruct (0 <=? iso)%Z eqn:Hi.
    + apply bind_Ok in H3 as (? & ? & _ & H3).
      apply bind_Ok in H3 as (? & ? & _ & H3).
      by apply mret_Ok in H3 as [? _].
    + apply mret_Ok in H3 as [-> <-]. repeat split.
      intros e' j He' _ _ Hj. rewrite He in He'. injection He' as <-.
      apply Hiso; [|done]. apply Z.leb_gt in Hi. lia.
  - apply mret_Ok in H2 as [-> <-]. repeat split.
    intros e' j He' Hu Ha. rewrite He in He'. injection He' as <-.
    by rewrite Hu, Ha in Hua.
Qed.

Lemma regularize_step_false (fuel : nat) (n : Z) (id : nat) (b : bool)
    (m m' : Mesh) :
  regularize_step fuel n id false m = Ok (b, m') → b = false.
Proof.
  unfold regularize_step. intros H.
  apply bind_Ok in H as (e & m1 & _ & H2).
  destruct (e_used e && e_active e).
  - apply bind_Ok in H2 as (iso & m2 & _ & H3).
    destruct (0 <=? iso)%Z.
    + apply bind_Ok in H3 as (? & ? & _ & H3).
      apply bind_Ok in H3 as (? & ? & _ & H3).
      by apply mret_Ok in H3 as [? _].
    + by apply mret_Ok in H3 as [? _].
  - by apply mret_Ok in H2 as [? _].
Qed.

Lemma regularize_fold_false (fuel : nat) (n : Z) (k i : nat) (b : bool)
    (m m' : Mesh) :
  fold_upto_from k i (regularize_step fuel n) false m = Ok (b, m') →
  b = false.
Proof.
  revert i m. induction k as [|k IH]; intros i m; cbn [fold_upto_from].
  - by intros [? _]%mret_Ok.
  - intros H. apply bind_Ok in H as (b1 & m1 & H1 & H2).
    apply regularize_step_false in H1 as ->. by eapply IH.
Qed.

Lemma regularize_fold_true (fuel : nat) (n : Z) (k i : nat) (ok : bool)
    (m m' : Mesh) :
  fold_upto_from k i (regularize_step fuel n) ok m = Ok (true, m') →
  ok = true ∧ m' = m
  ∧ ∀ id e j, i ≤ id < i + k → elements m !! id = Some e →
              e_used e = true → e_active e = true → j < e_nvert e →
              edge_degree_at_most fuel m e j n.
Proof.
  revert i ok m. induction k as [|k IH]; intros i ok m; cbn [fold_upto_from].
  - intros [-> <-]%mret_Ok. repeat split. intros; lia.
  - intros H. apply bind_Ok in H as (b1 & m1 & H1 & H2).
    apply IH in H2 as (-> & -> & Hrest).
    apply regularize_step_true in H1 as (-> & -> & Hi).
    repeat split. intros id e j Hid.
    destruct (decide (id = i)) as [->|Hne]; [apply Hi|].
    apply Hrest. lia.
Qed.

Lemma regularize_pass_true (fuel : nat) (n : Z) (m m' : Mesh) :
  regularize_pass fuel n m = Ok (true, m') →
  m' = m
  ∧ ∀ id e j, (Z.of_nat id < get_max_element_id m)%Z →
              elements m !! id = Some e →
              e_used e = true → e_active e = true → j < e_nvert e →
              edge_degree_at_most fuel m e j n.
Proof.
  unfold regularize_pass, fold_upto. msimpl. intros H.
  apply regularize_fold_true in H as (_ & -> & H). split; [done|].
  intros id e j Hid. apply H. lia.
Qed.

(** When the main loop ends, a further round finds nothing to refine. *)
Lemma regularize_loop_fixed_point (rounds fuel : nat) (n : Z) (m m' : Mesh) :
  regularize_loop rounds fuel n m = Ok (tt, m') →
  regularize_pass fuel n m' = Ok (true, m').
Proof.
  revert m. induction rounds as [|r IH]; intros m; cbn [regularize_loop];
    [done|].
  intros H. apply bind_Ok in H as (ok & m1 & H1 & H2). destruct ok.
  - apply mret_Ok in H2 as [_ <-].
    by destruct (regularize_pass_true _ _ _ _ H1) as [-> _].
  - by eapply IH.
Qed.

Lemma seq_regularize_loop (rounds fuel : nat) (n : Z) :
  hoare seq_nonneg (regularize_loop rounds fuel n) (λ _, seq_nonneg).
Proof.
  induction rounds as [|r IH]; cbn [regularize_loop];
    preserve_with inv_seq.
Qed.

Lemma seq_regularize_main (fuel : nat) (n : Z) :
  hoare seq_nonneg (regularize_main fuel n) (λ _, seq_nonneg).
Proof.
  pose proof seq_regularize_loop. unfold regularize_main.
  preserve_with inv_seq.
Qed.


(** ** The son slots of the refinement tree *)

Create HintDb inv_sons discriminated.

Lemma sons_inv_weaken (ex : option nat) (m : Mesh) :
  sons_inv None m → sons_inv ex m.
Proof.
  intros H id e He. destruct (H id e He) as [Hl Hs]. split; [done|].
  intros _. by apply Hs.
Qed.

Lemma sons_liftH {A} (ex : option nat) (c : M HashTable A) :
  hoare (sons_inv ex) (liftH c) (λ _, sons_inv ex).
Proof.
  intros m a m' Hm H. unfold liftH in H.
  destruct (c (ht m)) as [[b h]|]; [|done]. by injection H as _ <-.
Qed.

Lemma sons_modify (ex : option nat) (f : Mesh → Mesh) :
  (∀ m, elements (f m) = elements m) →
  hoare (sons_inv ex) (modify f) (λ _, sons_inv ex).
Proof.
  intros Hf. apply hoare_modify. unfold sons_inv. intros m. by rewrite Hf.
Qed.

Lemma sons_put (ex : option nat) (m0 : Mesh) :
  sons_inv ex m0 → hoare (sons_inv ex) (put m0) (λ _, sons_inv ex).
Proof. apply hoare_put. Qed.

Lemma update_elem_Ok (p : nat) (f : Element → Element) (m m' : Mesh) :
  update_elem p f m = Ok (tt, m') →
  is_Some (elements m !! p)
  ∧ m' = mesh_set_elements (alter f p (elements m)) m.
Proof.
  unfold update_elem. destruct (elements m !! p); [|done].
  intros [= <-]. eauto.
Qed.

Lemma sons_update_safe (ex : option nat) (p : nat) (f : Element → Element) :
  sons_safe f →
  hoare (sons_inv ex) (update_elem p f) (λ _, sons_inv ex).
Proof.
  intros Hf m [] m' Hm H. apply update_elem_Ok in H as [_ ->].
  intros id e. cbn. destruct (decide (id = p)) as [->|Hne].
  - rewrite list_lookup_alter_eq. destruct (elements m !! p) as [e0|] eqn:E;
      [|done].
    intros [= <-]. destruct (Hf e0) as [Hs Hua]. rewrite Hs.
    destruct (Hm p e0 E) as [Hl Hc]. split; [done|].
    intros Hex Hu Ha. destruct (Hua Hu Ha). by apply Hc.
  - rewrite list_lookup_alter_ne by done. apply Hm.
Qed.

Lemma sons_update_at (p : nat) (f : Element → Element) :
  (∀ e, length (e_sons (f e)) = length (e_sons e)) →
  hoare (sons_inv (Some p)) (update_elem p f) (λ _, sons_inv (Some p)).
Proof.
  intros Hf m [] m' Hm H. apply update_elem_Ok in H as [_ ->].
  intros id e. cbn. destruct (decide (id = p)) as [->|Hne].
  - rewrite list_lookup_alter_eq. destruct (elements m !! p) as [e0|] eqn:E;
      [|done].
    intros [= <-]. rewrite Hf. destruct (Hm p e0 E) as [Hl _].
    split; [done|]. by intros [].
  - rewrite list_lookup_alter_ne by done. apply Hm.
Qed.

Lemma sons_deactivate (ep : nat) :
  hoare (sons_inv None) (deactivate ep) (λ _, sons_inv (Some ep)).
Proof.
  intros m a m' Hm H. eapply sons_update_at; [|by apply sons_inv_weaken|exact H].
  done.
Qed.

Lemma sons_set_sons (ep : nat) (f : Element → Element) :
  (∀ e, length (e_sons e) = 4 →
        length (e_sons (f e)) = 4 ∧ 2 ≤ num_sons (e_sons (f e))) →
  hoare (sons_inv (Some ep)) (update_elem ep f) (λ _, sons_inv None).
Proof.
  intros Hf m [] m' Hm H. apply update_elem_Ok in H as [_ ->].
  intros id e. cbn. destruct (decide (id = ep)) as [->|Hne].
  - rewrite list_lookup_alter_eq. destruct (elements m !! ep) as [e0|] eqn:E;
      [|done].
    intros [= <-]. destruct (Hm ep e0 E) as [Hl _].
    destruct (Hf e0 Hl). split; [done|]. done.
  - rewrite list_lookup_alter_ne by done. intros He.
    destruct (Hm id e He) as [Hl Hc]. split; [done|]. intros _.
    apply Hc. congruence.
Qed.

Lemma elements_add_spec (es es' : list Element) (s : nat) :
  elements_add es = (s, es') →
  ∃ e0, es' !! s = Some (elem_set_used true e0)
        ∧ ((es !! s = Some e0 ∧ e_used e0 = false)
           ∨ (es !! s = None ∧ e0 = default_element))
        ∧ ∀ j, j ≠ s → es' !! j = es !! j.
Proof.
  unfold elements_add.
  destruct (list_find _ es) as [[i e]|] eqn:E; intros [= <- <-].
  - apply list_find_Some in E as (He & Hu & _). exists e.
    split; [by apply list_lookup_insert_eq, lookup_lt_is_Some; eauto|].
    split; [by left|]. intros j Hj. by rewrite list_lookup_insert_ne.
  - exists default_element. split.
    { rewrite lookup_app_r by done. by rewrite Nat.sub_diag. }
    split; [right; split; [by apply lookup_ge_None|done]|].
    intros j Hj. destruct (decide (j < length es)).
    + by rewrite lookup_app_l.
    + rewrite !lookup_ge_None_2; [done|lia|rewrite length_app; cbn; lia].
Qed.

Lemma sons_new_element (ex : option nat) (marker : Z) (nvert : nat)
    (cm : option CurvMap) :
  hoare (sons_inv ex) (new_element marker nvert cm) (λ _, sons_inv ex).
Proof.
  intros m s m' Hm H. unfold new_element in H.
  apply bind_Ok in H as (s1 & m1 & H1 & H2).
  apply bind_Ok in H2 as ([] & m2 & H2 & H3).
  apply mret_Ok in H3 as [<- <-].
  unfold mesh_elements_add in H1.
  destruct (elements_add (elements m)) as [s2 es] eqn:E.
  injection H1 as <- <-.
  apply elements_add_spec in E as (e0 & Hs & Hold & Hother).
  apply update_elem_Ok in H2 as [_ ->]. cbn.
  intros id e. cbn. destruct (decide (id = s2)) as [->|Hne].
  - rewrite list_lookup_alter_eq, Hs. cbn. intros [= <-]. cbn.
    split; [|done].
    destruct Hold as [[Hold _]|[_ ->]]; [|done]. by destruct (Hm s2 e0 Hold).
  - rewrite list_lookup_alter_ne by done. rewrite Hother by done. apply Hm.
Qed.

Lemma sons_remove (ex : option nat) (sp : nat) :
  hoare (sons_inv ex)
    (modify (λ m, mesh_set_elements (elements_remove sp (elements m)) m))
    (λ _, sons_inv ex).
Proof.
  apply hoare_modify. intros m Hm id e. cbn. unfold elements_remove.
  destruct (decide (id = sp)) as [->|Hne].
  - rewrite list_lookup_alter_eq. destruct (elements m !! sp) as [e0|] eqn:E;
      [|done].
    intros [= <-]. cbn. destruct (Hm sp e0 E). split; [done|]. done.
  - rewrite list_lookup_alter_ne by done. apply Hm.
Qed.

Ltac solve_sons_safe :=
  intros ?; split; [reflexivity | cbn; intros; first [discriminate | done]].

#[local] Hint Resolve sons_liftH sons_new_element sons_remove sons_deactivate
  : inv_sons.
#[local] Hint Extern 1 (hoare (sons_inv _) (modify _) _) =>
  apply sons_modify; intros; reflexivity : inv_sons.
#[local] Hint Extern 2 (hoare (sons_inv _) (update_elem _ _) _) =>
  apply sons_update_safe; solve_sons_safe : inv_sons.
Lemma set3_sons (a b c : nat) (l : list (option nat)) :
  length l = 4 →
  length (set3 (Some a) (Some b) (Some c) l) = 4
  ∧ 2 ≤ num_sons (set3 (Some a) (Some b) (Some c) l).
Proof.
  destruct l as [|x0 [|x1 [|x2 [|x3 [|x4 l]]]]]; try done. intros _.
  split; [done|]. destruct x3; vm_compute; lia.
Qed.

Ltac solve_set_sons :=
  intros ? ?; cbn [e_sons elem_set_sons];
  first [ assumption
        | by apply set3_sons
        | split; [reflexivity | vm_compute; lia] ].

#[local] Hint Extern 3 (hoare (sons_inv (Some ?p)) (update_elem ?p _) _) =>
  apply sons_set_sons; solve_set_sons : inv_sons.

Lemma sons_create_triangle (ex : option nat) (marker : Z)
    (v0 v1 v2 : option nat) (cm : option CurvMap) :
  hoare (sons_inv ex) (create_triangle marker v0 v1 v2 cm)
    (λ _, sons_inv ex).
Proof. unfold create_triangle. hoare_auto inv_sons. Qed.

Lemma sons_create_quad (ex : option nat) (marker : Z)
    (v0 v1 v2 v3 : option nat) (cm : option CurvMap) :
  hoare (sons_inv ex) (create_quad marker v0 v1 v2 v3 cm)
    (λ _, sons_inv ex).
Proof. unfold create_quad. hoare_auto inv_sons. Qed.

#[local] Hint Resolve sons_create_triangle sons_create_quad : inv_sons.

Lemma sons_refine_triangle_to_triangles (ep : nat) :
  hoare (sons_inv None) (refine_triangle_to_triangles ep)
    (λ _, sons_inv None).
Proof. unfold refine_triangle_to_triangles. hoare_auto inv_sons. Qed.

Lemma sons_refine_triangle_to_quads (ep : nat) :
  hoare (sons_inv None) (refine_triangle_to_quads ep) (λ _, sons_inv None).
Proof. unfold refine_triangle_to_quads. hoare_auto inv_sons. Qed.

#[local] Hint Resolve sons_refine_triangle_to_triangles
  sons_refine_triangle_to_quads : inv_sons.

(** In [refine_quad] the element is deactivated before its sons exist; the
    list of sons that the three cases build has four slots, two of them
    filled at least. A kind outside the three cases ends in [assert(0)]. *)
Lemma sons_refine_quad (ep : nat) (refinement : Z) :
  NDEBUG = false ∨ quad_kind refinement →
  hoare (sons_inv None) (refine_quad ep refinement) (λ _, sons_inv None).
Proof.
  intros Hk. unfold refine_quad.
  repeat first
    [ lazymatch goal with
      | |- hoare _ (?f (if decide (refinement = 0%Z) then _ else _)) _ =>
          eapply (hoare_bind _
            (λ sons, with_fact (length sons = 4 ∧ 2 ≤ num_sons sons)
                       (sons_inv (Some ep)))); [|intros ?]
      | |- hoare _ (assert false _ ≫= _) _ =>
          apply hoare_assert_false;
          destruct Hk as [Hk|Hk]; [exact Hk|unfold quad_kind in Hk; lia]
      end
    | hoare_step inv_sons ].
Qed.

#[local] Hint Extern 1 (hoare (sons_inv None) (refine_quad _ _) _) =>
  apply sons_refine_quad; assumption : inv_sons.

Lemma sons_refine_element (ep : nat) (refinement : Z) :
  NDEBUG = false ∨ quad_kind refinement →
  hoare (sons_inv None) (refine_element ep refinement) (λ _, sons_inv None).
Proof. intros Hk. unfold refine_element. hoare_auto inv_sons. Qed.

#[local] Hint Extern 1 (hoare (sons_inv None) (refine_element _ _) _) =>
  apply sons_refine_element; assumption : inv_sons.

(** A triangle is refined in every kind. *)
Lemma sons_refine_element_triangle (ep : nat) (refinement : Z) :
  hoare (λ s, sons_inv None s
              ∧ ∃ e, elements s !! ep = Some e ∧ is_triangle e = true)
    (refine_element ep refinement) (λ _, sons_inv None).
Proof.
  intros m [] m' [Hm (e & He & Ht)] H. unfold refine_element in H.
  apply bind_Ok in H as ([] & m1 & Hlog & H). injection Hlog as <-.
  apply bind_Ok in H as (e' & m1' & He' & H).
  apply deref_Ok in He' as [He' <-]. cbn in He'.
  rewrite He in He'. injection He' as <-. rewrite Ht in H.
  match type of H with
  | ?c _ = _ =>
      assert (Hh : hoare (sons_inv None) c (λ _, sons_inv None))
        by hoare_auto inv_sons
  end.
  eapply Hh; [|exact H]. exact Hm.
Qed.

Lemma sons_refine_element_id (id refinement : Z) :
  NDEBUG = false ∨ refinement = (-1)%Z ∨ quad_kind refinement →
  hoare (sons_inv None) (refine_element_id id refinement)
    (λ _, sons_inv None).
Proof.
  intros Hk. unfold refine_element_id.
  destruct (decide (refinement = (-1)%Z)); [apply hoare_mret|].
  assert (NDEBUG = false ∨ quad_kind refinement) by tauto.
  hoare_auto inv_sons.
Qed.

Lemma sons_refine_element_id_provided (id refinement : Z) (m m' : Mesh) :
  NDEBUG = false ∨ kind_provided m id refinement →
  sons_inv None m → refine_element_id id refinement m = Ok (tt, m') →
  sons_inv None m'.
Proof.
  intros Hk Hm H.
  destruct Hk as [Hk|[Hk|[Hk|(e & He & Ht)]]];
    [by eapply (sons_refine_element_id id refinement); [tauto|..|exact H]..|].
  unfold refine_element_id in H.
  destruct (decide (refinement = (-1)%Z)); [by injection H as <-|].
  apply bind_Ok in H as (ep & m1 & H1 & H). unfold get_element in H1.
  apply bind_Ok in H1 as (m0 & m0' & Hg & H1). injection Hg as <- <-.
  destruct (_ || _) in H1; [done|]. injection H1 as <- <-.
  apply bind_Ok in H as (e' & m2 & He' & H).
  apply deref_Ok in He' as [He' <-].
  destruct (negb (e_used e')); [done|].
  destruct (negb (e_active e')); [done|].
  eapply sons_refine_element_triangle; [|exact H]. eauto.
Qed.

Lemma sons_unrefine_element_internal (ep : nat) :
  hoare (sons_inv None) (unrefine_element_internal ep) (λ _, sons_inv None).
Proof. unfold unrefine_element_internal. hoare_auto inv_sons. Qed.

#[local] Hint Resolve sons_unrefine_element_internal : inv_sons.
#[local] Hint Extern 1 (hoare (sons_inv None) (refine_element_id _ _) _) =>
  apply sons_refine_element_id;
  first [tauto | unfold quad_kind; auto] : inv_sons.

Lemma sons_unrefine_element_id (fuel : nat) (id : Z) :
  hoare (sons_inv None) (unrefine_element_id fuel id) (λ _, sons_inv None).
Proof.
  revert id. induction fuel as [|fuel IH]; intros id; cbn [unrefine_element_id].
  - apply hoare_throw.
  - hoare_auto inv_sons.
Qed.

#[local] Hint Resolve sons_unrefine_element_id : inv_sons.

(** ** Loops *)

Lemma for_upto_from_app {St} (k n i : nat) (body : nat → M St unit) (s : St) :
  for_upto_from (k + n) i body s
  = (for_upto_from k i body ;; for_upto_from n (i + k) body) s.
Proof.
  revert i s. induction k as [|k IH]; intros i s.
  - cbn. msimpl. by rewrite Nat.add_0_r.
  - cbn [Nat.add for_upto_from]. msimpl.
    destruct (body i s) as [[[] s1]|e]; [|done].
    rewrite IH. msimpl. by replace (i + S k) with (S i + k) by lia.
Qed.

(** A loop whose first [k] rounds succeed and whose next round fails, fails
    with the error of that round. *)
Lemma for_upto_reaches_error {St} (n k : nat) (body : nat → M St unit)
    (s sk : St) (e : error) :
  k < n →
  for_upto k body s = Ok (tt, sk) →
  body k sk = Err e →
  for_upto n body s = Err e.
Proof.
  intros Hk Hpre Herr. unfold for_upto in *.
  replace n with (k + S (n - S k)) by lia.
  rewrite for_upto_from_app. msimpl. rewrite Hpre.
  cbn [for_upto_from Nat.add]. msimpl. by rewrite Herr.
Qed.

(** ** Regularization of curved elements *)

(** C8, as amended: when [regularize] is called with [n < 1] and the loop
    that follows the main loop comes to an element that is active and carries
    a curvature map, the call raises the general exception "Regularization of
    curved elements is not supported.", which names no element. *)
Theorem regularize_curved_exception (fuel k : nat) (n : Z)
    (m m1 mk : Mesh) (e : Element) :
  (n < 1)%Z →
  regularize_main fuel 1 m = Ok (tt, m1) →
  (Z.of_nat k < get_max_element_id m1)%Z →
  for_upto k (active_body (regularize_post_body fuel)) m1 = Ok (tt, mk) →
  elements mk !! k = Some e →
  e_used e = true → e_active e = true → is_curved e = true →
  regularize fuel n m
  = Err (Exception "Regularization of curved elements is not supported.").
Proof.
  intros Hn Hmain Hk Hpre He Hu Ha Hc. unfold regularize.
  rewrite bool_decide_eq_true_2 by done.
  rewrite (bind_Ok_l _ _ _ _ _ Hmain).
  apply bind_Err_l. unfold regularize_post. apply bind_Err_l.
  unfold for_all_active_elements.
  rewrite (bind_Ok_l get _ m1 m1 m1) by done.
  eapply for_upto_reaches_error; [|exact Hpre|].
  - lia.
  - unfold active_body, regularize_post_body. msimpl.
    rewrite He, Hu, Ha. cbn. rewrite He. by rewrite Hc.
Qed.

(** ** The son slots under regularization and construction *)

Lemma hoare_fold_upto_fact {St A} (Φ : A → Prop) (P : St → Prop) (n : nat)
    (body : nat → A → M St A) (a : A) :
  Φ a →
  (∀ j b, Φ b → hoare P (body j b) (λ b', with_fact (Φ b') P)) →
  hoare P (fold_upto n body a) (λ b, with_fact (Φ b) P).
Proof.
  intros Ha Hb. unfold fold_upto. generalize 0. revert a Ha.
  induction n as [|n IH]; intros a Ha i; cbn.
  - by apply hoare_mret_fact.
  - eapply hoare_bind; [by apply Hb|]. intros b.
    apply hoare_fact. intros Hφ. by apply IH.
Qed.

Lemma sons_elem_at_fact (ex : option nat) (p : nat) :
  hoare (sons_inv ex) (elem_at p)
    (λ e, with_fact (length (e_sons e) = 4) (sons_inv ex)).
Proof.
  intros m e m' Hm H. apply deref_Ok in H as [He <-].
  split; [|done]. by destruct (Hm p e He).
Qed.

Lemma sons_assign_parents (ex : option nat) (ep : nat) :
  hoare (sons_inv ex) (assign_parents ep) (λ _, sons_inv ex).
Proof. unfold assign_parents. hoare_auto inv_sons. Qed.

#[local] Hint Resolve sons_assign_parents : inv_sons.

Lemma sons_regularize_triangle (fuel ep : nat) :
  hoare (sons_inv None) (regularize_triangle fuel ep) (λ _, sons_inv None).
Proof. unfold regularize_triangle. hoare_auto inv_sons. Qed.

Lemma sons_regularize_quad (fuel ep : nat) :
  hoare (sons_inv None) (regularize_quad fuel ep) (λ _, sons_inv None).
Proof.
  revert ep. induction fuel as [|fuel IH]; intros ep.
  - apply hoare_throw.
  - cbn [regularize_quad]. hoare_auto inv_sons.
Qed.

#[local] Hint Resolve sons_regularize_triangle sons_regularize_quad : inv_sons.

(** The main loop asks for the kinds 0, 1 and 2 only. *)
Lemma sons_regularize_iso (fuel : nat) (e : Element) (n : Z) :
  hoare (sons_inv None) (regularize_iso fuel e n)
    (λ iso, with_fact (iso = (-1)%Z ∨ quad_kind iso) (sons_inv None)).
Proof.
  intros m iso m' Hm H. split.
  - assert (Hk : hoare (λ _, True) (regularize_iso fuel e n)
                   (λ iso _, iso = (-1)%Z ∨ quad_kind iso)).
    { unfold regularize_iso, quad_kind.
      repeat first
        [ eapply (hoare_bind _ (λ _ _, True)); [by intros ? ? ? _ _|intros ?]
        | match goal with
          | |- hoare _ (if ?b then _ else _) _ => destruct b
          end
        | intros ? ? ? _ Hr; apply mret_Ok in Hr as [<- _];
          repeat case_match; lia ]. }
    by eapply Hk.
  - by apply regularize_iso_Ok in H as [-> _].
Qed.

#[local] Hint Resolve sons_regularize_iso : inv_sons.

Lemma sons_regularize_pass (fuel : nat) (n : Z) :
  hoare (sons_inv None) (regularize_pass fuel n) (λ _, sons_inv None).
Proof. unfold regularize_pass. hoare_auto inv_sons. Qed.

#[local] Hint Resolve sons_regularize_pass : inv_sons.

Lemma sons_regularize_loop (rounds fuel : nat) (n : Z) :
  hoare (sons_inv None) (regularize_loop rounds fuel n) (λ _, sons_inv None).
Proof.
  induction rounds as [|rounds IH]; cbn [regularize_loop].
  - apply hoare_throw.
  - hoare_auto inv_sons.
Qed.

#[local] Hint Resolve sons_regularize_loop : inv_sons.

(** [flatten] keeps the active elements only. *)
Lemma sons_flatten : hoare (sons_inv None) flatten (λ _, sons_inv None).
Proof.
  unfold flatten. eapply hoare_bind; [apply hoare_get|intros m0].
  eapply hoare_bind.
  - apply (hoare_fold_upto_fact
             (λ acc : gmap nat nat * list Element,
                Forall (λ e, length (e_sons e) = 4 ∧ e_active e = true) acc.2));
      [by constructor|].
    intros id acc Hacc.
    eapply hoare_bind; [apply sons_elem_at_fact|intros e].
    apply hoare_fact. intros Hl.
    destruct (e_used e && e_active e) eqn:E.
    + apply andb_prop in E as [_ Ha].
      eapply hoare_bind; [unfold parents_read; hoare_auto inv_sons|intros v].
      eapply hoare_bind; [unfold parents_write; hoare_auto inv_sons|intros ?].
      apply hoare_mret_fact. cbn. apply Forall_app. split; [done|].
      by repeat constructor.
    + by apply hoare_mret_fact.
  - intros acc. apply hoare_fact. intros Hacc.
    eapply (hoare_bind _ (λ _, sons_inv None));
      [|intros ?; hoare_auto inv_sons].
    apply hoare_modify. intros m _ id e He. cbn in He.
    destruct (proj1 (Forall_lookup _ _) Hacc id e He) as [Hl Ha].
    split; [done|]. intros _ _ Hi. congruence.
Qed.

#[local] Hint Resolve sons_flatten : inv_sons.

Lemma sons_regularize (fuel : nat) (n : Z) :
  hoare (sons_inv None) (regularize fuel n) (λ _, sons_inv None).
Proof.
  unfold regularize, regularize_main, regularize_post,
    for_all_active_elements, active_body, regularize_post_body.
  hoare_auto inv_sons.
Qed.

Lemma sons_insert_element_marker (ex : option nat) (name : string) :
  hoare (sons_inv ex) (insert_element_marker name) (λ _, sons_inv ex).
Proof.
  intros m k m' Hm H. unfold insert_element_marker in H. msimpl_in H.
  by injection H as _ <-.
Qed.

Lemma sons_insert_boundary_marker (ex : option nat) (name : string) :
  hoare (sons_inv ex) (insert_boundary_marker name) (λ _, sons_inv ex).
Proof.
  intros m k m' Hm H. unfold insert_boundary_marker in H. msimpl_in H.
  by injection H as _ <-.
Qed.

#[local] Hint Resolve sons_insert_element_marker sons_insert_boundary_marker
  : inv_sons.

Lemma sons_free : hoare (λ _, True) free (λ _, sons_inv None).
Proof.
  intros m a m' _ H. unfold free, modify in H. injection H as _ <-.
  intros id e He. done.
Qed.

Lemma sons_create verts tris tri_markers quads quad_markers mark
    boundary_markers :
  hoare (λ _, True)
    (create verts tris tri_markers quads quad_markers mark boundary_markers)
    (λ _, sons_inv None).
Proof.
  unfold create. eapply hoare_bind; [apply sons_free|intros ?].
  hoare_auto inv_sons.
Qed.

Lemma reachable_sons_inv (m : Mesh) : reachable m → sons_inv None m.
Proof.
  induction 1 as [m0 ? ? ? ? ? ? ? m H|m id r m' _ IH Hk H
                 |m fuel id m' _ IH H|m fuel n par m' _ IH H].
  - by eapply sons_create; [|exact H].
  - by eapply sons_refine_element_id_provided; [..|exact H].
  - by eapply sons_unrefine_element_id; [|exact H].
  - by eapply sons_regularize; [|exact H].
Qed.


(** ** The footprint of a refinement *)

Create HintDb inv_grows discriminated.

Lemma grows_refl (m : Mesh) (ep : nat) :
  used_in m ep → grows false 0 m ep [] m.
Proof.
  intros Hep. split; [done|done| | | | |lia].
  - intros j e He Hu. eauto.
  - done.
  - intros j e1 He Hu Hn. destruct Hn. by exists e1.
  - intros j Hj. by apply elem_of_nil in Hj.
Qed.

Lemma grows_ext (d : bool) (c : Z) (m : Mesh) (ep : nat) (F : list nat)
    (cur cur' : Mesh) :
  elements cur' = elements cur → parents cur' = parents cur →
  parents_size cur' = parents_size cur → nactive cur' = nactive cur →
  grows d c m ep F cur → grows d c m ep F cur'.
Proof.
  intros He Hp Hs Hn [G1 G2 G3 G4 G5 G6 G7].
  split; unfold used_in in *; rewrite ?He, ?Hp, ?Hs, ?Hn; done.
Qed.

Lemma grows_liftH {A} d k m ep F (c : M HashTable A) :
  hoare (grows d k m ep F) (liftH c) (λ _, grows d k m ep F).
Proof.
  intros cur a cur' Hm H. unfold liftH in H.
  destruct (c (ht cur)) as [[b h]|]; [|done]. injection H as _ <-.
  by eapply grows_ext; [..|exact Hm].
Qed.

Lemma grows_modify d c m ep F (f : Mesh → Mesh) :
  (∀ x, elements (f x) = elements x) → (∀ x, parents (f x) = parents x) →
  (∀ x, parents_size (f x) = parents_size x) →
  (∀ x, nactive (f x) = nactive x) →
  hoare (grows d c m ep F) (modify f) (λ _, grows d c m ep F).
Proof.
  intros H1 H2 H3 H4. apply hoare_modify. intros cur.
  by apply grows_ext.
Qed.

Lemma grows_add_nactive d c m ep F (k : Z) :
  hoare (grows d c m ep F) (add_nactive k) (λ _, grows d (c + k) m ep F).
Proof.
  intros cur [] cur' [G1 G2 G3 G4 G5 G6 G7] [= <-].
  split; try done. cbn. lia.
Qed.

Lemma lookup_alter_Some {A} (f : A → A) (p j : nat) (l : list A) (y : A) :
  alter f p l !! j = Some y →
  ∃ x, l !! j = Some x ∧ ((j ≠ p ∧ y = x) ∨ (j = p ∧ y = f x)).
Proof.
  destruct (decide (j = p)) as [->|Hne].
  - rewrite list_lookup_alter_eq. destruct (l !! p) as [x|]; [|done].
    intros [= <-]. eauto.
  - rewrite list_lookup_alter_ne by done. eauto.
Qed.

Lemma lookup_alter_Some_2 {A} (f : A → A) (p j : nat) (l : list A) (x : A) :
  l !! j = Some x →
  ∃ y, alter f p l !! j = Some y ∧ ((j ≠ p ∧ y = x) ∨ (j = p ∧ y = f x)).
Proof.
  intros Hx. destruct (decide (j = p)) as [->|Hne].
  - rewrite list_lookup_alter_eq, Hx. cbn. eauto.
  - rewrite list_lookup_alter_ne by done. eauto.
Qed.

Lemma grows_update_safe d c m ep F (p : nat) (f : Element → Element) :
  frame_safe f →
  hoare (grows d c m ep F) (update_elem p f) (λ _, grows d c m ep F).
Proof.
  intros Hf cur [] cur' [G1 G2 G3 G4 G5 G6 G7] H.
  apply update_elem_Ok in H as [_ ->].
  split; cbn; try done.
  - intros j e He Hu. destruct (G3 j e He Hu) as (e1 & He1 & Hu1 & Hk).
    destruct (lookup_alter_Some_2 f p j _ _ He1) as (y & Hy & [[_ ->]|[_ ->]]);
      [by eauto|].
    exists (f e1). destruct (Hf e1) as (-> & -> & ->). done.
  - intros Hd e1 He1.
    apply lookup_alter_Some in He1 as (x & Hx & [[_ ->]|[_ ->]]);
      [by eapply G4|].
    destruct (Hf x) as (_ & _ & ->). by eapply G4.
  - intros j e1 He1 Hu Hn.
    apply lookup_alter_Some in He1 as (x & Hx & [[_ ->]|[_ ->]]);
      [by eapply G5|].
    destruct (Hf x) as (Hu' & _ & ->). rewrite Hu' in Hu. by eapply G5.
  - intros j Hj. destruct (G6 j Hj) as [(e & He & Hu) Hn]. split; [|done].
    destruct (lookup_alter_Some_2 f p j _ _ He) as (y & Hy & [[_ ->]|[_ ->]]);
      [by exists e|].
    exists (f e). destruct (Hf e) as (-> & _). done.
Qed.

(** An update of [ep] itself may change its sons and deactivate it. *)
Lemma grows_update_ep (d d' : bool) c m ep F (f : Element → Element) :
  (∀ e, e_used (f e) = e_used e) →
  (d' = true → ∀ e, (d = true → e_active e = false) → e_active (f e) = false) →
  hoare (grows d c m ep F) (update_elem ep f) (λ _, grows d' c m ep F).
Proof.
  intros Hf Hd cur [] cur' [G1 G2 G3 G4 G5 G6 G7] H.
  apply update_elem_Ok in H as [_ ->].
  split; cbn; try done.
  - intros j e He Hu. destruct (G3 j e He Hu) as (e1 & He1 & Hu1 & Hk).
    destruct (lookup_alter_Some_2 f ep j _ _ He1)
      as (y & Hy & [[_ ->]|[-> ->]]); [by eauto|].
    exists (f e1). rewrite Hf. done.
  - intros Hd' e1 He1.
    apply lookup_alter_Some in He1 as (x & Hx & [[? _]|[_ ->]]); [done|].
    apply Hd; [done|]. intros Hdd. by eapply G4.
  - intros j e1 He1 Hu Hn.
    apply lookup_alter_Some in He1 as (x & Hx & [[_ ->]|[-> ->]]);
      [by eapply G5|].
    done.
  - intros j Hj. destruct (G6 j Hj) as [(e & He & Hu) Hn]. split; [|done].
    destruct (lookup_alter_Some_2 f ep j _ _ He)
      as (y & Hy & [[_ ->]|[_ ->]]); [by exists e|].
    exists (f e). by rewrite Hf.
Qed.

Lemma grows_deactivate d c m ep F :
  hoare (grows d c m ep F) (deactivate ep) (λ _, grows true c m ep F).
Proof. apply grows_update_ep; done. Qed.

Lemma grows_new_element d c m ep F (marker : Z) (nvert : nat)
    (cm : option CurvMap) :
  hoare (grows d c m ep F) (new_element marker nvert cm)
    (λ s, grows d c m ep (F ++ [s])).
Proof.
  intros cur s cur' [G1 G2 G3 G4 G5 G6 G7] H. unfold new_element in H.
  apply bind_Ok in H as (s1 & m1 & H1 & H2).
  apply bind_Ok in H2 as ([] & m2 & H2 & H3).
  apply mret_Ok in H3 as [<- <-].
  unfold mesh_elements_add in H1.
  destruct (elements_add (elements cur)) as [s2 es] eqn:E.
  injection H1 as <- <-.
  apply elements_add_spec in E as (e0 & Hs & Hold & Hother).
  apply update_elem_Ok in H2 as [_ ->]. cbn.
  assert (Hfresh : ¬ used_in cur s2).
  { intros (e & He & Hu). destruct Hold as [[Ho Hu0]|[Ho _]]; congruence. }
  assert (Hm : ¬ used_in m s2).
  { intros (e & He & Hu). destruct (G3 s2 e He Hu) as (e1 & He1 & Hu1 & _).
    apply Hfresh. by exists e1. }
  assert (Hlook : ∀ j, j ≠ s2 →
            alter (elem_init marker nvert cm) s2 es !! j = elements cur !! j).
  { intros j Hj. rewrite list_lookup_alter_ne by done. by apply Hother. }
  assert (Hs2 : alter (elem_init marker nvert cm) s2 es !! s2
                = Some (elem_init marker nvert cm (elem_set_used true e0))).
  { by rewrite list_lookup_alter_eq, Hs. }
  assert (Hne : ∀ j, used_in cur j → j ≠ s2) by (intros j Hj ->; done).
  split; cbn; try done.
  - intros j e He Hu. destruct (G3 j e He Hu) as (e1 & He1 & Hu1 & Hk).
    exists e1. rewrite Hlook; [done|]. apply Hne. by exists e1.
  - intros Hd e1. rewrite Hlook; [by apply G4|].
    destruct G2 as (e & He & Hu).
    destruct (G3 ep e He Hu) as (e2 & He2 & Hu2 & _). apply Hne. by exists e2.
  - intros j e1 He1 Hu Hn. destruct (decide (j = s2)) as [->|Hj].
    + rewrite Hs2 in He1. injection He1 as <-. split; [|done].
      apply elem_of_app. right. by apply list_elem_of_singleton.
    + rewrite Hlook in He1 by done.
      destruct (G5 j e1 He1 Hu Hn). split; [|done].
      apply elem_of_app. by left.
  - intros j Hj. apply elem_of_app in Hj as [Hj|Hj].
    + destruct (G6 j Hj) as [(e & He & Hu) Hn]. split; [|done].
      exists e. rewrite Hlook; [done|]. apply Hne. by exists e.
    + apply list_elem_of_singleton in Hj as ->.
      split; [|done]. eexists. split; [exact Hs2|done].
Qed.

Lemma elem_of_slot (l : list (option nat)) (j : nat) :
  Some j ∈ l ↔ ∃ i, slot l i = Some j.
Proof.
  rewrite list_elem_of_lookup. unfold slot. split; intros [i Hi]; exists i.
  - by rewrite Hi.
  - destruct (l !! i) as [[x|]|]; cbn in Hi; congruence.
Qed.

Lemma grows_set_sons m ep (l : list (option nat)) :
  length l = 4 →
  hoare (grows true (Z.of_nat (length (omap id l)) - 1) m ep (omap id l))
    (update_elem ep (elem_set_sons l))
    (λ _, refined m ep).
Proof.
  intros Hlen cur [] cur' HG H.
  pose proof H as H'. apply update_elem_Ok in H' as [[e He] ->].
  exists (elem_set_sons l e). split; [|split].
  - cbn. by rewrite list_lookup_alter_eq, He.
  - done.
  - eapply (grows_update_ep true true); [| |exact HG|exact H]; [done|].
    intros _ e0 He0. by apply He0.
Qed.

Lemma hoare_mret_gen {St A} (P : St → Prop) (Q : A → St → Prop) (a : A) :
  (∀ s, P s → Q a s) → hoare P (mret a) Q.
Proof. intros HPQ s b s' HP H. apply mret_Ok in H as [<- <-]. auto. Qed.

Lemma elem_of_omap_id (l : list (option nat)) (j : nat) :
  j ∈ omap id l ↔ Some j ∈ l.
Proof.
  rewrite list_elem_of_omap. split.
  - intros (x & Hx & Hj). cbn in Hj. by subst.
  - intros Hj. by exists (Some j).
Qed.

Set Warnings "-clear-no-such-hyp".

Ltac solve_frame_safe :=
  intros ?; repeat apply conj; reflexivity.

#[local] Hint Resolve grows_liftH grows_new_element grows_deactivate
  grows_add_nactive : inv_grows.
#[local] Hint Extern 1 (hoare (grows _ _ _ _ _) (modify _) _) =>
  apply grows_modify; intros; reflexivity : inv_grows.
#[local] Hint Extern 2 (hoare (grows _ _ _ _ _) (update_elem _ _) _) =>
  apply grows_update_safe; solve_frame_safe : inv_grows.
#[local] Hint Extern 3
    (hoare (grows true _ _ ?p _) (update_elem ?p (elem_set_sons ?l)) _) =>
  eapply hoare_conseq;
    [ eapply (grows_set_sons _ _ l); first [reflexivity|assumption]
    | intros ? HG; exact HG
    | intros ? ? HG; exact HG ] : inv_grows.

Lemma grows_create_triangle d c m ep F (marker : Z)
    (v0 v1 v2 : option nat) (cm : option CurvMap) :
  hoare (grows d c m ep F) (create_triangle marker v0 v1 v2 cm)
    (λ s, grows d c m ep (F ++ [s])).
Proof.
  unfold create_triangle.
  repeat first [ hoare_step inv_grows
               | apply hoare_mret_gen; intros ? HG; exact HG ].
Qed.

Lemma grows_create_quad d c m ep F (marker : Z)
    (v0 v1 v2 v3 : option nat) (cm : option CurvMap) :
  hoare (grows d c m ep F) (create_quad marker v0 v1 v2 v3 cm)
    (λ s, grows d c m ep (F ++ [s])).
Proof.
  unfold create_quad.
  repeat first [ hoare_step inv_grows
               | apply hoare_mret_gen; intros ? HG; exact HG ].
Qed.

#[local] Hint Resolve grows_create_triangle grows_create_quad : inv_grows.

Lemma grows_refine_triangle_to_triangles m ep :
  hoare (grows false 0 m ep []) (refine_triangle_to_triangles ep)
    (λ _, refined m ep).
Proof. unfold refine_triangle_to_triangles. hoare_auto inv_grows. Qed.

Lemma grows_refine_quad m ep (refinement : Z) :
  hoare (grows false 0 m ep []) (refine_quad ep refinement)
    (λ _, refined m ep).
Proof.
  unfold refine_quad.
  repeat first
    [ lazymatch goal with
      | |- hoare _ (?f (if decide (refinement = 0%Z) then _ else _)) _ =>
          eapply (hoare_bind _
            (λ sons, with_fact (length sons = 4)
                       (grows true (Z.of_nat (length (omap id sons)) - 1)
                          m ep (omap id sons)))); [|intros ?]
      end
    | hoare_step inv_grows
    | apply hoare_mret_gen; intros ? HG; split; [reflexivity|exact HG] ].
Qed.

Lemma refined_deactivated m ep cur : refined m ep cur → deactivated m ep cur.
Proof. intros (e1 & _ & _ & HG). by eexists _, _. Qed.

Lemma refined_update_safe m ep (p : nat) (f : Element → Element) :
  frame_safe f →
  hoare (refined m ep) (update_elem p f) (λ _, refined m ep).
Proof.
  intros Hf cur [] cur' (e1 & He1 & Hl & HG) H.
  pose proof (grows_update_safe _ _ _ _ _ p f Hf cur tt cur' HG H) as HG'.
  apply update_elem_Ok in H as [_ ->].
  destruct (lookup_alter_Some_2 f p ep _ _ He1) as (y & Hy & Hcase).
  exists y. split; [done|].
  destruct Hcase as [[_ ->]|[_ ->]]; [done|].
  destruct (Hf e1) as (_ & -> & _). done.
Qed.

Lemma refined_modify m ep (f : Mesh → Mesh) :
  (∀ x, elements (f x) = elements x) → (∀ x, parents (f x) = parents x) →
  (∀ x, parents_size (f x) = parents_size x) →
  (∀ x, nactive (f x) = nactive x) →
  hoare (refined m ep) (modify f) (λ _, refined m ep).
Proof.
  intros H1 H2 H3 H4. apply hoare_modify.
  intros cur (e1 & He1 & Hl & HG). exists e1. rewrite H1.
  split; [done|]. split; [done|]. by eapply grows_ext; [..|exact HG].
Qed.

Lemma deactivated_update_safe m ep (p : nat) (f : Element → Element) :
  frame_safe f →
  hoare (deactivated m ep) (update_elem p f) (λ _, deactivated m ep).
Proof.
  intros Hf cur [] cur' (c & F & HG) H. exists c, F.
  by eapply grows_update_safe; [| |exact H].
Qed.

Lemma deactivated_modify m ep (f : Mesh → Mesh) :
  (∀ x, elements (f x) = elements x) → (∀ x, parents (f x) = parents x) →
  (∀ x, parents_size (f x) = parents_size x) →
  hoare (deactivated m ep) (modify f) (λ _, deactivated m ep).
Proof.
  intros H1 H2 H3 cur [] cur' (c & F & [G1 G2 G3 G4 G5 G6 G7]) [= <-].
  exists (nactive (f cur) - nactive m)%Z, F.
  split; unfold used_in in *; rewrite ?H1, ?H2, ?H3; try done. lia.
Qed.

#[local] Hint Extern 1 (hoare (refined _ _) (modify _) _) =>
  apply refined_modify; intros; reflexivity : inv_grows.
#[local] Hint Extern 2 (hoare (refined _ _) (update_elem _ _) _) =>
  apply refined_update_safe; solve_frame_safe : inv_grows.
#[local] Hint Extern 1 (hoare (deactivated _ _) (modify _) _) =>
  apply deactivated_modify; intros; reflexivity : inv_grows.
#[local] Hint Extern 2 (hoare (deactivated _ _) (update_elem _ _) _) =>
  apply deactivated_update_safe; solve_frame_safe : inv_grows.
#[local] Hint Resolve grows_refine_triangle_to_triangles grows_refine_quad
  : inv_grows.

Lemma grows_refine_triangle_to_quads m ep :
  hoare (grows false 0 m ep []) (refine_triangle_to_quads ep)
    (λ _, deactivated m ep).
Proof.
  unfold refine_triangle_to_quads.
  repeat first
    [ hoare_step inv_grows
    | eapply hoare_conseq;
        [apply (grows_update_ep true true);
           [done|intros _ ? Ha; by apply Ha]
        |intros ? HG; exact HG
        |intros ? ? HG; eexists _, _; exact HG] ].
Qed.

Lemma grows_refine_element m ep (refinement : Z) :
  refinement ≠ 3%Z →
  hoare (grows false 0 m ep []) (refine_element ep refinement)
    (λ _, refined m ep).
Proof.
  intros Hr. unfold refine_element.
  repeat first [ done | hoare_step inv_grows ].
Qed.

Lemma grows_refine_element_any m ep (refinement : Z) :
  hoare (grows false 0 m ep []) (refine_element ep refinement)
    (λ _, deactivated m ep).
Proof.
  unfold refine_element.
  eapply hoare_bind; [hoare_auto inv_grows|intros ?].
  eapply hoare_bind; [hoare_auto inv_grows|intros e].
  eapply (hoare_bind _ (λ _, deactivated m ep)).
  - destruct (is_triangle e); [destruct (decide (refinement = 3%Z))|].
    + apply grows_refine_triangle_to_quads.
    + eapply hoare_conseq; [apply grows_refine_triangle_to_triangles|done|].
      intros ? ?. apply refined_deactivated.
    + eapply hoare_conseq; [apply grows_refine_quad|done|].
      intros ? ?. apply refined_deactivated.
  - intros ?. hoare_auto inv_grows.
Qed.

(** The run of [refine_element_id] on a kind other than -1: the checks
    passed, and [refine_element] ran on the slot of the id. *)
Lemma refine_element_id_Ok (id refinement : Z) (m m' : Mesh) :
  refinement ≠ (-1)%Z → refine_element_id id refinement m = Ok (tt, m') →
  (0 ≤ id)%Z ∧ used_active m (Z.to_nat id)
  ∧ refine_element (Z.to_nat id) refinement m = Ok (tt, m').
Proof.
  intros Hr H. unfold refine_element_id in H.
  destruct (decide (refinement = (-1)%Z)); [done|].
  apply bind_Ok in H as (ep & m1 & H1 & H2).
  assert (0 ≤ id < Z.of_nat (length (elements m)))%Z as Hid.
  { destruct (decide (0 ≤ id < Z.of_nat (length (elements m)))%Z); [done|].
    rewrite get_element_out_of_range in H1 by lia. done. }
  rewrite get_element_in_range in H1 by done. injection H1 as <- <-.
  apply bind_Ok in H2 as (e & m2 & H2 & H3).
  apply deref_Ok in H2 as [He <-].
  destruct (e_used e) eqn:Hu; [|done].
  destruct (e_active e) eqn:Ha; [|done].
  cbn in H3. split; [lia|]. split; [by exists e|done].
Qed.

(** ** The counters under refinement *)

Create HintDb inv_counters discriminated.

Lemma counters_ext k l s g (cur cur' : Mesh) :
  nactive cur' = nactive cur → refinements cur' = refinements cur →
  seq cur' = seq cur → g_mesh_seq cur' = g_mesh_seq cur →
  counters_are k l s g cur → counters_are k l s g cur'.
Proof. unfold counters_are. by intros -> -> -> ->. Qed.

Lemma counters_liftH {A} k l s g (c : M HashTable A) :
  hoare (counters_are k l s g) (liftH c) (λ _, counters_are k l s g).
Proof.
  intros cur a cur' Hm H. unfold liftH in H.
  destruct (c (ht cur)) as [[b h]|]; [|done]. by injection H as _ <-.
Qed.

Lemma counters_update_elem k l s g (p : nat) (f : Element → Element) :
  hoare (counters_are k l s g) (update_elem p f) (λ _, counters_are k l s g).
Proof.
  intros cur [] cur' Hm H. by apply update_elem_Ok in H as [_ ->].
Qed.

Lemma counters_new_element k l s g (marker : Z) (nvert : nat)
    (cm : option CurvMap) :
  hoare (counters_are k l s g) (new_element marker nvert cm)
    (λ _, counters_are k l s g).
Proof.
  intros cur a cur' Hm H. unfold new_element in H.
  apply bind_Ok in H as (s1 & m1 & H1 & H2).
  apply bind_Ok in H2 as ([] & m2 & H2 & H3).
  apply mret_Ok in H3 as [<- <-].
  unfold mesh_elements_add in H1.
  destruct (elements_add (elements cur)) as [s2 es].
  injection H1 as <- <-. by apply update_elem_Ok in H2 as [_ ->].
Qed.

Lemma counters_modify k l s g (f : Mesh → Mesh) :
  (∀ x, nactive (f x) = nactive x) →
  (∀ x, refinements (f x) = refinements x) →
  (∀ x, seq (f x) = seq x) → (∀ x, g_mesh_seq (f x) = g_mesh_seq x) →
  hoare (counters_are k l s g) (modify f) (λ _, counters_are k l s g).
Proof.
  intros H1 H2 H3 H4. apply hoare_modify. intros cur.
  by apply counters_ext.
Qed.

Lemma counters_add_nactive k l s g (d : Z) :
  hoare (counters_are k l s g) (add_nactive d)
    (λ _, counters_are (k + d) l s g).
Proof.
  intros cur [] cur' (<- & Hl & Hs & Hg) [= <-]. done.
Qed.

Lemma counters_log_refinement k l s g (ep : nat) (r : Z) :
  hoare (counters_are k l s g) (log_refinement ep r)
    (λ _, counters_are k (l ++ [(Z.of_nat ep, r)]) s g).
Proof.
  intros cur [] cur' (Hk & <- & Hs & Hg) [= <-]. done.
Qed.

Lemma counters_bump_seq k l s g :
  hoare (counters_are k l s g) (modify bump_seq)
    (λ _, counters_are k l (g mod 2 ^ 32) ((g + 1) mod 2 ^ 32)).
Proof.
  intros cur [] cur' (Hk & Hl & Hs & <-) [= <-]. done.
Qed.

#[local] Hint Resolve counters_liftH counters_update_elem counters_new_element
  counters_add_nactive counters_log_refinement counters_bump_seq
  : inv_counters.
#[local] Hint Extern 5 (hoare (counters_are _ _ _ _) (modify _) _) =>
  apply counters_modify; intros; reflexivity : inv_counters.

Lemma counters_refine_triangle_to_triangles k l s g (ep : nat) :
  hoare (counters_are k l s g) (refine_triangle_to_triangles ep)
    (λ _, counters_are (k + 3) l s g).
Proof. unfold refine_triangle_to_triangles. hoare_auto inv_counters. Qed.

Lemma counters_refine_triangle_to_quads k l s g (ep : nat) :
  hoare (counters_are k l s g) (refine_triangle_to_quads ep)
    (λ _, counters_are (k + 2) l s g).
Proof. unfold refine_triangle_to_quads. hoare_auto inv_counters. Qed.

Lemma counters_refine_quad k l s g (ep : nat) (refinement : Z) :
  hoare (counters_are k l s g) (refine_quad ep refinement)
    (λ _, counters_are
            (k + (if decide (refinement = 0%Z) then 3
                  else if decide (refinement = 1%Z ∨ refinement = 2%Z) then 1
                  else -1)) l s g).
Proof.
  unfold refine_quad.
  repeat first
    [ lazymatch goal with
      | |- hoare _ (?f (if decide (refinement = 0%Z) then _ else _)) _ =>
          eapply (hoare_bind _
            (λ _, counters_are
                    (k + (if decide (refinement = 0%Z) then 3
                          else if decide (refinement = 1%Z ∨ refinement = 2%Z)
                               then 1
                          else -1))
                    l s g)); [|intros ?]
      end
    | hoare_step inv_counters
    | apply hoare_mret_gen; intros ? HG;
      repeat match goal with
             | |- context [decide ?P] => destruct (decide P); try done
             end;
      destruct HG as (HG & ?); (split; [lia|done]) ].
Qed.

Lemma refine_element_counters (ep : nat) (refinement : Z) (m m' : Mesh) :
  refine_element ep refinement m = Ok (tt, m') →
  ∃ e, elements m !! ep = Some e
       ∧ counters_are (nactive m + active_gain e refinement)
           (refinements m ++ [(Z.of_nat ep, refinement)])
           (g_mesh_seq m mod 2 ^ 32) ((g_mesh_seq m + 1) mod 2 ^ 32) m'.
Proof.
  intros H. unfold refine_element in H.
  apply bind_Ok in H as ([] & m1 & H1 & H).
  apply bind_Ok in H as (e & m1' & He & H).
  apply deref_Ok in He as [He <-].
  apply bind_Ok in H as ([] & m2 & H2 & H).
  apply bind_Ok in H as ([] & m3 & H3 & H4).
  exists e. split.
  { injection H1 as <-. exact He. }
  eapply counters_bump_seq; [|exact H4].
  assert (Hloop : hoare
            (counters_are (nactive m + active_gain e refinement)
               (refinements m ++ [(Z.of_nat ep, refinement)])
               (seq m) (g_mesh_seq m))
            (for_upto 4 (λ i,
               e ← elem_at ep;
               match slot (e_sons e) i with
               | Some s => update_elem s (elem_set_iro_cache (e_iro_cache e))
               | None => mret tt
               end))
            (λ _, counters_are (nactive m + active_gain e refinement)
               (refinements m ++ [(Z.of_nat ep, refinement)])
               (seq m) (g_mesh_seq m))) by hoare_auto inv_counters.
  eapply Hloop; [|exact H3].
  pose proof (counters_log_refinement (nactive m) (refinements m) (seq m)
                (g_mesh_seq m) ep refinement m tt m1) as Hlog.
  specialize (Hlog (conj eq_refl (conj eq_refl (conj eq_refl eq_refl))) H1).
  unfold active_gain. destruct (is_triangle e).
  - destruct (decide (refinement = 3%Z)).
    + by eapply counters_refine_triangle_to_quads; [|exact H2].
    + by eapply counters_refine_triangle_to_triangles; [|exact H2].
  - by eapply counters_refine_quad; [|exact H2].
Qed.

(** A successful refinement changes the number of active elements by the
    number of sons less one; [get_num_active_elements] returns the new
    number. *)
Theorem refine_element_id_active_count (id refinement : Z) (m m' : Mesh) :
  refinement ≠ (-1)%Z → refine_element_id id refinement m = Ok (tt, m') →
  ∃ e, elements m !! Z.to_nat id = Some e
       ∧ nactive m' = (nactive m + active_gain e refinement)%Z
       ∧ get_num_active_elements m' = nactive m'.
Proof.
  intros Hr H. apply refine_element_id_Ok in H as (Hid & _ & H); [|done].
  apply refine_element_counters in H as (e & He & Hk & _ & Hs & _).
  exists e. split; [done|]. split; [done|].
  unfold get_num_active_elements. rewrite Hs.
  destruct (Z.ltb_spec (g_mesh_seq m mod 2 ^ 32) 0) as [Hlt|]; [|done].
  pose proof (Z.mod_pos_bound (g_mesh_seq m) (2 ^ 32)). lia.
Qed.

(** A successful refinement appends the id and the kind to the refinement
    log, and gives the mesh the next sequence number of the global
    counter. *)
Theorem refine_element_id_log_seq (id refinement : Z) (m m' : Mesh) :
  refinement ≠ (-1)%Z → refine_element_id id refinement m = Ok (tt, m') →
  refinements m' = refinements m ++ [(id, refinement)]
  ∧ seq m' = (g_mesh_seq m mod 2 ^ 32)%Z
  ∧ g_mesh_seq m' = ((g_mesh_seq m + 1) mod 2 ^ 32)%Z.
Proof.
  intros Hr H. apply refine_element_id_Ok in H as (Hid & _ & H); [|done].
  apply refine_element_counters in H as (e & He & _ & Hl & Hs & Hg).
  rewrite Z2Nat.id in Hl by done. done.
Qed.

(** The footprint of a successful refinement of a kind other than -1 and 3:
    the parent array is untouched; every element is still there, and but for
    the refined one it has the sons and the activity it had; the refined
    element is inactive, and its sons are exactly the elements that were not
    there before; they are active. *)
Theorem refine_element_id_footprint (id refinement : Z) (m m' : Mesh) :
  refinement ≠ (-1)%Z → refinement ≠ 3%Z →
  refine_element_id id refinement m = Ok (tt, m') →
  parents m' = parents m
  ∧ (∀ j, used_in m j → used_in m' j)
  ∧ (∀ j e e', j ≠ Z.to_nat id → elements m !! j = Some e →
       e_used e = true → elements m' !! j = Some e' →
       e_sons e' = e_sons e ∧ e_active e' = e_active e)
  ∧ (∀ j, used_in m' j → ¬ used_in m j → used_active m' j)
  ∧ ∃ e', elements m' !! Z.to_nat id = Some e'
          ∧ e_used e' = true ∧ e_active e' = false
          ∧ ∀ j, (∃ i, slot (e_sons e') i = Some j)
                 ↔ (used_in m' j ∧ ¬ used_in m j).
Proof.
  intros Hr H3 H. apply refine_element_id_Ok in H as (Hid & Hua & H); [|done].
  assert (Hu : used_in m (Z.to_nat id)).
  { destruct Hua as (e & He & Hu & _). by exists e. }
  pose proof (grows_refine_element m (Z.to_nat id) refinement H3 m tt m'
                (grows_refl m _ Hu) H) as (e1 & He1 & _ & HG).
  assert (HF : ∀ j, j ∈ omap Datatypes.id (e_sons e1)
                    ↔ ∃ i, slot (e_sons e1) i = Some j).
  { intros j. rewrite elem_of_omap_id. apply elem_of_slot. }
  destruct HG as [[G1 _] G2 G3 G4 G5 G6 _].
  split; [done|]. split.
  { intros j (e & He & Hue). destruct (G3 j e He Hue) as (e' & He' & Hu' & _).
    by exists e'. }
  split.
  { intros j e e' Hj He Hue He'.
    destruct (G3 j e He Hue) as (e2 & He2 & _ & Hk).
    rewrite He' in He2. injection He2 as <-. by apply Hk. }
  split.
  { intros j (e & He & Hue) Hn. destruct (G5 j e He Hue Hn) as [_ Ha].
    by exists e. }
  exists e1. split; [done|].
  destruct Hu as (e & He & Hue).
  destruct (G3 _ e He Hue) as (e2 & He2 & Hu2 & _).
  rewrite He1 in He2. injection He2 as <-.
  split; [done|]. split; [by eapply G4|].
  intros j. rewrite <- HF. split; [apply G6|].
  intros [(e' & He' & Hu') Hn]. by destruct (G5 j e' He' Hu' Hn).
Qed.

Lemma refine_element_id_inactive (id refinement : Z) (m : Mesh) (e : Element) :
  refinement ≠ (-1)%Z → (0 ≤ id)%Z → elements m !! Z.to_nat id = Some e →
  e_used e = true → e_active e = false →
  refine_element_id id refinement m
  = Err (Exception
      "Attempt to refine element #%d which has been refined already.").
Proof.
  intros Hr Hid He Hu Ha. unfold refine_element_id.
  destruct (decide (refinement = (-1)%Z)); [done|].
  apply lookup_lt_Some in He as Hlt.
  unfold mbind, M_bind. rewrite get_element_in_range by lia.
  unfold elem_at. rewrite He. cbn. by rewrite Hu, Ha.
Qed.

(** An element cannot be refined twice: after a successful refinement of
    any kind but -1, every further refinement of the same id, of any kind
    but -1, raises the exception of the refined elements and leaves the mesh
    as it is. *)
Theorem refine_element_id_twice (id r r' : Z) (m m' : Mesh) :
  r ≠ (-1)%Z → r' ≠ (-1)%Z → refine_element_id id r m = Ok (tt, m') →
  refine_element_id id r' m'
  = Err (Exception
      "Attempt to refine element #%d which has been refined already.").
Proof.
  intros Hr Hr' H. apply refine_element_id_Ok in H as (Hid & Hua & H); [|done].
  assert (Hu : used_in m (Z.to_nat id)).
  { destruct Hua as (e & He & Hu & _). by exists e. }
  pose proof (grows_refine_element_any m (Z.to_nat id) r m tt m'
                (grows_refl m _ Hu) H) as (c & F & HG).
  destruct HG as [_ G2 G3 G4 _ _ _].
  destruct Hu as (e & He & Hue).
  destruct (G3 _ e He Hue) as (e2 & He2 & Hu2 & _).
  apply (refine_element_id_inactive id r' m' e2); try done.
  by eapply G4.
Qed.

(** ** The marker tables *)

Lemma empty_markers_wf : markers_wf empty_markers.
Proof. split; [|split]; [intros k s; split| |]; cbn; try done; lia. Qed.

Lemma insert_marker_wf_aux (s : string) (c : MarkersConversion) :
  markers_wf c → markers_wf (insert_marker s c).2.
Proof.
  intros (Hinv & Hb & H1). unfold insert_marker.
  destruct (conversion_table_inverse c !! s) as [k|] eqn:E; [done|].
  split; [|split]; cbn.
  - intros k s'. destruct (decide (k = min_marker_unused c)) as [->|Hk].
    + rewrite lookup_insert_eq. destruct (decide (s' = s)) as [->|Hs].
      * rewrite lookup_insert_eq. done.
      * rewrite lookup_insert_ne by done. split; [congruence|].
        intros Hs'. apply Hinv, Hb in Hs'. lia.
    + rewrite lookup_insert_ne by done.
      destruct (decide (s' = s)) as [->|Hs].
      * rewrite lookup_insert_eq. split; [|congruence].
        intros Hs'. apply Hinv in Hs'. congruence.
      * rewrite lookup_insert_ne by done. apply Hinv.
  - intros k s'. destruct (decide (k = min_marker_unused c)) as [->|Hk].
    + intros _. lia.
    + rewrite lookup_insert_ne by done. intros Hs'. apply Hb in Hs'. lia.
  - lia.
Qed.

(** [insert_marker] keeps the tables inverse to each other and the numbers
    below the next unused one, and it never renumbers: every name and every
    number known before the call translates as before. (The second
    hypothesis keeps the counter of the numbers, an [int], from
    overflowing.) *)
Theorem insert_marker_keeps_tables (s : string) (c : MarkersConversion) :
  markers_wf c → (min_marker_unused c < 2 ^ 31 - 1)%Z →
  markers_wf (insert_marker s c).2
  ∧ (∀ s', s' ≠ s →
       get_internal_marker s' (insert_marker s c).2 = get_internal_marker s' c)
  ∧ (∀ k s', conversion_table c !! k = Some s' →
       get_user_marker k (insert_marker s c).2 = get_user_marker k c).
Proof.
  intros Hwf _. split; [by apply insert_marker_wf_aux|].
  destruct Hwf as (Hinv & Hb & H1). unfold insert_marker.
  destruct (conversion_table_inverse c !! s) as [k|] eqn:E; [done|].
  split; cbn.
  - intros s' Hs'. unfold get_internal_marker. cbn.
    by rewrite lookup_insert_ne.
  - intros k s' Hk. unfold get_user_marker. cbn.
    rewrite lookup_insert_ne; [done|]. apply Hb in Hk. lia.
Qed.

(** The round trip of a marker: the number [insert_marker] returns for a
    name other than the reserved one translates back to the name, and the
    name translates to the number. *)
Theorem insert_marker_round_trip (s : string) (c : MarkersConversion) :
  markers_wf c → (min_marker_unused c < 2 ^ 31 - 1)%Z →
  s ≠ H2D_DG_INNER_EDGE →
  get_internal_marker s (insert_marker s c).2 = ((insert_marker s c).1, true)
  ∧ get_user_marker (insert_marker s c).1 (insert_marker s c).2 = (s, true).
Proof.
  intros (Hinv & Hb & H1) _ Hs. unfold insert_marker.
  destruct (conversion_table_inverse c !! s) as [k|] eqn:E; cbn.
  - unfold get_internal_marker, get_user_marker.
    destruct (decide (s = H2D_DG_INNER_EDGE)); [done|]. rewrite E.
    split; [done|]. apply Hinv in E. pose proof (Hb _ _ E) as Hk.
    destruct (decide (k = H2D_DG_INNER_EDGE_INT)) as [->|_];
      [unfold H2D_DG_INNER_EDGE_INT in Hk; lia|].
    by rewrite E.
  - unfold get_internal_marker, get_user_marker. cbn.
    destruct (decide (s = H2D_DG_INNER_EDGE)); [done|].
    rewrite !lookup_insert_eq. split; [done|].
    destruct (decide (min_marker_unused c = H2D_DG_INNER_EDGE_INT)) as [Hm|_];
      [unfold H2D_DG_INNER_EDGE_INT in Hm; lia|done].
Qed.

(** Two names get the same number only when they are the same name. *)
Theorem insert_marker_injective (s1 s2 : string) (c : MarkersConversion) :
  markers_wf c → (min_marker_unused c < 2 ^ 31 - 2)%Z →
  (insert_marker s2 (insert_marker s1 c).2).1 = (insert_marker s1 c).1 →
  s1 = s2.
Proof.
  intros Hwf _. pose proof (insert_marker_wf_aux s1 c Hwf) as Hwf'.
  destruct (decide (s1 = s2)) as [|Hne]; [done|]. intros Heq. exfalso.
  assert (H1 : conversion_table (insert_marker s1 c).2
               !! (insert_marker s1 c).1 = Some s1).
  { destruct Hwf as (Hinv & Hb & Hm). unfold insert_marker.
    destruct (conversion_table_inverse c !! s1) as [k|] eqn:E; cbn.
    - by apply Hinv.
    - by rewrite lookup_insert_eq. }
  revert Heq H1. generalize (insert_marker s1 c).1.
  destruct Hwf' as (Hinv & Hb & Hm). revert Hinv Hb Hm.
  generalize (insert_marker s1 c).2. intros c' Hinv Hb Hm k Heq H1.
  unfold insert_marker in Heq.
  destruct (conversion_table_inverse c' !! s2) as [k2|] eqn:E; cbn in Heq.
  - subst k2. apply Hinv in E. congruence.
  - apply Hb in H1. lia.
Qed.

(** The reserved name of the inner edges makes no round trip: the tables give
    it a number of their own, but the name always translates to the reserved
    number. *)
Theorem insert_marker_reserved_name (c : MarkersConversion) :
  markers_wf c → (min_marker_unused c < 2 ^ 31 - 1)%Z →
  get_internal_marker H2D_DG_INNER_EDGE (insert_marker H2D_DG_INNER_EDGE c).2
    = (H2D_DG_INNER_EDGE_INT, true)
  ∧ (insert_marker H2D_DG_INNER_EDGE c).1 ≠ H2D_DG_INNER_EDGE_INT.
Proof.
  intros (Hinv & Hb & H1) _. split; [done|]. unfold insert_marker.
  destruct (conversion_table_inverse c !! H2D_DG_INNER_EDGE) as [k|] eqn:E;
    cbn.
  - apply Hinv, Hb in E. unfold H2D_DG_INNER_EDGE_INT. lia.
  - unfold H2D_DG_INNER_EDGE_INT. lia.
Qed.

(** ** Derefinement of a leaf, and the range of the edge degree *)

(** The edge cases of [unrefine_element_id]: an id outside the element array
    and an unused element raise the exceptions of [get_element] and of the
    invalid ids; an active element is left alone, and the mesh does not even
    get a new sequence number. *)
Theorem unrefine_element_id_edge_cases (fuel : nat) (id : Z) (m : Mesh) :
  ((id < 0 ∨ Z.of_nat (length (elements m)) ≤ id)%Z →
     unrefine_element_id (S fuel) id m
     = Err (Exception "Invalid element ID %d, current range:[0; %d]"))
  ∧ (∀ e, (0 ≤ id)%Z → elements m !! Z.to_nat id = Some e →
       e_used e = false →
       unrefine_element_id (S fuel) id m
       = Err (Exception "Invalid element id number."))
  ∧ (∀ e, (0 ≤ id)%Z → elements m !! Z.to_nat id = Some e →
       e_used e = true → e_active e = true →
       unrefine_element_id (S fuel) id m = Ok (tt, m)).
Proof.
  split; [|split].
  - intros Hid. cbn [unrefine_element_id]. unfold mbind, M_bind.
    by rewrite get_element_out_of_range.
  - intros e Hid He Hu. cbn [unrefine_element_id]. unfold mbind, M_bind.
    apply lookup_lt_Some in He as Hlt.
    rewrite get_element_in_range by lia. unfold elem_at. rewrite He. cbn.
    by rewrite Hu.
  - intros e Hid He Hu Ha. cbn [unrefine_element_id]. unfold mbind, M_bind.
    apply lookup_lt_Some in He as Hlt.
    rewrite get_element_in_range by lia. unfold elem_at. rewrite He. cbn.
    by rewrite Hu, Ha.
Qed.

(** [get_edge_degree] is never negative, it is below the depth that the
    recursion was allowed, and a larger allowance gives the same degree. *)
Theorem get_edge_degree_range (fuel fuel' : nat) (h : HashTable)
    (v1 v2 : nat) (d : Z) :
  get_edge_degree fuel h v1 v2 = Some d → fuel ≤ fuel' →
  (0 ≤ d < Z.of_nat fuel)%Z ∧ get_edge_degree fuel' h v1 v2 = Some d.
Proof.
  revert fuel' v1 v2 d. induction fuel as [|fuel IH]; intros fuel' v1 v2 d H Hle.
  { done. }
  destruct fuel' as [|fuel']; [lia|]. cbn [get_edge_degree] in *.
  destruct (peek_vertex_node (node_id v1) (node_id v2) h) as [v3|].
  - destruct (get_edge_degree fuel h v1 v3) as [d1|] eqn:E1; [|done].
    destruct (get_edge_degree fuel h v3 v2) as [d2|] eqn:E2; [|done].
    cbn in H. injection H as <-.
    destruct (IH fuel' _ _ _ E1) as [? ->]; [lia|].
    destruct (IH fuel' _ _ _ E2) as [? ->]; [lia|].
    cbn. split; [lia|done].
  - injection H as <-. split; [lia|done].
Qed.

(** ** The parent array of a regularization *)

Lemma for_upto_from_indexed {St} (I : nat → St → Prop) (n i : nat)
    (body : nat → M St unit) :
  (∀ j s s', i ≤ j < i + n → I j s → body j s = Ok (tt, s') → I (S j) s') →
  ∀ s s', I i s → for_upto_from n i body s = Ok (tt, s') → I (i + n) s'.
Proof.
  revert i. induction n as [|n IH]; intros i Hb s s' Hi H.
  - cbn in H. apply mret_Ok in H as [_ <-]. by rewrite Nat.add_0_r.
  - cbn [for_upto_from] in H. apply bind_Ok in H as ([] & s1 & H1 & H2).
    replace (i + S n) with (S i + n) by lia.
    eapply (IH (S i)); [|eapply (Hb i); [lia|exact Hi|exact H1]|exact H2].
    intros j t t' Hj. apply Hb. lia.
Qed.

Lemma for_upto_indexed {St} (I : nat → St → Prop) (n : nat)
    (body : nat → M St unit) :
  (∀ j s s', j < n → I j s → body j s = Ok (tt, s') → I (S j) s') →
  ∀ s s', I 0 s → for_upto n body s = Ok (tt, s') → I n s'.
Proof.
  intros Hb s s' H0 H.
  apply (for_upto_from_indexed I n 0 body) with (s := s); [|done|done].
  intros j t t' Hj. apply Hb. lia.
Qed.

Lemma parents_read_Ok (i : nat) (m m' : Mesh) (v : option Z) :
  parents_read i m = Ok (v, m') → m' = m ∧ v = parents m !! i.
Proof.
  unfold parents_read. msimpl.
  destruct (Z.of_nat i <? parents_size m)%Z; [|done]. by intros [= <- <-].
Qed.

Lemma parents_write_Ok (i : nat) (v : option Z) (m m' : Mesh) :
  parents_write i v m = Ok (tt, m') →
  elements m' = elements m
  ∧ ∀ j, parents m' !! j = if decide (j = i) then v else parents m !! j.
Proof.
  unfold parents_write. msimpl.
  destruct (Z.of_nat i <? parents_size m)%Z; [|done]. intros [= <-].
  split; [done|]. intros j. cbn. destruct (decide (j = i)) as [->|Hj].
  - destruct v; [by rewrite lookup_insert_eq|by rewrite lookup_delete_eq].
  - destruct v; [by rewrite lookup_insert_ne|by rewrite lookup_delete_ne].
Qed.

(** One round of [assign_parents]: the entry of the son in slot [i] becomes
    the entry of the element. *)
Lemma assign_parent_Ok (ep i : nat) (m m' : Mesh) :
  assign_parent ep i m = Ok (tt, m') →
  elements m' = elements m
  ∧ ∃ e, elements m !! ep = Some e
         ∧ ∀ j, parents m' !! j
                = if decide (slot (e_sons e) i = Some j)
                  then parents m !! ep else parents m !! j.
Proof.
  intros H. unfold assign_parent in H.
  apply bind_Ok in H as (e & m1 & He & H).
  apply deref_Ok in He as [He <-].
  destruct (slot (e_sons e) i) as [s|] eqn:Es.
  - apply bind_Ok in H as (m0 & m1 & Hg & H). injection Hg as <- <-.
    apply bind_Ok in H as ([] & m2 & H2 & H).
    assert (Hm2 : elements m2 = elements m ∧ parents m2 = parents m).
    { destruct (parents_size m <=? Z.of_nat s)%Z.
      - injection H2 as <-. done.
      - apply mret_Ok in H2 as [_ <-]. done. }
    destruct Hm2 as [He2 Hp2].
    apply bind_Ok in H as (v & m3 & H3 & H).
    apply parents_read_Ok in H3 as [-> ->].
    apply parents_write_Ok in H as [He3 Hp3].
    split; [congruence|]. exists e. split; [done|]. intros j.
    rewrite Hp3, Hp2. destruct (decide (j = s)) as [->|Hj].
    + by rewrite decide_True.
    + rewrite decide_False; [done|]. congruence.
  - apply mret_Ok in H as [_ <-]. split; [done|]. exists e.
    split; [done|]. intros j. rewrite decide_False; [done|]. congruence.
Qed.

Lemma elem_of_take_S (l : list (option nat)) (k j : nat) :
  Some j ∈ take (S k) l ↔ Some j ∈ take k l ∨ slot l k = Some j.
Proof.
  unfold slot. destruct (l !! k) as [o|] eqn:E.
  - rewrite (take_S_r _ _ _ E). cbn. set_solver.
  - apply lookup_ge_None in E. rewrite !take_ge by lia. cbn. naive_solver.
Qed.

Lemma assign_parents_Ok (ep : nat) (m m' : Mesh) (e : Element) :
  elements m !! ep = Some e → Some ep ∉ e_sons e →
  length (e_sons e) ≤ 4 →
  assign_parents ep m = Ok (tt, m') →
  elements m' = elements m
  ∧ ∀ j, parents m' !! j
         = if decide (Some j ∈ e_sons e)
           then parents m !! ep else parents m !! j.
Proof.
  intros He Hep Hlen H. unfold assign_parents in H.
  pose (I := λ (k : nat) (cur : Mesh),
          elements cur = elements m
          ∧ ∀ j, parents cur !! j
                 = if decide (Some j ∈ take k (e_sons e))
                   then parents m !! ep else parents m !! j).
  assert (HI : I 4 m').
  { apply (for_upto_indexed I 4 (λ i, assign_parent ep i)) with (s := m);
      [|split|exact H].
    - intros k s s' Hk [Hes Hps] Hstep.
      apply assign_parent_Ok in Hstep as (Hes' & e' & He' & Hps').
      rewrite Hes, He in He'. injection He' as <-.
      split; [congruence|]. intros j. rewrite Hps', !Hps.
      rewrite (decide_False (P := Some ep ∈ take k (e_sons e)));
        [|intros Hi; apply Hep; by eapply subseteq_take].
      pose proof (elem_of_take_S (e_sons e) k j) as HS.
      destruct (decide (slot (e_sons e) k = Some j)) as [Hj|Hj].
      + rewrite decide_True; [done|]. apply HS. by right.
      + destruct (decide (Some j ∈ take k (e_sons e))) as [Hi|Hn].
        * rewrite decide_True; [done|]. apply HS. by left.
        * rewrite decide_False; [done|]. rewrite HS. tauto.
    - done.
    - intros j. rewrite decide_False; [done|]. cbn. by apply not_elem_of_nil. }
  destruct HI as [Hes Hps]. split; [done|]. intros j. rewrite Hps.
  by rewrite take_ge by lia.
Qed.

Lemma hoare_True {St A} (P : St → Prop) (c : M St A) :
  hoare P c (λ _ _, True).
Proof. by intros s a s' _ _. Qed.

(** The kinds that the main loop of [regularize] asks for. *)
Lemma regularize_iso_kind (fuel : nat) (e : Element) (n : Z) (m m' : Mesh)
    (iso : Z) :
  regularize_iso fuel e n m = Ok (iso, m') →
  (iso = 2 ∨ iso = 1 ∨ iso = 0 ∨ iso = -1)%Z.
Proof.
  assert (H : hoare (λ _, True) (regularize_iso fuel e n)
                (λ iso _, (iso = 2 ∨ iso = 1 ∨ iso = 0 ∨ iso = -1)%Z)).
  { unfold regularize_iso.
    repeat first
      [ eapply hoare_bind; [apply hoare_True|intros ?]
      | match goal with
        | |- hoare _ (if ?b then _ else _) _ => destruct b
        end
      | apply hoare_mret_gen; intros ? ?; repeat case_match; auto ]. }
  intros Hr. by eapply H.
Qed.

Lemma used_in_dec (m : Mesh) (j : nat) : used_in m j ∨ ¬ used_in m j.
Proof.
  unfold used_in. destruct (elements m !! j) as [e|] eqn:E.
  - destruct (e_used e) eqn:Hu; [left; by exists e|right].
    intros (e' & [= <-] & Hu'). congruence.
  - right. by intros (e' & ? & _).
Qed.

Lemma used_active_used (m : Mesh) (j : nat) : used_active m j → used_in m j.
Proof. intros (e & He & Hu & _). by exists e. Qed.

(** One refinement of the main loop, followed by [assign_parents], keeps the
    parent array as [parents_inv] describes it. *)
Lemma parents_inv_step (m0 cur m1 m2 : Mesh) (id : nat) (iso : Z) :
  parents_inv m0 cur → used_active cur id → iso ≠ (-1)%Z → iso ≠ 3%Z →
  refine_element_id (Z.of_nat id) iso cur = Ok (tt, m1) →
  assign_parents id m1 = Ok (tt, m2) →
  parents_inv m0 m2.
Proof.
  intros PI Hua Hr H3 Href Hass.
  apply refine_element_id_Ok in Href as (_ & _ & Href); [|done].
  rewrite Nat2Z.id in Href.
  pose proof (used_active_used _ _ Hua) as Hu.
  pose proof (grows_refine_element cur id iso H3 cur tt m1
                (grows_refl cur id Hu) Href)
    as (e1 & He1 & Hlen & HG).
  assert (HF : ∀ j, j ∈ omap Datatypes.id (e_sons e1)
                    ↔ ∃ i, slot (e_sons e1) i = Some j).
  { intros j. rewrite elem_of_omap_id. apply elem_of_slot. }
  destruct HG as [[Gp _] _ G3 G4 G5 G6 _].
  assert (Hfresh : ∀ j, Some j ∈ e_sons e1 → used_in m1 j ∧ ¬ used_in cur j).
  { intros j Hj. apply G6, HF, elem_of_slot, Hj. }
  assert (Hnotin : ∀ j, used_in cur j → Some j ∉ e_sons e1).
  { intros j Hj Hs. by destruct (Hfresh j Hs). }
  apply assign_parents_Ok with (e := e1) in Hass as [Hes Hps];
    [|done|by apply Hnotin|lia].
  assert (Hsame : ∀ j, used_in cur j → parents m2 !! j = parents cur !! j).
  { intros j Hj. rewrite Hps, decide_False by (by apply Hnotin).
    by rewrite Gp. }
  assert (Hson : ∀ j, Some j ∈ e_sons e1 →
            parents m2 !! j = parents cur !! id).
  { intros j Hj. rewrite Hps, decide_True by done. by rewrite Gp. }
  assert (Hused1 : ∀ j, used_in cur j → used_in m2 j).
  { intros j (e & He & Hue). destruct (G3 j e He Hue) as (e' & ? & ? & _).
    exists e'. by rewrite Hes. }
  assert (Hused2 : ∀ j, used_in m2 j → used_in m1 j).
  { intros j (e & He & Hue). exists e. by rewrite <- Hes. }
  assert (Hact_id : used_in m0 id → used_active m0 id).
  { intros (e0 & He0 & Hu0). destruct (e_active e0) eqn:Ha; [by exists e0|].
    destruct Hua as (e & He & _ & Hae).
    pose proof (pi_inactive _ _ PI id e0 e He0 Hu0 Ha He). congruence. }
  assert (Hid_entry : ∃ r, used_active m0 r
                           ∧ parents cur !! id = Some (Z.of_nat r)).
  { destruct (used_in_dec m0 id) as [Hin|Hout].
    - exists id. split; [by apply Hact_id|]. by apply (pi_own _ _ PI), Hact_id.
    - by apply (pi_new _ _ PI). }
  split.
  - intros j Hj. by apply Hused1, (pi_used _ _ PI).
  - intros j e0 e He0 Hu0 Ha0 He. rewrite Hes in He.
    destruct (pi_used _ _ PI j) as (ec & Hec & Huc); [by exists e0|].
    destruct (G3 j ec Hec Huc) as (e' & He' & _ & Hk).
    rewrite He in He'. injection He' as <-.
    destruct (decide (j = id)) as [->|Hj]; [by eapply G4|].
    destruct (Hk Hj) as [_ ->]. by eapply (pi_inactive _ _ PI).
  - intros j Hj. rewrite Hsame; [by apply (pi_own _ _ PI)|].
    by apply (pi_used _ _ PI), used_active_used.
  - intros j Hj Hn. rewrite Hsame; [by apply (pi_none _ _ PI)|].
    by apply (pi_used _ _ PI).
  - intros j Hj Hn. apply Hused2 in Hj.
    destruct (used_in_dec cur j) as [Hc|Hc].
    + rewrite Hsame by done. by apply (pi_new _ _ PI).
    + destruct Hj as (e & He & Hue). destruct (G5 j e He Hue Hc) as [HjF _].
      rewrite Hson; [done|]. by apply elem_of_slot, HF.
  - intros p e He Hue Hae Hp i s Hs. rewrite Hes in He.
    destruct (decide (p = id)) as [->|Hpid].
    + rewrite He1 in He. injection He as <-.
      assert (Hin : Some s ∈ e_sons e1) by (apply elem_of_slot; eauto).
      destruct (Hfresh s Hin) as [Hs1 Hs2]. split; [|split].
      * destruct Hs1 as (es & ? & ?). exists es. by rewrite Hes.
      * intros Hs0. by apply Hs2, (pi_used _ _ PI).
      * rewrite (Hson s Hin). by rewrite Hsame.
    + destruct (used_in_dec cur p) as [Hc|Hc].
      * destruct Hc as (ec & Hec & Huc).
        destruct (G3 p ec Hec Huc) as (e' & He' & _ & Hk).
        rewrite He in He'. injection He' as <-.
        destruct (Hk Hpid) as [Hsons Hact].
        rewrite Hsons in Hs. rewrite Hact in Hae.
        destruct (pi_sons _ _ PI p ec Hec Huc Hae Hp i s Hs)
          as (Hsu & Hsn & Hsp).
        split; [by apply Hused1|]. split; [done|].
        rewrite !Hsame; [done|by exists ec|done].
      * destruct (G5 p e He Hue Hc) as [_ Ha]. congruence.
Qed.

Lemma parents_inv_regularize_step m0 (fuel : nat) (n : Z) (id : nat)
    (ok : bool) :
  hoare (parents_inv m0) (regularize_step fuel n id ok)
    (λ _, parents_inv m0).
Proof.
  intros cur b cur' PI H. unfold regularize_step in H.
  apply bind_Ok in H as (e & m1 & He & H).
  apply deref_Ok in He as [He <-].
  destruct (e_used e && e_active e) eqn:E;
    [|by apply mret_Ok in H as [_ <-]].
  apply andb_prop in E as [Hu Ha].
  apply bind_Ok in H as (iso & m1 & Hiso & H).
  pose proof (regularize_iso_kind _ _ _ _ _ _ Hiso) as Hkind.
  apply regularize_iso_Ok in Hiso as [-> _].
  destruct (0 <=? iso)%Z eqn:E0; [|by apply mret_Ok in H as [_ <-]].
  apply Z.leb_le in E0.
  apply bind_Ok in H as ([] & m2 & Href & H).
  apply bind_Ok in H as ([] & m3 & Hass & H).
  apply mret_Ok in H as [_ <-].
  eapply (parents_inv_step m0 cur m2 m3 id iso); try done; [|lia..].
  by exists e.
Qed.

Create HintDb inv_parents discriminated.
#[local] Hint Resolve parents_inv_regularize_step : inv_parents.

Lemma parents_inv_regularize_loop m0 (rounds fuel : nat) (n : Z) :
  hoare (parents_inv m0) (regularize_loop rounds fuel n)
    (λ _, parents_inv m0).
Proof.
  induction rounds as [|rounds IH]; cbn [regularize_loop].
  - apply hoare_throw.
  - unfold regularize_pass. hoare_auto inv_parents.
Qed.

(** The loop that fills the parent array before the main loop. *)
Lemma parents_init (m m1 m2 : Mesh) (N : nat) :
  elements m1 = elements m → parents m1 = ∅ →
  N = length (elements m) →
  for_upto N (active_body (λ id, parents_write id (Some (Z.of_nat id)))) m1
    = Ok (tt, m2) →
  parents_inv m m2.
Proof.
  intros Hes Hps HN H.
  pose (I := λ (k : nat) (cur : Mesh),
          elements cur = elements m
          ∧ (∀ j, j < k → used_active m j →
                  parents cur !! j = Some (Z.of_nat j))
          ∧ (∀ j, is_Some (parents cur !! j) → used_active m j)).
  assert (HI : I N m2).
  { apply (for_upto_indexed I N
             (active_body (λ id, parents_write id (Some (Z.of_nat id)))))
      with (s := m1); [|split; [done|split]|exact H].
    - intros k s s' Hk (He & Hown & Hnone) Hstep.
      unfold active_body in Hstep.
      apply bind_Ok in Hstep as (e & s0 & Hek & Hstep).
      apply deref_Ok in Hek as [Hek <-]. rewrite He in Hek.
      destruct (e_used e && e_active e) eqn:E.
      + apply andb_prop in E as [Hu Ha].
        apply parents_write_Ok in Hstep as [He' Hp'].
        split; [congruence|]. split.
        * intros j Hj Hja. rewrite Hp'.
          destruct (decide (j = k)) as [->|Hne]; [done|].
          apply Hown; [lia|done].
        * intros j. rewrite Hp'.
          destruct (decide (j = k)) as [->|Hne]; [|apply Hnone].
          intros _. by exists e.
      + apply mret_Ok in Hstep as [_ <-]. split; [done|]. split; [|done].
        intros j Hj Hja. destruct (decide (j = k)) as [->|Hne].
        * destruct Hja as (e' & He' & Hu' & Ha'). rewrite Hek in He'.
          injection He' as <-. by rewrite Hu', Ha' in E.
        * apply Hown; [lia|done].
    - intros j Hj. lia.
    - intros j. rewrite Hps, lookup_empty. by intros [? ?]. }
  destruct HI as (He & Hown & Hnone).
  assert (Hu : ∀ j, used_in m2 j ↔ used_in m j).
  { intros j. unfold used_in. by rewrite He. }
  split.
  - intros j. by apply Hu.
  - intros j e0 e He0 _ Ha0 He2. rewrite He in He2. congruence.
  - intros j Hj. apply Hown; [|done].
    destruct Hj as (e & Hej & _). apply lookup_lt_Some in Hej. lia.
  - intros j _ Hn. destruct (parents m2 !! j) eqn:E; [|done].
    destruct Hn. apply Hnone. by rewrite E.
  - intros j Hj Hn. destruct Hn. by apply Hu.
  - intros p e Hp Hue Hae [Hpa|Hpn].
    + destruct Hpa as (e' & He' & _ & Ha'). rewrite He in Hp. congruence.
    + destruct Hpn. exists e. by rewrite <- He.
Qed.

Lemma parents_inv_regularize_main (fuel : nat) (n : Z) (m m' : Mesh) :
  seq_nonneg m → regularize_main fuel n m = Ok (tt, m') → parents_inv m m'.
Proof.
  intros Hseq H. unfold regularize_main in H.
  apply bind_Ok in H as (m0 & m0' & Hg & H). injection Hg as <- <-.
  apply bind_Ok in H as ([] & m1 & Hm & H). injection Hm as <-.
  apply bind_Ok in H as ([] & m2 & Hinit & H).
  unfold for_all_active_elements in Hinit.
  apply bind_Ok in Hinit as (m0 & m0' & Hg & Hinit). injection Hg as <- <-.
  eapply parents_inv_regularize_loop; [|exact H].
  eapply parents_init; [| | |exact Hinit]; [done|done|].
  unfold get_max_element_id. cbn.
  destruct (Z.ltb_spec (seq m) 0) as [Hlt|_];
    [unfold seq_nonneg in Hseq; lia|].
  by rewrite Nat2Z.id.
Qed.

(** The parent array that [regularize(n)] returns for [n >= 1], on a mesh
    that was not freed. An element that was active at the call has its own id
    as entry, whether it was split or not; an element that was inactive at
    the call has no entry: its cell of the array is never written; a new
    element has the id of the element, active at the call, that it descends
    from; and the sons of every element split in the call have the entry of
    that element. No element goes. *)
Theorem regularize_parent_array (fuel : nat) (n : Z) (m m' : Mesh)
    (par : gmap nat Z) :
  (1 ≤ n)%Z → seq_nonneg m → regularize fuel n m = Ok (par, m') →
  (∀ j, used_active m j → par !! j = Some (Z.of_nat j))
  ∧ (∀ j, used_in m j → ¬ used_active m j → par !! j = None)
  ∧ (∀ j, used_in m' j → ¬ used_in m j →
       ∃ r, used_active m r ∧ par !! j = Some (Z.of_nat r))
  ∧ (∀ p e, elements m' !! p = Some e → e_used e = true →
       e_active e = false → used_active m p ∨ ¬ used_in m p →
       ∀ i s, slot (e_sons e) i = Some s → par !! s = par !! p)
  ∧ (∀ j, used_in m j → used_in m' j).
Proof.
  intros Hn Hseq H. unfold regularize in H.
  rewrite bool_decide_eq_false_2 in H by lia. cbn zeta in H.
  apply bind_Ok in H as ([] & m1 & Hmain & H).
  apply bind_Ok in H as ([] & m2 & Hret & H).
  apply mret_Ok in Hret as [_ <-]. injection H as <- <-.
  apply parents_inv_regularize_main in Hmain as [P1 P2 P3 P4 P5 P6]; [|done].
  repeat split; try done.
  intros p e He Hu Ha Hp i s Hs. by destruct (P6 p e He Hu Ha Hp i s Hs) as (_ & _ & ?).
Qed.

(** ** The footprint of a derefinement *)

Create HintDb inv_shrinks discriminated.

Lemma shrinks_refl (m1 : Mesh) (ep : nat) :
  shrinks m1 ep [] false 0 (refinements m1) m1.
Proof.
  split; [|done|lia|done]. intros j e He. exists e.
  split; [done|]. rewrite decide_False by apply not_elem_of_nil.
  split; [done|]. by destruct (decide (j = ep)).
Qed.

Lemma shrinks_ext m1 ep R a c l (cur cur' : Mesh) :
  elements cur' = elements cur → nactive cur' = nactive cur →
  refinements cur' = refinements cur →
  shrinks m1 ep R a c l cur → shrinks m1 ep R a c l cur'.
Proof. intros He Hn Hl [S1 S2 S3 S4]. split; rewrite ?He, ?Hn, ?Hl; done. Qed.

Lemma shrinks_liftH {A} m1 ep R a c l (f : M HashTable A) :
  hoare (shrinks m1 ep R a c l) (liftH f) (λ _, shrinks m1 ep R a c l).
Proof.
  intros cur x cur' Hm H. unfold liftH in H.
  destruct (f (ht cur)) as [[b h]|]; [|done]. injection H as _ <-.
  by eapply shrinks_ext; [..|exact Hm].
Qed.

Lemma shrinks_modify m1 ep R a c l (f : Mesh → Mesh) :
  (∀ x, elements (f x) = elements x) → (∀ x, nactive (f x) = nactive x) →
  (∀ x, refinements (f x) = refinements x) →
  hoare (shrinks m1 ep R a c l) (modify f) (λ _, shrinks m1 ep R a c l).
Proof.
  intros H1 H2 H3. apply hoare_modify. intros cur. by apply shrinks_ext.
Qed.

Lemma shrinks_add_nactive m1 ep R a c l (k : Z) :
  hoare (shrinks m1 ep R a c l) (add_nactive k)
    (λ _, shrinks m1 ep R a (c + k) l).
Proof.
  intros cur [] cur' [S1 S2 S3 S4] [= <-]. split; try done. cbn. lia.
Qed.

Lemma shrinks_log_refinement m1 ep R a c l (p : nat) (r : Z) :
  hoare (shrinks m1 ep R a c l) (log_refinement p r)
    (λ _, shrinks m1 ep R a c (l ++ [(Z.of_nat p, r)])).
Proof.
  intros cur [] cur' [S1 S2 S3 S4] [= <-]. split; try done. cbn.
  by rewrite S4.
Qed.

(** An update of one element, described by what it does to the use, the
    activity and the sons. *)
Lemma shrinks_alter m1 ep R R' a a' c l (p : nat) (f : Element → Element)
    (cur : Mesh) :
  (∀ e, e_sons (f e) = e_sons e) →
  (∀ j e e', elements m1 !! j = Some e → elements cur !! j = Some e' →
     e_used e' = (if decide (j ∈ R) then false else e_used e) →
     e_active e' = (if decide (j = ep) then a || e_active e else e_active e) →
     e_used (if decide (j = p) then f e' else e')
       = (if decide (j ∈ R') then false else e_used e)
     ∧ e_active (if decide (j = p) then f e' else e')
       = (if decide (j = ep) then a' || e_active e else e_active e)) →
  shrinks m1 ep R a c l cur →
  shrinks m1 ep R' a' c l (mesh_set_elements (alter f p (elements cur)) cur).
Proof.
  intros Hs Hf [S1 S2 S3 S4]. split; try done; cbn.
  - intros j e He. destruct (S1 j e He) as (e' & He' & Hu & Ha & Hso).
    destruct (Hf j e e' He He' Hu Ha) as [Hu' Ha'].
    destruct (decide (j = p)) as [->|Hj].
    + exists (f e'). rewrite list_lookup_alter_eq, He'. cbn.
      by rewrite Hs.
    + exists e'. by rewrite list_lookup_alter_ne.
  - intros j [y Hy]. apply lookup_alter_Some in Hy as (x & Hx & _).
    apply S2. by exists x.
Qed.

Lemma shrinks_update_safe m1 ep R a c l (p : nat) (f : Element → Element) :
  frame_safe f →
  hoare (shrinks m1 ep R a c l) (update_elem p f)
    (λ _, shrinks m1 ep R a c l).
Proof.
  intros Hf cur [] cur' HS H. apply update_elem_Ok in H as [_ ->].
  eapply shrinks_alter; [| |exact HS].
  - intros e. by destruct (Hf e) as (_ & ? & _).
  - intros j e e' _ _ Hu Ha. destruct (Hf e') as (Hu' & _ & Ha').
    destruct (decide (j = p)); [by rewrite Hu', Ha'|done].
Qed.

Lemma shrinks_activate m1 ep R a c l :
  hoare (shrinks m1 ep R a c l) (update_elem ep (elem_set_active true))
    (λ _, shrinks m1 ep R true c l).
Proof.
  intros cur [] cur' HS H. apply update_elem_Ok in H as [_ ->].
  eapply shrinks_alter; [| |exact HS]; [done|].
  intros j e e' _ _ Hu Ha. destruct (decide (j = ep)) as [->|Hj];
    [by split|by split].
Qed.

Lemma shrinks_remove m1 ep R a c l (sp : nat) :
  hoare (shrinks m1 ep R a c l)
    (modify (λ m, mesh_set_elements (elements_remove sp (elements m)) m))
    (λ _, shrinks m1 ep (R ++ [sp]) a c l).
Proof.
  intros cur [] cur' HS [= <-]. unfold elements_remove.
  eapply shrinks_alter; [| |exact HS]; [done|].
  intros j e e' _ _ Hu Ha. destruct (decide (j = sp)) as [->|Hj].
  - cbn. rewrite decide_True by (apply elem_of_app; right;
                                  by apply list_elem_of_singleton).
    split; [done|exact Ha].
  - split; [|done]. rewrite Hu.
    destruct (decide (j ∈ R)) as [Hin|Hout].
    + rewrite decide_True; [done|]. apply elem_of_app. by left.
    + rewrite decide_False; [done|]. rewrite elem_of_app.
      rewrite list_elem_of_singleton. tauto.
Qed.

#[local] Hint Resolve shrinks_liftH shrinks_add_nactive shrinks_log_refinement
  : inv_shrinks.
#[local] Hint Extern 1 (hoare (shrinks _ _ _ _ _ _) (modify _) _) =>
  apply shrinks_modify; intros; reflexivity : inv_shrinks.
#[local] Hint Extern 2 (hoare (shrinks _ _ _ _ _ _) (update_elem _ _) _) =>
  apply shrinks_update_safe; solve_frame_safe : inv_shrinks.
#[local] Hint Extern 3
    (hoare (shrinks _ ?p _ _ _ _) (update_elem ?p (elem_set_active true)) _) =>
  apply shrinks_activate : inv_shrinks.
#[local] Hint Extern 3 (hoare (shrinks _ _ _ _ _ _)
    (modify (λ m, mesh_set_elements (elements_remove _ (elements m)) m)) _) =>
  apply shrinks_remove : inv_shrinks.

Lemma hoare_weaken {St A} (P : St → Prop) (Q Q' : A → St → Prop)
    (c : M St A) :
  hoare P c Q' → (∀ a s, Q' a s → Q a s) → hoare P c Q.
Proof. intros H HQ. by eapply hoare_conseq. Qed.

Lemma omap_take_S (L : list (option nat)) (i : nat) :
  omap id (take (S i) L)
  = omap id (take i L) ++ match slot L i with Some s => [s] | None => [] end.
Proof.
  unfold slot. destruct (L !! i) as [o|] eqn:E.
  - rewrite (take_S_r _ _ _ E), omap_app. cbn. by destruct o.
  - apply lookup_ge_None in E. rewrite !take_ge by lia. cbn.
    by rewrite app_nil_r.
Qed.

(** The loop of [unrefine_element_internal] that deletes the sons. *)
Lemma shrinks_delete_sons m1 ep a c l (e1 : Element) :
  elements m1 !! ep = Some e1 → length (e_sons e1) ≤ 4 →
  hoare (shrinks m1 ep [] a c l)
    (for_upto 4 (λ i,
       e ← elem_at ep;
       match slot (e_sons e) i with
       | Some sp =>
           unref_nodes_of sp;;
           update_elem sp (elem_set_cm None);;
           modify (λ m, mesh_set_elements
                          (elements_remove sp (elements m)) m);;
           add_nactive (-1)
       | None => mret tt
       end))
    (λ _, shrinks m1 ep (omap id (e_sons e1)) a
            (c - Z.of_nat (length (omap id (e_sons e1)))) l).
Proof.
  intros He1 Hlen cur [] cur' HS H.
  pose (I := λ (k : nat) (s : Mesh),
          shrinks m1 ep (omap id (take k (e_sons e1))) a
            (c - Z.of_nat (length (omap id (take k (e_sons e1))))) l s).
  assert (HI : I 4 cur').
  { eapply (for_upto_indexed I); [| |exact H].
    - intros k s s' Hk HIk Hbody. unfold I in *.
      apply bind_Ok in Hbody as (e & s0 & He & Hbody).
      apply deref_Ok in He as [He <-].
      destruct (sh_elem _ _ _ _ _ _ _ HIk ep e1 He1)
        as (e' & He' & _ & _ & Hsons).
      rewrite He in He'. injection He' as <-. rewrite Hsons in Hbody.
      rewrite omap_take_S. destruct (slot (e_sons e1) k) as [sp|].
      + assert (Hstep : hoare
          (shrinks m1 ep (omap id (take k (e_sons e1))) a
             (c - Z.of_nat (length (omap id (take k (e_sons e1))))) l)
          (unref_nodes_of sp;;
           update_elem sp (elem_set_cm None);;
           modify (λ m, mesh_set_elements
                          (elements_remove sp (elements m)) m);;
           add_nactive (-1))
          (λ _, shrinks m1 ep (omap id (take k (e_sons e1)) ++ [sp]) a
             (c - Z.of_nat (length (omap id (take k (e_sons e1)))) + -1) l))
          by hoare_auto inv_shrinks.
        pose proof (Hstep s tt s' HIk Hbody) as [S1 S2 S3 S4].
        split; try done. rewrite S3, length_app. cbn. lia.
      + apply mret_Ok in Hbody as [_ <-]. by rewrite app_nil_r.
    - unfold I. rewrite take_0. cbn. destruct HS as [S1 S2 S3 S4].
      split; try done. lia. }
  unfold I in HI. by rewrite take_ge in HI by lia.
Qed.

#[local] Hint Extern 1 (hoare (shrinks _ _ [] _ _ _) (for_upto 4 _) _) =>
  eapply shrinks_delete_sons; eassumption : inv_shrinks.

Lemma shrinks_unrefine_element_internal m1 ep (e1 : Element) :
  elements m1 !! ep = Some e1 → length (e_sons e1) ≤ 4 →
  hoare (shrinks m1 ep [] false 0 (refinements m1))
    (unrefine_element_internal ep)
    (λ _ cur, ∃ c, shrinks m1 ep (omap id (e_sons e1)) true c
                     (refinements m1 ++ [(Z.of_nat ep, (-1)%Z)]) cur
                   ∧ c = (1 - Z.of_nat (length (omap id (e_sons e1))))%Z).
Proof.
  intros He1 Hlen. unfold unrefine_element_internal.
  eapply hoare_weaken; [hoare_auto inv_shrinks|].
  intros ? cur HS. eexists. split; [exact HS|lia].
Qed.

Lemma unrefine_element_id_active (fuel : nat) (id : Z) (m : Mesh)
    (e : Element) :
  (0 ≤ id)%Z → elements m !! Z.to_nat id = Some e →
  e_used e = true → e_active e = true →
  unrefine_element_id (S fuel) id m = Ok (tt, m).
Proof.
  intros Hid He Hu Ha. cbn [unrefine_element_id]. unfold mbind, M_bind.
  apply lookup_lt_Some in He as Hlt.
  rewrite get_element_in_range by lia. unfold elem_at. rewrite He. cbn.
  by rewrite Hu, Ha.
Qed.

(** The derefinement of an element just refined: its sons are leaves, so the
    recursion returns at once on each of them, and
    [unrefine_element_internal] does the rest. *)
Lemma unrefine_after_refine (fuel : nat) (m m1 m2 : Mesh) (ep : nat) :
  refined m ep m1 → unrefine_element_id fuel (Z.of_nat ep) m1 = Ok (tt, m2) →
  ∃ e1 m3, elements m1 !! ep = Some e1 ∧ m2 = bump_seq m3
    ∧ shrinks m1 ep (omap id (e_sons e1)) true
        (1 - Z.of_nat (length (omap id (e_sons e1))))
        (refinements m1 ++ [(Z.of_nat ep, (-1)%Z)]) m3.
Proof.
  intros (e1 & He1 & Hlen & [G1 G2 G3 G4 G5 G6 G7]) H.
  destruct fuel as [|fuel]; [done|]. cbn [unrefine_element_id] in H.
  apply bind_Ok in H as (ep' & m0 & Hget & H).
  apply lookup_lt_Some in He1 as Hlt.
  rewrite get_element_in_range in Hget by lia. injection Hget as <- <-.
  rewrite Nat2Z.id in H.
  apply bind_Ok in H as (e & m0 & He & H).
  apply deref_Ok in He as [He <-]. rewrite He1 in He. injection He as <-.
  assert (Hu1 : e_used e1 = true).
  { destruct G2 as (e & He & Hu).
    destruct (G3 ep e He Hu) as (e' & He' & Hu' & _). congruence. }
  rewrite Hu1, (G4 eq_refl e1 He1) in H. cbn [negb] in H.
  apply bind_Ok in H as ([] & m1' & Hloop & H).
  assert (m1' = m1) as ->.
  { apply (for_upto_indexed (λ _ s, s = m1)) in Hloop; [done| |done].
    intros k s s' Hk -> Hbody.
    apply bind_Ok in Hbody as (e & s0 & He & Hbody).
    apply deref_Ok in He as [He <-]. rewrite He1 in He. injection He as <-.
    destruct (slot (e_sons e1) k) as [s|] eqn:Es;
      [|by apply mret_Ok in Hbody as [_ <-]].
    assert (Hin : s ∈ omap id (e_sons e1)).
    { apply elem_of_omap_id, elem_of_slot. eauto. }
    destruct (G6 s Hin) as [(es & Hes & Hus) Hns].
    destruct (G5 s es Hes Hus Hns) as [_ Has].
    destruct fuel as [|fuel]; [done|].
    rewrite (unrefine_element_id_active fuel (Z.of_nat s) m1 es) in Hbody;
      [by injection Hbody as <-|lia|by rewrite Nat2Z.id|done|done]. }
  apply bind_Ok in H as ([] & m3 & Hint & H). injection H as <-.
  exists e1, m3. split; [done|]. split; [done|].
  destruct (shrinks_unrefine_element_internal m1 ep e1 He1 ltac:(lia)
              m1 tt m3 (shrinks_refl m1 ep) Hint) as (c & HS & ->).
  done.
Qed.

(** Refinement is undone by derefinement: after a successful
    [refine_element_id(id, r)], for a kind other than -1 and 3, followed by a
    successful [unrefine_element_id(id)], the elements in use are those that
    were in use before, each is active or not as it was, the number of active
    elements is what it was, and the log has grown by the two entries
    [(id, r)] and [(id, -1)]. *)
Theorem refine_unrefine_restores (fuel : nat) (id r : Z) (m m1 m2 : Mesh) :
  r ≠ (-1)%Z → r ≠ 3%Z →
  refine_element_id id r m = Ok (tt, m1) →
  unrefine_element_id fuel id m1 = Ok (tt, m2) →
  (∀ j, used_in m2 j ↔ used_in m j)
  ∧ (∀ j e e2, elements m !! j = Some e → e_used e = true →
       elements m2 !! j = Some e2 → e_active e2 = e_active e)
  ∧ nactive m2 = nactive m
  ∧ refinements m2 = refinements m ++ [(id, r); (id, (-1)%Z)].
Proof.
  intros Hr H3 Href Hun.
  apply refine_element_id_Ok in Href as (Hid & Hua & Href); [|done].
  pose proof (used_active_used _ _ Hua) as Hu.
  pose proof (grows_refine_element m (Z.to_nat id) r H3 m tt m1
                (grows_refl m _ Hu) Href) as Hrefined.
  apply refine_element_counters in Href as (e0 & He0 & _ & Hlog & _).
  rewrite <- (Z2Nat.id id) in Hun by done.
  destruct (unrefine_after_refine _ _ _ _ _ Hrefined Hun)
    as (e1 & m3 & He1 & -> & [S1 S2 S3 S4]).
  destruct Hrefined as (e1' & He1' & _ & [G1 G2 G3 G4 G5 G6 G7]).
  rewrite He1 in He1'. injection He1' as <-.
  rewrite Z2Nat.id in * by done.
  split; [|split; [|split]]; cbn.
  - intros j. split.
    + intros (e3 & He3 & Hu3). cbn in He3.
      destruct (S2 j) as [e Hej]; [by exists e3|].
      destruct (S1 j e Hej) as (e3' & He3' & Hu3' & _).
      rewrite He3 in He3'. injection He3' as <-.
      destruct (decide (j ∈ omap Datatypes.id (e_sons e1))) as [|Hout];
        [congruence|].
      destruct (used_in_dec m j) as [|Hn]; [done|].
      destruct (G5 j e Hej) as [Hin _]; [congruence|done|done].
    + intros (e & He & Hue).
      destruct (G3 j e He Hue) as (e' & He' & Hu' & _).
      destruct (S1 j e' He') as (e3 & He3 & Hu3 & _).
      exists e3. split; [done|]. rewrite Hu3.
      destruct (decide (j ∈ omap Datatypes.id (e_sons e1))) as [Hin|];
        [|done].
      destruct (G6 j Hin) as [_ Hn]. destruct Hn. by exists e.
  - intros j e e2 He Hue He2. cbn in He2.
    destruct (G3 j e He Hue) as (e' & He' & _ & Hk).
    destruct (S1 j e' He') as (e3 & He3 & _ & Ha3 & _).
    rewrite He2 in He3. injection He3 as <-. rewrite Ha3.
    destruct (decide (j = Z.to_nat id)) as [->|Hj].
    + destruct Hua as (e'' & He'' & _ & Ha''). cbn. congruence.
    + by destruct (Hk Hj).
  - lia.
  - rewrite S4, Hlog, <- app_assoc. done.
Qed.

(** ** The mesh after a regularization with [n < 1] *)

Lemma flatten_flat : hoare (λ _, True) flatten (λ _, flat).
Proof.
  unfold flatten. eapply hoare_bind; [apply hoare_get|intros m0].
  eapply hoare_bind.
  - apply (hoare_fold_upto_fact
             (λ acc : gmap nat nat * list Element,
                Forall (λ e, e_used e = true ∧ e_active e = true) acc.2));
      [by constructor|].
    intros id acc Hacc.
    eapply hoare_bind; [apply hoare_elem_at|intros e].
    destruct (e_used e && e_active e) eqn:E.
    + apply andb_prop in E as [Hu Ha].
      eapply hoare_bind; [apply hoare_True|intros v].
      eapply hoare_bind; [apply hoare_True|intros ?].
      apply hoare_mret_gen. intros s _. split; [|done]. cbn.
      apply Forall_app. split; [done|]. by repeat constructor.
    + by apply hoare_mret_fact.
  - intros acc. apply hoare_fact. intros Hacc cur [] cur' _ H.
    apply bind_Ok in H as ([] & m1 & H1 & H). injection H1 as <-.
    apply bind_Ok in H as ([] & m2 & H2 & H). injection H2 as <-.
    apply bind_Ok in H as (h & m3 & H3 & H). injection H3 as <- <-.
    apply bind_Ok in H as (ns & m4 & H4 & H).
    apply deref_Ok in H4 as [_ <-].
    unfold liftH in H. cbn in H. injection H as <-.
    split; [exact Hacc|]. by split.
Qed.

(** [regularize(n)] with [n < 1] returns a flat mesh: every slot of the
    element array holds an active element, and the counters of the base and
    of the active elements are the size of the array, which
    [get_num_active_elements] and [get_max_element_id] then return when the
    mesh has a sequence number. *)
Theorem regularize_flattens (fuel : nat) (n : Z) (m m' : Mesh)
    (par : gmap nat Z) :
  (n < 1)%Z → regularize fuel n m = Ok (par, m') →
  flat m'
  ∧ (seq_nonneg m' →
     get_num_active_elements m' = get_max_element_id m').
Proof.
  intros Hn H. unfold regularize in H.
  rewrite bool_decide_eq_true_2 in H by lia. cbn zeta in H.
  apply bind_Ok in H as ([] & m1 & _ & H).
  apply bind_Ok in H as ([] & m2 & Hpost & H). injection H as _ <-.
  unfold regularize_post in Hpost.
  apply bind_Ok in Hpost as ([] & m3 & _ & Hflat).
  pose proof (flatten_flat m3 tt m2 I Hflat) as Hf.
  split; [done|]. intros Hseq.
  unfold get_num_active_elements, get_max_element_id.
  destruct (Z.ltb_spec (seq m2) 0); [unfold seq_nonneg in Hseq; lia|].
  by destruct Hf as (_ & -> & _).
Qed.

(** ** The mesh that [create] builds *)

Create HintDb inv_built discriminated.

Lemma built_ext L tv (cur cur' : Mesh) :
  elements cur' = elements cur → ntopvert cur' = ntopvert cur →
  refinements cur' = refinements cur → seq cur' = seq cur →
  built L tv cur → built L tv cur'.
Proof. unfold built. by intros -> -> -> ->. Qed.

Lemma built_liftH {A} L tv (f : M HashTable A) :
  hoare (built L tv) (liftH f) (λ _, built L tv).
Proof.
  intros cur x cur' Hm H. unfold liftH in H.
  destruct (f (ht cur)) as [[b h]|]; [|done]. injection H as _ <-.
  by eapply built_ext; [..|exact Hm].
Qed.

Lemma built_modify L tv (f : Mesh → Mesh) :
  (∀ x, elements (f x) = elements x) → (∀ x, ntopvert (f x) = ntopvert x) →
  (∀ x, refinements (f x) = refinements x) → (∀ x, seq (f x) = seq x) →
  hoare (built L tv) (modify f) (λ _, built L tv).
Proof.
  intros H1 H2 H3 H4. apply hoare_modify. intros cur. by apply built_ext.
Qed.

Lemma built_insert_element_marker L tv (name : string) :
  hoare (built L tv) (insert_element_marker name) (λ _, built L tv).
Proof.
  intros m k m' Hm H. unfold insert_element_marker in H. msimpl_in H.
  by injection H as _ <-.
Qed.

Lemma built_insert_boundary_marker L tv (name : string) :
  hoare (built L tv) (insert_boundary_marker name) (λ _, built L tv).
Proof.
  intros m k m' Hm H. unfold insert_boundary_marker in H. msimpl_in H.
  by injection H as _ <-.
Qed.

Lemma built_update_safe L tv (p : nat) (f : Element → Element) :
  shape_safe f →
  hoare (built L tv) (update_elem p f) (λ _, built L tv).
Proof.
  intros Hf cur [] cur' (HL & HF & Hrest) H.
  apply update_elem_Ok in H as [_ ->]. split; [|split; [|done]]; cbn.
  - rewrite <- HL. apply list_eq. intros j.
    rewrite !list_lookup_fmap. destruct (decide (j = p)) as [->|Hj].
    + rewrite list_lookup_alter_eq. destruct (elements cur !! p); [|done].
      cbn. by destruct (Hf e) as [-> _].
    + by rewrite list_lookup_alter_ne.
  - apply Forall_lookup. intros j e He.
    apply lookup_alter_Some in He as (x & Hx & [[_ ->]|[_ ->]]).
    + by eapply (proj1 (Forall_lookup _ _) HF).
    + destruct (Hf x) as (_ & -> & ->).
      by eapply (proj1 (Forall_lookup _ _) HF).
Qed.

(** In an array without a free slot the new element goes to the end. *)
Lemma built_new_element L tv (marker : Z) (nvert : nat)
    (cm : option CurvMap) :
  hoare (built L tv) (new_element marker nvert cm)
    (λ s, with_fact (s = length L) (built (L ++ [(nvert, null4)]) tv)).
Proof.
  intros cur s cur' (HL & HF & Hrest) H. unfold new_element in H.
  apply bind_Ok in H as (s1 & m1 & H1 & H2).
  apply bind_Ok in H2 as ([] & m2 & H2 & H3).
  apply mret_Ok in H3 as [<- <-].
  unfold mesh_elements_add, elements_add in H1.
  destruct (list_find _ (elements cur)) as [[i e]|] eqn:E.
  { apply list_find_Some in E as (He & Hu & _).
    destruct (proj1 (Forall_lookup _ _) HF i e He) as [Hu' _]. congruence. }
  injection H1 as <- <-. apply update_elem_Ok in H2 as [_ ->]. cbn.
  rewrite alter_app_r_alt by done. rewrite Nat.sub_diag. cbn.
  split; [by rewrite <- HL, length_fmap|].
  split; [cbn; by rewrite fmap_app, HL|]. split; [|done]. cbn.
  apply Forall_app. split; [done|]. by repeat constructor.
Qed.

(** The vertex pointers of the last element are set. *)
Lemma built_set_vn L tv (n : nat) (vn : list (option nat))
    (g : list (option nat) → list (option nat)) :
  hoare (built (L ++ [(n, vn)]) tv)
    (update_elem (length L) (λ x, elem_set_vn (g (e_vn x)) x))
    (λ _, built (L ++ [(n, g vn)]) tv).
Proof.
  intros cur [] cur' (HL & HF & Hrest) H.
  apply update_elem_Ok in H as [_ ->]. split; [|split; [|done]]; cbn.
  - apply list_eq. intros j. rewrite list_lookup_fmap.
    assert (Hj : shape <$> elements cur !! j = (L ++ [(n, vn)]) !! j)
      by (by rewrite <- HL, list_lookup_fmap).
    destruct (decide (j = length L)) as [->|Hne].
    + rewrite list_lookup_alter_eq.
      rewrite lookup_app_r, Nat.sub_diag in Hj |- * by done. cbn in *.
      destruct (elements cur !! length L) as [e|]; [|done].
      unfold shape in *. cbn in *. injection Hj as <- <-. done.
    + rewrite list_lookup_alter_ne by done. rewrite Hj.
      destruct (decide (j < length L)).
      * by rewrite !lookup_app_l by done.
      * rewrite !lookup_ge_None_2; [done|..]; rewrite length_app; cbn; lia.
  - apply Forall_lookup. intros j e He.
    apply lookup_alter_Some in He as (x & Hx & [[_ ->]|[_ ->]]); cbn;
      by eapply (proj1 (Forall_lookup _ _) HF).
Qed.

Ltac solve_shape_safe :=
  intros ?; repeat apply conj; reflexivity.

#[local] Hint Resolve built_liftH built_insert_element_marker
  built_insert_boundary_marker built_new_element : inv_built.
#[local] Hint Extern 1 (hoare (built _ _) (modify _) _) =>
  apply built_modify; intros; reflexivity : inv_built.
#[local] Hint Extern 2 (hoare (built _ _) (update_elem _ _) _) =>
  apply built_update_safe; solve_shape_safe : inv_built.
#[local] Hint Extern 3 (hoare (built _ _) (update_elem _ _) _) =>
  apply built_set_vn : inv_built.

Lemma built_create_triangle L tv (marker : Z) (v0 v1 v2 : option nat)
    (cm : option CurvMap) :
  hoare (built L tv) (create_triangle marker v0 v1 v2 cm)
    (λ _, built (L ++ [(3, [v0; v1; v2; None])]) tv).
Proof.
  unfold create_triangle.
  repeat first [ progress subst
               | hoare_step inv_built
               | apply hoare_mret_gen; intros ? HG; exact HG ].
Qed.

Lemma built_create_quad L tv (marker : Z) (v0 v1 v2 v3 : option nat)
    (cm : option CurvMap) :
  hoare (built L tv) (create_quad marker v0 v1 v2 v3 cm)
    (λ _, built (L ++ [(4, [v0; v1; v2; v3])]) tv).
Proof.
  unfold create_quad.
  repeat first [ progress subst
               | hoare_step inv_built
               | apply hoare_mret_gen; intros ? HG; exact HG ].
Qed.

#[local] Hint Resolve built_create_triangle built_create_quad : inv_built.

Ltac hoare_auto_ret db :=
  repeat first [ hoare_step db
               | apply hoare_mret_gen; intros ? HG; exact HG ].

(** [create] builds the elements it is asked for: the element array holds,
    in this order, one active triangle for each entry of [tris] and one
    active quad for each entry of [quads], with the vertices given; the
    counters of the base, the active and the initial elements are their
    number, the top vertices are counted, the log is empty, and the mesh has
    a sequence number, so that [get_num_active_elements] and
    [get_max_element_id] return the number of the elements. *)
Theorem create_builds_elements verts tris tri_markers quads quad_markers
    mark boundary_markers (m0 m : Mesh) :
  create verts tris tri_markers quads quad_markers mark boundary_markers m0
    = Ok (tt, m) →
  let k := Z.of_nat (length tris + length quads) in
  shape <$> elements m = (tri_shape <$> tris) ++ (quad_shape <$> quads)
  ∧ Forall (λ e, e_used e = true ∧ e_active e = true) (elements m)
  ∧ nbase m = k ∧ nactive m = k ∧ ninitial m = k
  ∧ ntopvert m = Z.of_nat (length verts)
  ∧ refinements m = []
  ∧ seq_nonneg m
  ∧ get_num_active_elements m = k ∧ get_max_element_id m = k.
Proof.
  intros H k. unfold create in H.
  apply bind_Ok in H as ([] & ma & Ha & H). injection Ha as <-.
  apply bind_Ok in H as ([] & mb & Hb & H). injection Hb as <-.
  apply bind_Ok in H as ([] & mc & Hc & H). injection Hc as <-.
  set (tv := Z.of_nat (length verts)) in *.
  apply bind_Ok in H as ([] & m1 & Htri & H).
  assert (H1 : built (tri_shape <$> tris) tv m1).
  { apply (for_upto_indexed
             (λ j, built (tri_shape <$> take j tris) tv)) in Htri.
    - by rewrite take_ge in Htri by lia.
    - intros j s s' Hj HI Hbody.
      apply bind_Ok in Hbody as (t & s0 & Ht & Hbody).
      apply deref_Ok in Ht as [Ht <-].
      rewrite (take_S_r _ _ _ Ht), fmap_app.
      revert Hbody. revert HI. generalize (tri_shape <$> take j tris).
      intros L HI Hbody.
      assert (Hstep : hoare (built L tv)
                (name ← deref (tri_markers !! j);
                 k ← insert_element_marker name;
                 create_triangle k (node_ptr t.1.1) (node_ptr t.1.2)
                   (node_ptr t.2) None;;
                 mret tt)
                (λ _, built (L ++ [tri_shape t]) tv)) by hoare_auto_ret inv_built.
      by eapply Hstep.
    - done. }
  apply bind_Ok in H as ([] & m2 & Hquad & H).
  assert (H2 : built ((tri_shape <$> tris) ++ (quad_shape <$> quads)) tv m2).
  { apply (for_upto_indexed
             (λ j, built ((tri_shape <$> tris)
                          ++ (quad_shape <$> take j quads)) tv)) in Hquad.
    - by rewrite take_ge in Hquad by lia.
    - intros j s s' Hj HI Hbody.
      apply bind_Ok in Hbody as (q & s0 & Hq & Hbody).
      apply deref_Ok in Hq as [Hq <-].
      rewrite (take_S_r _ _ _ Hq), fmap_app, app_assoc.
      revert Hbody. revert HI.
      generalize ((tri_shape <$> tris) ++ (quad_shape <$> take j quads)).
      intros L HI Hbody.
      assert (Hstep : hoare (built L tv)
                (name ← deref (quad_markers !! j);
                 k ← insert_element_marker name;
                 create_quad k (node_ptr q.1.1.1) (node_ptr q.1.1.2)
                   (node_ptr q.1.2) (node_ptr q.2) None;;
                 mret tt)
                (λ _, built (L ++ [quad_shape q]) tv)) by hoare_auto_ret inv_built.
      by eapply Hstep.
    - cbn. by rewrite app_nil_r. }
  apply bind_Ok in H as ([] & m3 & Hmark & H).
  assert (H3 : built ((tri_shape <$> tris) ++ (quad_shape <$> quads)) tv m3).
  { revert Hmark. revert H2.
    generalize ((tri_shape <$> tris) ++ (quad_shape <$> quads)).
    intros L H2 Hmark.
    assert (Hloop : hoare (built L tv)
              (for_upto (length mark) (λ i,
                 ab ← deref (mark !! i);
                 en ← gets (λ m, peek_edge_node ab.1 ab.2 (ht m));
                 match en with
                 | None => throw (Exception
                     "Boundary data error (edge does not exist)")
                 | Some en =>
                     name ← deref (boundary_markers !! i);
                     k ← insert_boundary_marker name;
                     set_node_marker (Some en) k;;
                     set_node_bnd (node_ptr ab.1) 1;;
                     set_node_bnd (node_ptr ab.2) 1;;
                     set_node_bnd (Some en) 1
                 end))
              (λ _, built L tv)) by hoare_auto_ret inv_built.
    by eapply Hloop. }
  apply bind_Ok in H as ([] & m4 & H4 & H).
  injection H4 as <-. injection H as <-.
  destruct H3 as (HL & HF & Htv & Hlog & Hseq).
  cbn. repeat split; try done.
  - unfold seq_nonneg. cbn. pose proof (Z.mod_pos_bound (g_mesh_seq m3) (2 ^ 32)).
    lia.
  - unfold get_num_active_elements. cbn.
    destruct (Z.ltb_spec (g_mesh_seq m3 mod 2 ^ 32) 0) as [Hlt|]; [|done].
    pose proof (Z.mod_pos_bound (g_mesh_seq m3) (2 ^ 32)). lia.
  - unfold get_max_element_id. cbn.
    destruct (Z.ltb_spec (g_mesh_seq m3 mod 2 ^ 32) 0) as [Hlt|].
    { pose proof (Z.mod_pos_bound (g_mesh_seq m3) (2 ^ 32)). lia. }
    unfold k. rewrite <- (length_fmap shape), HL, length_app, !length_fmap.
    done.
Qed.

(** ** Rescaling *)

(** [rescale] on a mesh that was not freed: when an element in use is curved,
    the call raises the [CurvedException] of the first such element, whatever
    the reference lengths; when none is, it returns [true], the elements are
    as they were and the nodes are the rescaled ones. *)
Theorem rescale_outcome (x_ref y_ref : float) (m : Mesh) :
  seq_nonneg m →
  (∀ k e, elements m !! k = Some e → e_used e = true → is_curved e = true →
     (∀ j e', j < k → elements m !! j = Some e' →
              e_used e' && is_curved e' = false) →
     rescale x_ref y_ref m = Err (CurvedException (Z.of_nat k)))
  ∧ ((∀ j e', elements m !! j = Some e' → e_used e' && is_curved e' = false) →
     ∃ m', rescale x_ref y_ref m = Ok (true, m')
           ∧ elements m' = elements m
           ∧ nodes (ht m') = rescale_node x_ref y_ref <$> nodes (ht m)).
Proof.
  intros Hseq.
  set (m1 := mesh_set_ht
               (ht_set_nodes (rescale_node x_ref y_ref <$> nodes (ht m))
                  (ht m)) m).
  set (body := λ id : nat,
         e ← elem_at id;
         if e_used e && is_curved e
         then throw (CurvedException (Z.of_nat id)) else mret tt).
  assert (Hmax : Z.to_nat (get_max_element_id m1) = length (elements m)).
  { unfold get_max_element_id. cbn.
    destruct (Z.ltb_spec (seq m) 0); [unfold seq_nonneg in Hseq; lia|].
    by rewrite Nat2Z.id. }
  assert (Hrun : rescale x_ref y_ref m
                 = (for_upto (length (elements m)) body;; mret true) m1).
  { unfold rescale. msimpl. cbn. fold m1. by rewrite Hmax. }
  assert (Hpre : ∀ k, k ≤ length (elements m) →
            (∀ j e', j < k → elements m !! j = Some e' →
                     e_used e' && is_curved e' = false) →
            for_upto k body m1 = Ok (tt, m1)).
  { induction k as [|k IH]; intros Hk Hj; [done|].
    unfold for_upto. replace (S k) with (k + 1) by lia.
    rewrite for_upto_from_app. msimpl.
    fold (for_upto k body).
    rewrite IH; [|lia|intros j e' Hlt He'; apply (Hj j e'); [lia|done]].
    cbn [for_upto_from]. msimpl. unfold body at 1. msimpl. cbn.
    destruct (lookup_lt_is_Some_2 (elements m) k ltac:(lia)) as [e He].
    rewrite He. cbn. by rewrite (Hj k e ltac:(lia) He). }
  split.
  - intros k e He Hu Hc Hj. rewrite Hrun. unfold mbind, M_bind.
    apply lookup_lt_Some in He as Hlt.
    rewrite (for_upto_reaches_error (length (elements m)) k body m1 m1
               (CurvedException (Z.of_nat k))); [done|done| |].
    + apply Hpre; [lia|done].
    + unfold body. msimpl. cbn. rewrite He. cbn. by rewrite Hu, Hc.
  - intros Hall. exists m1. rewrite Hrun. unfold mbind, M_bind.
    rewrite Hpre; [done|done|]. intros j e' _. apply Hall.
Qed.

(** ** The derefinement of all elements *)

Lemma hoare_sons_are_leaves_from (P : Mesh → Prop) (k i : nat) (keep : bool)
    (e : Element) :
  hoare P (sons_are_leaves_from k i keep e) (λ _, P).
Proof.
  revert i. induction k as [|k IH]; intros i; cbn [sons_are_leaves_from].
  - apply hoare_mret.
  - destruct (slot (e_sons e) i) as [s|]; [|apply IH].
    eapply hoare_bind; [apply hoare_elem_at|intros x].
    eapply hoare_bind; [apply hoare_get|intros m].
    destruct (negb (e_active x) || (keep && (Z.of_nat s <? ninitial m)%Z));
      [apply hoare_mret|apply IH].
Qed.

#[local] Hint Resolve hoare_sons_are_leaves_from : hoare_pure.

(** [unrefine_all_elements] keeps the invariant of the son slots: in the mesh
    it returns, as in the mesh it was given, every element has four son
    slots and every inactive element in use has at least two sons. *)
Theorem unrefine_all_elements_keeps_sons (fuel : nat) (keep : bool)
    (m m' : Mesh) :
  sons_inv None m → unrefine_all_elements fuel keep m = Ok (tt, m') →
  sons_inv None m'.
Proof.
  intros Hm H.
  assert (Hh : hoare (sons_inv None) (unrefine_all_elements fuel keep)
                 (λ _, sons_inv None)).
  { unfold unrefine_all_elements. hoare_auto inv_sons. }
  by eapply Hh.
Qed.

(** On a mesh whose elements in use are all active there is nothing to
    derefine: [unrefine_all_elements] returns the mesh as it was. *)
Theorem unrefine_all_elements_leaves (fuel : nat) (keep : bool) (m : Mesh) :
  (∀ j e, elements m !! j = Some e → e_used e = true → e_active e = true) →
  unrefine_all_elements fuel keep m = Ok (tt, m).
Proof.
  intros Hall. unfold unrefine_all_elements. msimpl.
  assert (Hfold : ∀ k i, i + k ≤ length (elements m) →
            fold_upto_from k i (λ id acc,
              e ← elem_at id;
              if e_used e && negb (e_active e) then
                found ← sons_are_leaves_from 4 0 keep e;
                mret (if (found : bool) then acc ++ [id] else acc)
              else mret acc) [] m = Ok ([], m)).
  { induction k as [|k IH]; intros i Hi; [done|].
    cbn [fold_upto_from]. msimpl.
    destruct (lookup_lt_is_Some_2 (elements m) i ltac:(lia)) as [e He].
    rewrite He. cbn.
    destruct (e_used e) eqn:Hu; cbn; [rewrite (Hall i e He Hu); cbn|];
      apply IH; lia. }
  unfold fold_upto. rewrite Hfold; [done|].
  unfold get_max_element_id. destruct (seq m <? 0)%Z; cbn; lia.
Qed.

(** ** A second regularization *)

Lemma blind_mret {A} (a : A) : parents_blind (mret a).
Proof. by intros p sz m. Qed.

Lemma blind_throw {A} (e : error) : parents_blind (throw e : M Mesh A).
Proof. by intros p sz m. Qed.

Lemma blind_bind {A B} (c : M Mesh A) (k : A → M Mesh B) :
  parents_blind c → (∀ a, parents_blind (k a)) → parents_blind (c ≫= k).
Proof.
  intros Hc Hk p sz m. unfold mbind, M_bind. rewrite Hc.
  destruct (c m) as [[a s]|e]; [|done]. cbn. apply Hk.
Qed.

Lemma blind_deref {A} (o : option A) : parents_blind (deref o).
Proof. intros p sz m. by destruct o. Qed.

Lemma blind_elem_at (i : nat) : parents_blind (elem_at i).
Proof. intros p sz m. unfold elem_at. cbn. by destruct (elements m !! i). Qed.

Lemma blind_edge_degree (fuel : nat) (e : Element) (i j : nat) :
  parents_blind (edge_degree fuel e i j).
Proof.
  intros p sz m. unfold edge_degree. msimpl.
  destruct (slot (e_vn e) i) as [v1|]; [|done]. cbn.
  destruct (slot (e_vn e) j) as [v2|]; [|done]. cbn.
  by destruct (get_edge_degree fuel (ht m) v1 v2).
Qed.

Ltac blind :=
  repeat first
    [ apply blind_mret | apply blind_throw | apply blind_deref
    | apply blind_elem_at | apply blind_edge_degree
    | assumption
    | apply blind_bind; [|intros ?]
    | match goal with
      | |- parents_blind (if ?b then _ else _) => destruct b
      end ].

Lemma blind_exceeds (fuel : nat) (e : Element) (i j : nat) (n : Z) :
  parents_blind (exceeds fuel e i j n).
Proof. unfold exceeds. blind. Qed.

Lemma blind_any_edge_exceeds_from (fuel k i : nat) (e : Element) (n : Z) :
  parents_blind (any_edge_exceeds_from fuel k i e n).
Proof.
  revert i. induction k as [|k IH]; intros i; cbn [any_edge_exceeds_from].
  - apply blind_mret.
  - pose proof (blind_exceeds fuel e i (next_vert e i) n).
    pose proof (IH (S i)). blind.
Qed.

Lemma blind_regularize_iso (fuel : nat) (e : Element) (n : Z) :
  parents_blind (regularize_iso fuel e n).
Proof.
  pose proof (blind_any_edge_exceeds_from fuel (e_nvert e) 0 e n) as Hany.
  pose proof (λ i j, blind_exceeds fuel e i j n) as Hex.
  unfold regularize_iso, any_edge_exceeds.
  repeat first [ apply Hex | blind ].
Qed.

(** A round of the main loop that finds nothing to refine finds nothing
    either when the parent array is another one. *)
Lemma regularize_fold_true_blind (fuel : nat) (n : Z) (k i : nat)
    (m : Mesh) (p : gmap nat Z) (sz : Z) :
  fold_upto_from k i (regularize_step fuel n) true m = Ok (true, m) →
  fold_upto_from k i (regularize_step fuel n) true (mesh_set_parents p sz m)
  = Ok (true, mesh_set_parents p sz m).
Proof.
  revert i. induction k as [|k IH]; intros i; cbn [fold_upto_from]; [done|].
  intros H. apply bind_Ok in H as (b1 & m1 & H1 & H2).
  pose proof H2 as H2'.
  apply regularize_fold_true in H2' as (Hb & Hm & _). subst b1 m1.
  unfold mbind, M_bind.
  assert (Hstep : regularize_step fuel n i true (mesh_set_parents p sz m)
                  = Ok (true, mesh_set_parents p sz m)).
  { unfold regularize_step in H1 |- *. unfold mbind, M_bind in H1 |- *.
    rewrite blind_elem_at.
    destruct (elem_at i m) as [[e s]|] eqn:Ee; [|done].
    apply deref_Ok in Ee as [_ Hs]. subst s. cbn.
    destruct (e_used e && e_active e); [|done].
    rewrite blind_regularize_iso.
    destruct (regularize_iso fuel e n m) as [[iso s']|] eqn:Eiso; [|done].
    apply regularize_iso_Ok in Eiso as [-> _]. cbn.
    destruct (0 <=? iso)%Z; [exfalso|done].
    destruct (refine_element_id (Z.of_nat i) iso m) as [[[] s2]|]; [|done].
    by destruct (assign_parents i s2) as [[[] s3]|]. }
  rewrite Hstep. by apply IH.
Qed.

Lemma parents_init_runs (m : Mesh) (sz : Z) (k i : nat) (p : gmap nat Z) :
  (Z.of_nat (i + k) ≤ sz)%Z → i + k ≤ length (elements m) →
  ∃ p', for_upto_from k i
          (active_body (λ id, parents_write id (Some (Z.of_nat id))))
          (mesh_set_parents p sz m)
        = Ok (tt, mesh_set_parents p' sz m).
Proof.
  revert i p. induction k as [|k IH]; intros i p Hsz Hlen.
  - by exists p.
  - cbn [for_upto_from]. unfold mbind at 1, M_bind at 1.
    destruct (lookup_lt_is_Some_2 (elements m) i ltac:(lia)) as [e He].
    assert (Hbody : ∃ p1, active_body
              (λ id, parents_write id (Some (Z.of_nat id))) i
              (mesh_set_parents p sz m) = Ok (tt, mesh_set_parents p1 sz m)).
    { unfold active_body. msimpl. cbn. rewrite He. cbn.
      destruct (e_used e && e_active e); [|by exists p].
      unfold parents_write. msimpl. cbn.
      destruct (Z.ltb_spec (Z.of_nat i) sz); [|lia]. by eexists. }
    destruct Hbody as [p1 ->].
    destruct (IH (S i) p1) as [p' Hp']; [lia|lia|]. by exists p'.
Qed.

(** A second regularization changes nothing but the parent array: after
    [regularize(n)], [n >= 1], has returned, a further [regularize(n)] on the
    mesh returns as well, and the mesh it leaves is the same but for the
    parent array, which it allocates and fills anew. *)
Theorem regularize_twice (fuel : nat) (n : Z) (m m' : Mesh)
    (par : gmap nat Z) :
  (1 ≤ n)%Z → seq_nonneg m → regularize fuel n m = Ok (par, m') →
  ∃ par', regularize fuel n m'
          = Ok (par', mesh_set_parents par' (2 * get_max_element_id m') m').
Proof.
  intros Hn Hseq H. unfold regularize in H |- *.
  rewrite bool_decide_eq_false_2 in H |- * by lia. cbn zeta in *.
  apply bind_Ok in H as ([] & m1 & Hmain & H).
  apply bind_Ok in H as ([] & m2 & [_ <-]%mret_Ok & H).
  injection H as _ <-.
  pose proof (seq_regularize_main _ _ _ _ _ Hseq Hmain) as Hseq1.
  unfold regularize_main in Hmain.
  apply bind_Ok in Hmain as (? & ? & _ & Hmain).
  apply bind_Ok in Hmain as (? & ? & _ & Hmain).
  apply bind_Ok in Hmain as (? & ? & _ & Hmain).
  assert (Hfuel : ∃ f, fuel = S f).
  { destruct fuel; [done|by eexists]. }
  apply regularize_loop_fixed_point in Hmain. destruct Hfuel as [f ->].
  assert (Hmax : get_max_element_id m1 = Z.of_nat (length (elements m1))).
  { unfold get_max_element_id.
    destruct (Z.ltb_spec (seq m1) 0); [unfold seq_nonneg in Hseq1; lia|done]. }
  set (sz := (2 * get_max_element_id m1)%Z).
  destruct (parents_init_runs m1 sz (length (elements m1)) 0 ∅)
    as [p' Hinit]; [unfold sz; lia|lia|].
  exists p'.
  assert (Hrun : regularize_main (S f) n m1
                 = Ok (tt, mesh_set_parents p' sz m1)).
  { unfold regularize_main, for_all_active_elements. msimpl.
    change (get_max_element_id (mesh_set_parents ∅ (2 * get_max_element_id m1) m1))
      with (get_max_element_id m1).
    rewrite Hmax, Nat2Z.id. unfold for_upto. fold sz.
    rewrite <- Hmax. fold sz. rewrite Hinit.
    cbn [regularize_loop]. unfold mbind, M_bind.
    assert (Hpass : regularize_pass (S f) n (mesh_set_parents p' sz m1)
                    = Ok (true, mesh_set_parents p' sz m1)).
    { unfold regularize_pass, fold_upto in Hmain |- *.
      unfold mbind, M_bind, get in Hmain |- *.
      change (get_max_element_id (mesh_set_parents p' sz m1))
        with (get_max_element_id m1).
      by apply regularize_fold_true_blind. }
    by rewrite Hpass. }
  unfold mbind, M_bind. rewrite Hrun. done.
Qed.

(** ** The number of active elements and the counter of the mesh *)

Create HintDb inv_tally discriminated.

Lemma count_active_app (es es' : list Element) :
  count_active (es ++ es') = count_active es + count_active es'.
Proof. unfold count_active. by rewrite filter_app, length_app. Qed.

Lemma count_active_cons (x : Element) (es : list Element) :
  count_active (x :: es) = (if is_leaf x then 1 else 0) + count_active es.
Proof.
  unfold count_active. rewrite filter_cons.
  destruct (decide (is_leaf x = true)) as [->|Hx%not_true_is_false];
    [done|by rewrite Hx].
Qed.

Lemma count_active_alter (f : Element → Element) (p : nat)
    (es : list Element) (e : Element) :
  es !! p = Some e →
  count_active (alter f p es) + (if is_leaf e then 1 else 0)
  = count_active es + (if is_leaf (f e) then 1 else 0).
Proof.
  revert p. induction es as [|x es IH]; intros [|p] He; try done.
  - injection He as ->. change (alter f 0 (e :: es)) with (f e :: es).
    rewrite !count_active_cons. lia.
  - change (alter f (S p) (x :: es)) with (x :: alter f p es).
    rewrite !count_active_cons. specialize (IH p He). lia.
Qed.

Lemma elements_set (es : list Element) (m : Mesh) :
  elements (mesh_set_elements es m) = es.
Proof. done. Qed.

Lemma tally_ext k a ep (cur cur' : Mesh) :
  elements cur' = elements cur → tally k a ep cur → tally k a ep cur'.
Proof. unfold tally. by intros ->. Qed.

Lemma tally_liftH {A} k a ep (f : M HashTable A) :
  hoare (tally k a ep) (liftH f) (λ _, tally k a ep).
Proof.
  intros cur x cur' Hm H. unfold liftH in H.
  destruct (f (ht cur)) as [[b h]|]; [|done]. by injection H as _ <-.
Qed.

Lemma tally_modify k a ep (f : Mesh → Mesh) :
  (∀ x, elements (f x) = elements x) →
  hoare (tally k a ep) (modify f) (λ _, tally k a ep).
Proof.
  intros H1. apply hoare_modify. intros cur. by apply tally_ext.
Qed.

Lemma tally_update_safe k a ep (p : nat) (f : Element → Element) :
  flag_safe f →
  hoare (tally k a ep) (update_elem p f) (λ _, tally k a ep).
Proof.
  intros Hf cur [] cur' [Hk (e & He & Hu & Ha)] H.
  apply update_elem_Ok in H as [[x Hx] ->].
  split; rewrite ?elements_set.
  - pose proof (count_active_alter f p _ x Hx) as Hc.
    unfold is_leaf in Hc. destruct (Hf x) as [Hfu Hfa].
    rewrite Hfu, Hfa in Hc. destruct (e_used x && e_active x); lia.
  - destruct (lookup_alter_Some_2 f p ep _ _ He) as (y & Hy & [[_ ->]|[_ ->]]);
      [by exists e|].
    exists (f e). destruct (Hf e) as [-> ->]. done.
Qed.

Lemma tally_deactivate k ep :
  hoare (tally k true ep) (deactivate ep) (λ _, tally (k - 1) false ep).
Proof.
  intros cur [] cur' [Hk (e & He & Hu & Ha)] H.
  apply update_elem_Ok in H as [_ ->].
  split; rewrite ?elements_set.
  - pose proof (count_active_alter (elem_set_active false) ep _ e He) as Hc.
    replace (is_leaf e) with true in Hc
      by (unfold is_leaf; by rewrite Hu, Ha).
    replace (is_leaf (elem_set_active false e)) with false in Hc
      by (unfold is_leaf; cbn; by rewrite andb_false_r).
    lia.
  - exists (elem_set_active false e).
    by rewrite list_lookup_alter_eq, He.
Qed.

Lemma tally_new_element k a ep (marker : Z) (nvert : nat)
    (cm : option CurvMap) :
  hoare (tally k a ep) (new_element marker nvert cm)
    (λ _, tally (k + 1) a ep).
Proof.
  intros cur s cur' [Hk (e & He & Hu & Ha)] H. unfold new_element in H.
  apply bind_Ok in H as (s1 & m1 & H1 & H2).
  apply bind_Ok in H2 as ([] & m2 & H2 & H3).
  apply mret_Ok in H3 as [<- <-].
  unfold mesh_elements_add, elements_add in H1.
  destruct (list_find _ (elements cur)) as [[i x]|] eqn:E.
  - apply list_find_Some in E as (Hx & Hux & _).
    injection H1 as <- <-. apply update_elem_Ok in H2 as [_ ->].
    rewrite ?elements_set.
    assert (Hne : ep ≠ i) by (intros ->; congruence).
    split.
    + replace (alter (elem_init marker nvert cm) i
                 (<[i:=elem_set_used true x]> (elements cur)))
        with (alter (λ _, elem_init marker nvert cm (elem_set_used true x))
                i (elements cur)).
      * pose proof (count_active_alter
          (λ _, elem_init marker nvert cm (elem_set_used true x)) i _ x Hx)
          as Hc.
        cbv beta in Hc.
        replace (is_leaf x) with false in Hc
          by (unfold is_leaf; by rewrite Hux).
        change (is_leaf (elem_init marker nvert cm (elem_set_used true x)))
          with true in Hc.
        cbv iota in Hc. rewrite ?elements_set. lia.
      * apply list_eq. intros j. apply lookup_lt_Some in Hx as Hlt.
        destruct (decide (j = i)) as [->|Hj].
        -- rewrite !list_lookup_alter_eq, Hx.
           by rewrite list_lookup_insert_eq by done.
        -- by rewrite !list_lookup_alter_ne, list_lookup_insert_ne by done.
    + exists e. rewrite ?elements_set.
      rewrite list_lookup_alter_ne, list_lookup_insert_ne by done.
      done.
  - injection H1 as <- <-. apply update_elem_Ok in H2 as [_ ->].
    apply lookup_lt_Some in He as Hlt. unfold tally.
    rewrite !elements_set. rewrite alter_app_r_alt by done.
    rewrite Nat.sub_diag. cbn [alter list_alter].
    split.
    + rewrite count_active_app, count_active_cons.
      change (is_leaf (elem_init marker nvert cm
                         (elem_set_used true default_element))) with true.
      cbn. lia.
    + exists e. by rewrite lookup_app_l.
Qed.

Ltac solve_flag_safe :=
  intros ?; repeat apply conj; reflexivity.

#[local] Hint Resolve tally_liftH tally_deactivate tally_new_element
  : inv_tally.
#[local] Hint Extern 1 (hoare (tally _ _ _) (modify _) _) =>
  apply tally_modify; intros; reflexivity : inv_tally.
#[local] Hint Extern 2 (hoare (tally _ _ _) (update_elem _ _) _) =>
  apply tally_update_safe; solve_flag_safe : inv_tally.

Lemma tally_refine_triangle_to_triangles k ep :
  hoare (tally k true ep) (refine_triangle_to_triangles ep)
    (λ _, tally (k + 3) false ep).
Proof.
  unfold refine_triangle_to_triangles.
  eapply hoare_weaken; [hoare_auto inv_tally|].
  intros ? ? [Hk He]. split; [lia|done].
Qed.

Lemma tally_refine_triangle_to_quads k ep :
  hoare (tally k true ep) (refine_triangle_to_quads ep)
    (λ _, tally (k + 2) false ep).
Proof.
  unfold refine_triangle_to_quads.
  eapply hoare_weaken; [hoare_auto inv_tally|].
  intros ? ? [Hk He]. split; [lia|done].
Qed.

Lemma tally_refine_quad k ep (refinement : Z) :
  hoare (tally k true ep) (refine_quad ep refinement)
    (λ _, tally (k + (if decide (refinement = 0%Z) then 3
                else if decide (refinement = 1%Z ∨ refinement = 2%Z) then 1
                else -1)) false ep).
Proof.
  unfold refine_quad.
  repeat first
    [ lazymatch goal with
      | |- hoare _ (?f (if decide (refinement = 0%Z) then _ else _)) _ =>
          eapply (hoare_bind _
            (λ _, tally (k + (if decide (refinement = 0%Z) then 3
                else if decide (refinement = 1%Z ∨ refinement = 2%Z) then 1
                else -1))
                    false ep)); [|intros ?]
      end
    | hoare_step inv_tally
    | apply hoare_mret_gen; intros ? HG;
      repeat match goal with
             | |- context [decide ?P] => destruct (decide P); try done
             end;
      destruct HG as (HG & ?); (split; [lia|done]) ].
Qed.

Lemma refine_element_tally (ep : nat) (refinement : Z) (m m' : Mesh) :
  used_active m ep → refine_element ep refinement m = Ok (tt, m') →
  ∃ e, elements m !! ep = Some e
       ∧ tally (Z.of_nat (count_active (elements m))
                + active_gain e refinement) false ep m'.
Proof.
  intros (e0 & He0 & Hu0 & Ha0) H. unfold refine_element in H.
  apply bind_Ok in H as ([] & m1 & H1 & H). injection H1 as <-.
  apply bind_Ok in H as (e & m1' & He & H).
  apply deref_Ok in He as [He <-]. cbn in He.
  apply bind_Ok in H as ([] & m2 & H2 & H).
  apply bind_Ok in H as ([] & m3 & H3 & H4).
  exists e. split; [done|].
  set (k := (Z.of_nat (count_active (elements m))
             + active_gain e refinement)%Z).
  assert (Htail : hoare (tally k false ep) (modify bump_seq)
                    (λ _, tally k false ep)) by hoare_auto inv_tally.
  eapply Htail; [|exact H4].
  assert (Hloop : hoare (tally k false ep)
            (for_upto 4 (λ i,
               e ← elem_at ep;
               match slot (e_sons e) i with
               | Some s => update_elem s (elem_set_iro_cache (e_iro_cache e))
               | None => mret tt
               end))
            (λ _, tally k false ep)) by hoare_auto inv_tally.
  eapply Hloop; [|exact H3].
  assert (H0 : tally (Z.of_nat (count_active (elements m))) true ep
                 (mesh_set_refinements
                    (refinements m ++ [(Z.of_nat ep, refinement)]) m)).
  { split; [done|]. by exists e0. }
  unfold k, active_gain. destruct (is_triangle e).
  - destruct (decide (refinement = 3%Z)).
    + by eapply tally_refine_triangle_to_quads; [|exact H2].
    + by eapply tally_refine_triangle_to_triangles; [|exact H2].
  - by eapply tally_refine_quad; [|exact H2].
Qed.

Lemma refine_element_id_in_step (id refinement : Z) (m m' : Mesh) :
  refinement ≠ (-1)%Z → refine_element_id id refinement m = Ok (tt, m') →
  (Z.of_nat (count_active (elements m')) - nactive m'
   = Z.of_nat (count_active (elements m)) - nactive m)%Z.
Proof.
  intros Hr H. apply refine_element_id_Ok in H as (Hid & Hua & H); [|done].
  pose proof H as H'.
  apply refine_element_counters in H' as (e & He & Hk & _).
  apply refine_element_tally in H as (e' & He' & Ht & _); [|done].
  rewrite He in He'. injection He' as <-. lia.
Qed.

(** The counter of the active elements stays in step with the element array:
    a successful refinement of any kind but -1 changes the number of the
    elements that are in use and active, and the counter that
    [get_num_active_elements] reads, by the same amount. A mesh whose counter
    is right before the call has it right after. *)
Theorem refine_element_id_counts_leaves (id refinement : Z) (m m' : Mesh) :
  refinement ≠ (-1)%Z → refine_element_id id refinement m = Ok (tt, m') →
  (Z.of_nat (count_active (elements m')) - nactive m'
   = Z.of_nat (count_active (elements m)) - nactive m)%Z.
Proof. apply refine_element_id_in_step. Qed.

(** ** The kinds of refinement of a quad *)

(** With a kind that it does not provide, [refine_quad] comes to its
    [assert(0)] with no son made. Past it, the four null sons are what the
    element gets. *)
Lemma refine_quad_unknown_kind (ep : nat) (refinement : Z) :
  ¬ quad_kind refinement →
  hoare (λ _, True) (refine_quad ep refinement)
    (λ _ cur, NDEBUG = true
              ∧ ∃ e, elements cur !! ep = Some e
                     ∧ e_sons e = [None; None; None; None]).
Proof.
  intros Hk. unfold refine_quad.
  repeat first
    [ lazymatch goal with
      | |- hoare _ (?f (if decide (refinement = 0%Z) then _ else _)) _ =>
          eapply (hoare_bind _
            (λ sons _, NDEBUG = true ∧ sons = [None; None; None; None]));
            [repeat (destruct (decide _);
                     [exfalso; apply Hk; unfold quad_kind; lia|]);
             apply hoare_assert_false_past
            |intros sons st [] st' [HN ->] H;
             apply bind_Ok in H as ([] & st1 & _ & H);
             apply bind_Ok in H as ([] & st2 & _ & H);
             apply update_elem_Ok in H as [[e He] ->]; split; [done|];
             exists (elem_set_sons [None; None; None; None] e);
             split; [|done];
             cbn; by rewrite list_lookup_alter_eq, He]
      end
    | eapply hoare_bind; [apply hoare_True|intros ?]
    | match goal with
      | |- hoare _ (let _ := _ in _) _ => cbv zeta
      end ].
Qed.

Lemma refine_element_unknown_kind (ep : nat) (refinement : Z) (m m' : Mesh)
    (e : Element) :
  elements m !! ep = Some e → is_triangle e = false →
  ¬ quad_kind refinement →
  refine_element ep refinement m = Ok (tt, m') →
  NDEBUG = true
  ∧ ∃ e', elements m' !! ep = Some e'
          ∧ e_sons e' = [None; None; None; None].
Proof.
  intros He Hq Hk H. unfold refine_element in H.
  apply bind_Ok in H as ([] & m1 & Hlog & H). injection Hlog as <-.
  apply bind_Ok in H as (e' & m1' & He' & H).
  apply deref_Ok in He' as [He' <-]. cbn in He'.
  rewrite He in He'. injection He' as <-. rewrite Hq in H.
  apply bind_Ok in H as ([] & m2 & Hquad & H).
  apply bind_Ok in H as ([] & m3 & Hloop & Hseq).
  destruct (refine_quad_unknown_kind ep refinement Hk _ _ _ I Hquad)
    as [HN Hsons].
  split; [done|]. injection Hseq as <-. cbn.
  revert Hloop.
  apply (for_upto_indexed
           (λ _ cur, ∃ e', elements cur !! ep = Some e'
                           ∧ e_sons e' = [None; None; None; None]));
    [|done].
  intros j s s' _ (e' & He' & Hs) Hb.
  apply bind_Ok in Hb as (e2 & s1 & He2 & Hb).
  apply deref_Ok in He2 as [He2 <-]. rewrite He' in He2.
  injection He2 as <-. rewrite Hs in Hb.
  destruct j as [|[|[|[|j]]]]; cbn in Hb; injection Hb as <-; eauto.
Qed.

(** A quad is refined in the kinds 0, 1 and 2 only. With any other kind but
    -1, [refine_element_id] on a quad comes to the [assert(0)] of
    [refine_quad]: where the build checks its assertions the call does not
    return; where it does not, a call that returns has left the element in
    use and inactive with four null sons, and the number of active elements
    one less than it was. *)
Theorem refine_element_id_quad_kind (id refinement : Z) (m m' : Mesh)
    (e : Element) :
  elements m !! Z.to_nat id = Some e → is_triangle e = false →
  refinement ≠ (-1)%Z → ¬ quad_kind refinement →
  refine_element_id id refinement m = Ok (tt, m') →
  NDEBUG = true
  ∧ nactive m' = (nactive m - 1)%Z
  ∧ ∃ e', elements m' !! Z.to_nat id = Some e'
          ∧ e_used e' = true ∧ e_active e' = false
          ∧ e_sons e' = [None; None; None; None].
Proof.
  intros He Hq Hr Hk H.
  apply refine_element_id_Ok in H as (_ & Hua & H); [|done].
  destruct (refine_element_unknown_kind _ _ _ _ _ He Hq Hk H)
    as (HN & e' & He' & Hs).
  split; [done|]. split.
  - apply refine_element_counters in H as (e1 & He1 & Hn & _).
    rewrite He in He1. injection He1 as <-. rewrite Hn.
    unfold active_gain, quad_kind in *. rewrite Hq.
    destruct (decide (refinement = 0%Z)); [lia|].
    destruct (decide (refinement = 1%Z ∨ refinement = 2%Z)); lia.
  - apply refine_element_tally in H as (_ & _ & _ & e2 & He2 & Hu & Ha);
      [|done].
    rewrite He' in He2. injection He2 as <-. by exists e'.
Qed.

(** ** The counter of the active elements under regularization *)

Create HintDb inv_off discriminated.

Lemma off_modify d (f : Mesh → Mesh) :
  (∀ x, elements (f x) = elements x) → (∀ x, nactive (f x) = nactive x) →
  hoare (off_by d) (modify f) (λ _, off_by d).
Proof.
  intros H1 H2. apply hoare_modify. unfold off_by. intros cur.
  by rewrite H1, H2.
Qed.

Lemma off_refine_element_id d (id refinement : Z) :
  hoare (off_by d) (refine_element_id id refinement) (λ _, off_by d).
Proof.
  intros cur [] cur' Hd H. unfold off_by in *.
  destruct (decide (refinement = (-1)%Z)) as [->|Hr];
    [by injection H as <-|].
  by rewrite (refine_element_id_in_step _ _ _ _ Hr H).
Qed.

#[local] Hint Resolve off_refine_element_id : inv_off.
#[local] Hint Extern 1 (hoare (off_by _) (modify _) _) =>
  apply off_modify; intros; reflexivity : inv_off.

Lemma off_regularize_loop d (rounds fuel : nat) (n : Z) :
  hoare (off_by d) (regularize_loop rounds fuel n) (λ _, off_by d).
Proof.
  induction rounds as [|rounds IH]; cbn [regularize_loop].
  - apply hoare_throw.
  - unfold regularize_pass, regularize_step, assign_parents, assign_parent,
      parents_read, parents_write.
    hoare_auto inv_off.
Qed.

(** [regularize(n)] with [n >= 1] keeps the counter of the active elements in
    step with the element array: the difference between the number of the
    elements in use and active and the counter is the same after the call as
    before. *)
Theorem regularize_counts_leaves (fuel : nat) (n : Z) (m m' : Mesh)
    (par : gmap nat Z) :
  (1 ≤ n)%Z → regularize fuel n m = Ok (par, m') →
  (Z.of_nat (count_active (elements m')) - nactive m'
   = Z.of_nat (count_active (elements m)) - nactive m)%Z.
Proof.
  intros Hn H. unfold regularize in H.
  rewrite bool_decide_eq_false_2 in H by lia. cbn zeta in H.
  apply bind_Ok in H as ([] & m1 & Hmain & H).
  apply bind_Ok in H as ([] & m2 & [_ <-]%mret_Ok & H).
  injection H as _ <-.
  assert (Hh : hoare
            (off_by (Z.of_nat (count_active (elements m)) - nactive m))
            (regularize_main fuel n)
            (λ _, off_by (Z.of_nat (count_active (elements m)) - nactive m))).
  { pose proof off_regularize_loop.
    unfold regularize_main, for_all_active_elements, active_body,
      parents_write.
    hoare_auto inv_off. }
  by eapply Hh.
Qed.

End Properties.

(** * The scenarios of the specification and concrete instances *)

(** C6: on the unit square with one quad, [refine_element_id(0, 0)] leaves
    four active elements, all of them quads and sons of the square;
    [get_num_active_elements] returns 4, three more than before; and there is
    one vertex node at (0.5, 0.5), node 8, which is a vertex of all four
    sons. *)
Theorem unit_square_refinement :
  refine_element_id 0 0 unit_square = Ok (tt, refined_square)
  ∧ get_num_active_elements unit_square = 1%Z
  ∧ get_num_active_elements refined_square = 4%Z
  ∧ nactive refined_square = (nactive unit_square + 3)%Z
  ∧ (e_active <$> elements refined_square !! 0) = Some false
  ∧ (e_sons <$> elements refined_square !! 0)
    = Some [Some 1; Some 2; Some 3; Some 4]
  ∧ (λ ie : nat * Element, (ie.1, is_quad ie.2, e_parent ie.2, e_vn ie.2))
      <$> active_elements refined_square
    = [(1, true, Some 0, [Some 0; Some 4; Some 8; Some 7]);
       (2, true, Some 0, [Some 4; Some 1; Some 5; Some 8]);
       (3, true, Some 0, [Some 8; Some 5; Some 2; Some 6]);
       (4, true, Some 0, [Some 7; Some 8; Some 6; Some 3])]
  ∧ vertex_nodes_at refined_square 0.5 0.5 = [8].
Proof. repeat apply conj; vm_compute; reflexivity. Qed.

(** C9 as stated fails for the kind -1: the id 7 is outside the (empty)
    element array of a new mesh, and the call returns without an exception. *)
Lemma refine_element_id_minus_one_invalid_id :
  (Z.of_nat (length (elements (new_mesh 0))) ≤ 7)%Z
  ∧ refine_element_id 7 (-1) (new_mesh 0) = Ok (tt, new_mesh 0).
Proof. split; [cbn; lia | reflexivity]. Qed.

Lemma refine_element_id_rejects_witness :
  (get_element 7 (new_mesh 0)
   = Err (Exception "Invalid element ID %d, current range:[0; %d]")
   ∧ refine_element_id 7 0 (new_mesh 0)
     = Err (Exception "Invalid element ID %d, current range:[0; %d]"))
  ∧ refine_element_id 0 0 refined_square
    = Err (Exception
        "Attempt to refine element #%d which has been refined already.").
Proof.
  split.
  - apply (refine_element_id_rejects (new_mesh 0) 7 0); [lia | cbn; lia].
  - apply (refine_element_id_rejects refined_square 0 0 ltac:(lia))
      with (e := default default_element (elements refined_square !! 0));
      [lia | vm_compute; reflexivity..].
Defined.

(** C8 as stated fails: on the unit square whose quad is curved,
    [regularize(0)] raises the general exception, not a [CurvedException]. *)
Lemma regularize_curved_square_exception :
  (is_curved <$> elements curved_square !! 0) = Some true
  ∧ regularize 10 0 curved_square
    = Err (Exception "Regularization of curved elements is not supported.")
  ∧ ∀ id, regularize 10 0 curved_square ≠ Err (CurvedException id).
Proof.
  assert (H : regularize 10 0 curved_square
    = Err (Exception "Regularization of curved elements is not supported."))
    by (vm_compute; reflexivity).
  split; [vm_compute; reflexivity|]. split; [exact H|].
  intros id. rewrite H. discriminate.
Qed.

Lemma regularize_curved_exception_witness :
  regularize 10 0 curved_square
  = Err (Exception "Regularization of curved elements is not supported.").
Proof.
  apply (regularize_curved_exception 10 0 0 curved_square
           (mesh_of (regularize_main 10 1 curved_square))
           (mesh_of (regularize_main 10 1 curved_square))
           (default default_element (elements curved_square !! 0)));
    [lia | vm_compute; reflexivity..].
Defined.


Lemma unit_square_reachable : reachable unit_square.
Proof.
  eapply (reach_create (new_mesh 0)
            [(0, 0); (1, 0); (1, 1); (0, 1)]%float [] []
            [(0, 1, 2, 3)%Z] ["domain"]
            [(0, 1); (1, 2); (2, 3); (3, 0)]%Z
            ["bottom"; "right"; "top"; "left"]).
  vm_compute. reflexivity.
Qed.

Lemma refined_square_reachable : reachable refined_square.
Proof.
  eapply (reach_refine unit_square 0 0);
    [apply unit_square_reachable|by right; right; left; left|].
  vm_compute. reflexivity.
Qed.



(** The condition on the kinds cannot be dropped: in a build that defines
    [NDEBUG], [refine_element_id(0, 5)] on the unit square returns and leaves
    element 0 in use and inactive without a son. *)
Lemma unsplit_square_has_no_sons :
  @refine_element_id straight_geometry_ndebug 0 5 unit_square
  = Ok (tt, unsplit_square)
  ∧ ∃ e, elements unsplit_square !! 0 = Some e
         ∧ e_used e = true ∧ e_active e = false
         ∧ e_sons e = [None; None; None; None].
Proof.
  split; [vm_compute; reflexivity|].
  eexists. repeat apply conj; [vm_compute; reflexivity|reflexivity..].
Qed.

(** In the build that checks its assertions the same call aborts. *)
Lemma unit_square_kind_5_aborts :
  @refine_element_id straight_geometry 0 5 unit_square
  = Err (AssertionFailed "0").
Proof. vm_compute. reflexivity. Qed.


(** ** Instances of the further properties *)

Lemma refine_element_id_active_count_witness :
  ∃ e, elements unit_square !! Z.to_nat 0 = Some e
       ∧ nactive refined_square = (nactive unit_square + active_gain e 0)%Z
       ∧ get_num_active_elements refined_square = nactive refined_square.
Proof.
  apply (refine_element_id_active_count 0 0 unit_square refined_square);
    [lia | vm_compute; reflexivity].
Defined.

Lemma refine_element_id_log_seq_witness :
  refinements refined_square = refinements unit_square ++ [(0, 0)%Z]
  ∧ seq refined_square = (g_mesh_seq unit_square mod 2 ^ 32)%Z
  ∧ g_mesh_seq refined_square = ((g_mesh_seq unit_square + 1) mod 2 ^ 32)%Z.
Proof.
  apply (refine_element_id_log_seq 0 0 unit_square refined_square);
    [lia | vm_compute; reflexivity].
Defined.

Lemma refine_element_id_footprint_witness :
  parents refined_square = parents unit_square
  ∧ (∀ j, used_in unit_square j → used_in refined_square j)
  ∧ (∀ j e e', j ≠ Z.to_nat 0 → elements unit_square !! j = Some e →
       e_used e = true → elements refined_square !! j = Some e' →
       e_sons e' = e_sons e ∧ e_active e' = e_active e)
  ∧ (∀ j, used_in refined_square j → ¬ used_in unit_square j →
       used_active refined_square j)
  ∧ ∃ e', elements refined_square !! Z.to_nat 0 = Some e'
          ∧ e_used e' = true ∧ e_active e' = false
          ∧ ∀ j, (∃ i, slot (e_sons e') i = Some j)
                 ↔ (used_in refined_square j ∧ ¬ used_in unit_square j).
Proof.
  apply (refine_element_id_footprint 0 0 unit_square refined_square);
    [lia | lia | vm_compute; reflexivity].
Defined.

Lemma refine_element_id_twice_witness :
  refine_element_id 0 2 refined_square
  = Err (Exception
      "Attempt to refine element #%d which has been refined already.").
Proof.
  apply (refine_element_id_twice 0 0 2 unit_square refined_square);
    [lia | lia | vm_compute; reflexivity].
Defined.

Lemma insert_marker_keeps_tables_witness :
  markers_wf (insert_marker "inlet" empty_markers).2
  ∧ (∀ s', s' ≠ "inlet" →
       get_internal_marker s' (insert_marker "inlet" empty_markers).2
       = get_internal_marker s' empty_markers)
  ∧ (∀ k s', conversion_table empty_markers !! k = Some s' →
       get_user_marker k (insert_marker "inlet" empty_markers).2
       = get_user_marker k empty_markers).
Proof.
  apply (insert_marker_keeps_tables "inlet" empty_markers);
    [apply empty_markers_wf | cbn; lia].
Defined.

Lemma insert_marker_round_trip_witness :
  get_internal_marker "inlet" (insert_marker "inlet" empty_markers).2
  = ((insert_marker "inlet" empty_markers).1, true)
  ∧ get_user_marker (insert_marker "inlet" empty_markers).1
      (insert_marker "inlet" empty_markers).2 = ("inlet", true).
Proof.
  apply (insert_marker_round_trip "inlet" empty_markers);
    [apply empty_markers_wf | cbn; lia | discriminate].
Defined.

Lemma insert_marker_injective_witness : "inlet" = "inlet".
Proof.
  apply (insert_marker_injective "inlet" "inlet" empty_markers);
    [apply empty_markers_wf | cbn; lia | vm_compute; reflexivity].
Defined.

Lemma insert_marker_reserved_name_witness :
  get_internal_marker H2D_DG_INNER_EDGE
    (insert_marker H2D_DG_INNER_EDGE empty_markers).2
  = (H2D_DG_INNER_EDGE_INT, true)
  ∧ (insert_marker H2D_DG_INNER_EDGE empty_markers).1 ≠ H2D_DG_INNER_EDGE_INT.
Proof.
  apply (insert_marker_reserved_name empty_markers);
    [apply empty_markers_wf | cbn; lia].
Defined.

Lemma get_edge_degree_range_witness :
  (0 ≤ 1 < Z.of_nat 3)%Z
  ∧ get_edge_degree 7 (ht refined_square) 0 1 = Some 1%Z.
Proof.
  apply (get_edge_degree_range 3 7 (ht refined_square) 0 1 1);
    [vm_compute; reflexivity | lia].
Defined.

Lemma regularize_parent_array_witness :
  let m := hanging_quads in
  let m' := mesh_of (regularize 10 1 hanging_quads) in
  let par := default ∅ (outcome (regularize 10 1 hanging_quads)) in
  (∀ j, used_active m j → par !! j = Some (Z.of_nat j))
  ∧ (∀ j, used_in m j → ¬ used_active m j → par !! j = None)
  ∧ (∀ j, used_in m' j → ¬ used_in m j →
       ∃ r, used_active m r ∧ par !! j = Some (Z.of_nat r))
  ∧ (∀ p e, elements m' !! p = Some e → e_used e = true →
       e_active e = false → used_active m p ∨ ¬ used_in m p →
       ∀ i s, slot (e_sons e) i = Some s → par !! s = par !! p)
  ∧ (∀ j, used_in m j → used_in m' j).
Proof.
  apply (regularize_parent_array 10 1 hanging_quads
           (mesh_of (regularize 10 1 hanging_quads))
           (default ∅ (outcome (regularize 10 1 hanging_quads))));
    [lia | by vm_compute | vm_compute; reflexivity].
Defined.

Lemma refine_unrefine_restores_witness :
  (∀ j, used_in unrefined_square j ↔ used_in unit_square j)
  ∧ (∀ j e e2, elements unit_square !! j = Some e → e_used e = true →
       elements unrefined_square !! j = Some e2 →
       e_active e2 = e_active e)
  ∧ nactive unrefined_square = nactive unit_square
  ∧ refinements unrefined_square
    = refinements unit_square ++ [(0, 0); (0, -1)]%Z.
Proof.
  apply (refine_unrefine_restores 3 0 0 unit_square refined_square
           unrefined_square);
    [lia | lia | vm_compute; reflexivity | vm_compute; reflexivity].
Defined.

Lemma regularize_flattens_witness :
  flat (mesh_of (regularize 10 0 hanging_quads))
  ∧ (seq_nonneg (mesh_of (regularize 10 0 hanging_quads)) →
     get_num_active_elements (mesh_of (regularize 10 0 hanging_quads))
     = get_max_element_id (mesh_of (regularize 10 0 hanging_quads))).
Proof.
  apply (regularize_flattens 10 0 hanging_quads
           (mesh_of (regularize 10 0 hanging_quads))
           (default ∅ (outcome (regularize 10 0 hanging_quads))));
    [lia | vm_compute; reflexivity].
Defined.

Lemma create_builds_elements_witness :
  let k := Z.of_nat (length (@nil (Z * Z * Z)) + length [(0, 1, 2, 3)%Z]) in
  shape <$> elements unit_square
  = (tri_shape <$> []) ++ (quad_shape <$> [(0, 1, 2, 3)%Z])
  ∧ Forall (λ e, e_used e = true ∧ e_active e = true) (elements unit_square)
  ∧ nbase unit_square = k ∧ nactive unit_square = k
  ∧ ninitial unit_square = k
  ∧ ntopvert unit_square
    = Z.of_nat (length [(0, 0); (1, 0); (1, 1); (0, 1)]%float)
  ∧ refinements unit_square = []
  ∧ seq_nonneg unit_square
  ∧ get_num_active_elements unit_square = k
  ∧ get_max_element_id unit_square = k.
Proof.
  apply (create_builds_elements
           [(0, 0); (1, 0); (1, 1); (0, 1)]%float [] []
           [(0, 1, 2, 3)%Z] ["domain"]
           [(0, 1); (1, 2); (2, 3); (3, 0)]%Z
           ["bottom"; "right"; "top"; "left"] (new_mesh 0) unit_square).
  vm_compute. reflexivity.
Defined.

Lemma rescale_outcome_witness :
  (∀ k e, elements curved_square !! k = Some e → e_used e = true →
     is_curved e = true →
     (∀ j e', j < k → elements curved_square !! j = Some e' →
              e_used e' && is_curved e' = false) →
     rescale 2 2 curved_square = Err (CurvedException (Z.of_nat k)))
  ∧ ((∀ j e', elements curved_square !! j = Some e' →
              e_used e' && is_curved e' = false) →
     ∃ m', rescale 2 2 curved_square = Ok (true, m')
           ∧ elements m' = elements curved_square
           ∧ nodes (ht m') = rescale_node 2 2 <$> nodes (ht curved_square)).
Proof. apply (rescale_outcome 2 2 curved_square). by vm_compute. Defined.

Lemma unrefine_all_elements_keeps_sons_witness :
  sons_inv None (mesh_of (unrefine_all_elements 5 false refined_square)).
Proof.
  apply (unrefine_all_elements_keeps_sons 5 false refined_square);
    [apply reachable_sons_inv, refined_square_reachable
    | vm_compute; reflexivity].
Defined.

Lemma unrefine_all_elements_leaves_witness :
  unrefine_all_elements 5 true unit_square = Ok (tt, unit_square).
Proof.
  apply (unrefine_all_elements_leaves 5 true unit_square).
  intros [|j] e He _; vm_compute in He; [by injection He as <-|done].
Defined.

Lemma regularize_twice_witness :
  ∃ par', regularize 10 1 (mesh_of (regularize 10 1 hanging_quads))
          = Ok (par', mesh_set_parents par'
                        (2 * get_max_element_id
                               (mesh_of (regularize 10 1 hanging_quads)))
                        (mesh_of (regularize 10 1 hanging_quads))).
Proof.
  apply (regularize_twice 10 1 hanging_quads
           (mesh_of (regularize 10 1 hanging_quads))
           (default ∅ (outcome (regularize 10 1 hanging_quads))));
    [lia | by vm_compute | vm_compute; reflexivity].
Defined.

Lemma refine_element_id_counts_leaves_witness :
  (Z.of_nat (count_active (elements refined_square)) - nactive refined_square
   = Z.of_nat (count_active (elements unit_square)) - nactive unit_square)%Z.
Proof.
  apply (refine_element_id_counts_leaves 0 0 unit_square refined_square);
    [lia | vm_compute; reflexivity].
Defined.

Lemma refine_element_id_quad_kind_witness :
  @NDEBUG straight_geometry_ndebug = true
  ∧ nactive unsplit_square = (nactive unit_square - 1)%Z
  ∧ ∃ e', elements unsplit_square !! Z.to_nat 0 = Some e'
          ∧ e_used e' = true ∧ e_active e' = false
          ∧ e_sons e' = [None; None; None; None].
Proof.
  apply (@refine_element_id_quad_kind straight_geometry_ndebug 0 5
           unit_square unsplit_square
           (default default_element (elements unit_square !! 0%nat)));
    [vm_compute; reflexivity | vm_compute; reflexivity | lia
    | unfold quad_kind; lia | vm_compute; reflexivity].
Defined.

Lemma regularize_counts_leaves_witness :
  (Z.of_nat (count_active (elements (mesh_of (regularize 10 1 hanging_quads))))
   - nactive (mesh_of (regularize 10 1 hanging_quads))
   = Z.of_nat (count_active (elements hanging_quads))
     - nactive hanging_quads)%Z.
Proof.
  apply (regularize_counts_leaves 10 1 hanging_quads
           (mesh_of (regularize 10 1 hanging_quads))
           (default ∅ (outcome (regularize 10 1 hanging_quads))));
    [lia | vm_compute; reflexivity].
Defined.
